(** * Lateral-movement graph engine and threat-score fusion

    A shallow embedding of [backend/app/services/ml_pipeline.py]
    (classes [GraphAnalyzer] and [MLPipeline]) together with the part of
    [backend/app/api/v1/endpoints/visualize.py] and
    [backend/app/core/database.py] that caches the attack-path view.

    Conventions of the embedding.
    - Python [float]s are idealised as exact rationals ([Q]); comparisons
      are the rational ones and statements about numbers use [==].  A
      statement that sets one sum against another (the weights of two
      paths, a sum formed in another order) is made for weights on which
      binary64 adds exactly ([whole_weights]) or names the order in which
      the code adds ([accumulated]); the fused score of the
      specification's scenario is computed on binary64 values
      ([binary64]).
    - A Python [dict] whose iteration order is observable (the adjacency
      of [networkx.Graph]) is an association list in insertion order; a
      [dict] that is only looked up is a [gmap]; a Python [set] is a
      [gset].
    - The attribute dictionary of an undirected edge is one object that
      both adjacency entries point to; it lives in a store and the
      adjacency holds references into it.
    - Exceptions are values of [res]; a [try ... except Exception] block is
      a [match] on the raised case.
    - [while] loops carry fuel; the fuel handed to them is shown to be
      enough (the result is never [Diverge]). *)

From Stdlib Require Import Floats.PrimFloat.
From Stdlib Require Import QArith Qminmax Lqa.
From Stdlib Require OrderedTypeEx.
From stdpp Require Import gmap strings list sorting pretty.

Open Scope Q_scope.

Set Warnings "-inexact-float".

(** ** Rational comparisons as booleans *)

Definition Qltb (x y : Q) : bool := negb (Qle_bool y x).

(** Python's [min(a, b)]: the first argument unless the second is
    strictly smaller. *)
Definition py_min (a b : Q) : Q := if Qltb b a then b else a.

(** ** Exceptions *)

Inductive exn : Set :=
| KeyError
| ValueError
| NetworkXNoPath
| NodeNotFound
| UnboundLocalError.

Inductive res (A : Type) : Type :=
| Ok (a : A)
| Raise (e : exn)
| Diverge.

Arguments Ok {A} a.
Arguments Raise {A} e.
Arguments Diverge {A}.

Definition res_bind {A B : Type} (m : res A) (k : A -> res B) : res B :=
  match m with
  | Ok a => k a
  | Raise e => Raise e
  | Diverge => Diverge
  end.

Notation "'let*' x ':=' m 'in' k" := (res_bind m (fun x => k))
  (at level 10, x pattern, m at level 100, k at level 200).

(** [d[k]] on a looked-up dictionary: [KeyError] when the key is absent. *)
Definition getitem {V : Type} (d : gmap string V) (k : string) : res V :=
  match d !! k with
  | Some v => Ok v
  | None => Raise KeyError
  end.

(** ** Insertion-ordered dictionaries *)

Fixpoint dict_get {V : Type} (k : string) (d : list (string * V)) : option V :=
  match d with
  | [] => None
  | (k', v) :: d' => if String.eqb k k' then Some v else dict_get k d'
  end.

(** [d[k] = v]: an existing key keeps its position, a new key goes last. *)
Fixpoint dict_set {V : Type} (k : string) (v : V) (d : list (string * V))
  : list (string * V) :=
  match d with
  | [] => [(k, v)]
  | (k', v') :: d' =>
      if String.eqb k k' then (k', v) :: d' else (k', v') :: dict_set k v d'
  end.

Definition dict_keys {V : Type} (d : list (string * V)) : list string :=
  map fst d.

(** ** networkx.Graph

    [backend/setup.py] asks for [networkx >= 3.2.0]; the library itself is
    not part of the repository.  The module follows the functions of that
    release which [GraphAnalyzer] calls: [Graph.add_edge], [has_node],
    [has_edge], [G[u][v]], [has_path] (through
    [bidirectional_shortest_path] and [_bidirectional_pred_succ]) and
    [shortest_path] with a weight (through [bidirectional_dijkstra]). *)

Module nx.

(** The attribute dictionary of an edge as [add_connection] builds it:
    the keys ['weight'] and ['types']. *)
Record EdgeData : Type := { weight : Q; types : gset string }.

(** [_adj] is [G._adj] (node, then neighbour, then the attribute
    dictionary, held by reference); [G._node] has the same keys in the
    same order and is not kept apart.  [attrs] is the store of attribute
    dictionaries. *)
Record Graph : Type := {
  _adj : list (string * list (string * nat));
  attrs : list EdgeData
}.

(** [nx.Graph()] *)
Definition empty : Graph := {| _adj := []; attrs := [] |}.

(** [list(G.nodes())] *)
Definition nodes (g : Graph) : list string := dict_keys (_adj g).

Definition has_node (g : Graph) (n : string) : bool :=
  match dict_get n (_adj g) with Some _ => true | None => false end.

(** [G.has_edge(u, v)]: [v in G._adj[u]], [False] on [KeyError]. *)
Definition has_edge (g : Graph) (u v : string) : bool :=
  match dict_get u (_adj g) with
  | Some nb => match dict_get v nb with Some _ => true | None => false end
  | None => false
  end.

(** The reference held at [G._adj[u][v]]. *)
Definition adj_ref (a : list (string * list (string * nat))) (u v : string)
  : option nat :=
  match dict_get u a with
  | Some nb => dict_get v nb
  | None => None
  end.

Definition edge_ref (g : Graph) (u v : string) : option nat :=
  adj_ref (_adj g) u v.

(** [G[u][v]]: the attribute dictionary, [KeyError] when [u] is not a
    node or [v] is not a neighbour of [u]. *)
Definition edge_data (g : Graph) (u v : string) : res EdgeData :=
  match edge_ref g u v with
  | Some r => match attrs g !! r with
              | Some d => Ok d
              | None => Raise KeyError
              end
  | None => Raise KeyError
  end.

(** In-place update of the attribute dictionary [G[u][v]]. *)
Definition set_edge_data (g : Graph) (u v : string) (d : EdgeData) : res Graph :=
  match edge_ref g u v with
  | Some r => if decide (r < length (attrs g))%nat
              then Ok {| _adj := _adj g; attrs := <[r := d]> (attrs g) |}
              else Raise KeyError
  | None => Raise KeyError
  end.

(** The first half of [add_edge]: [if u not in self._node: ...]. *)
Definition add_node_if_new (u : string) (a : list (string * list (string * nat)))
  : list (string * list (string * nat)) :=
  match dict_get u a with
  | Some _ => a
  | None => a ++ [(u, [])]
  end.

(** [self._adj[u][v] = datadict]. *)
Definition link (u v : string) (r : nat) (a : list (string * list (string * nat)))
  : list (string * list (string * nat)) :=
  match dict_get u a with
  | Some nb => dict_set u (dict_set v r nb) a
  | None => a
  end.

(** [G.add_edge(u, v, weight=..., types=...)]:
    [datadict = self._adj[u].get(v, {}); datadict.update(attr)], then both
    adjacency entries are pointed at [datadict]. *)
Definition add_edge (g : Graph) (u v : string) (d : EdgeData) : Graph :=
  let a := add_node_if_new v (add_node_if_new u (_adj g)) in
  let g1 := {| _adj := a; attrs := attrs g |} in
  match edge_ref g1 u v with
  | Some r =>
      {| _adj := link v u r (link u v r a); attrs := <[r := d]> (attrs g) |}
  | None =>
      let r := length (attrs g) in
      {| _adj := link v u r (link u v r a); attrs := attrs g ++ [d] |}
  end.

(** [G._adj[v].items()] seen through the weight function
    [lambda u, v, data: data.get('weight', 1)]. *)
Definition neighbors (g : Graph) (v : string) : list (string * Q) :=
  match dict_get v (_adj g) with
  | Some nb =>
      map (fun wr : string * nat =>
             (wr.1, match attrs g !! wr.2 with
                    | Some d => weight d
                    | None => 1
                    end)) nb
  | None => []
  end.

(** Every name that occurs in the adjacency, as a node or as a neighbour. *)
Definition names (g : Graph) : list string :=
  concat (map (fun e : string * list (string * nat) => e.1 :: map fst e.2) (_adj g)).

Section Search.

(** The searches only see the graph through the neighbour lists. *)
Variable nbrs : string -> list (string * Q).

(** *** [_bidirectional_pred_succ]: breadth-first from both ends

    [has_path] throws the predecessor maps away, so only their key sets
    are kept. *)

(** [for w in Gsucc[v]: if w not in pred: fringe.append(w); pred[w] = v;
     if w in succ: return]  ([None] is the [return]). *)
Fixpoint expand (ws : list string) (other mine : gset string) (fr : list string)
  : option (gset string * list string) :=
  match ws with
  | [] => Some (mine, fr)
  | w :: ws' =>
      let mine' := if decide (w ∈ mine) then mine else {[w]} ∪ mine in
      let fr' := if decide (w ∈ mine) then fr else fr ++ [w] in
      if decide (w ∈ other) then None else expand ws' other mine' fr'
  end.

(** [for v in this_level: ...] *)
Fixpoint expand_level (vs : list string) (other mine : gset string)
  (fr : list string) : option (gset string * list string) :=
  match vs with
  | [] => Some (mine, fr)
  | v :: vs' =>
      match expand (map fst (nbrs v)) other mine fr with
      | None => None
      | Some (mine', fr') => expand_level vs' other mine' fr'
      end
  end.

Fixpoint pred_succ_loop (fuel : nat) (pred succ : gset string)
  (forward_fringe reverse_fringe : list string) : res unit :=
  match fuel with
  | O => Diverge
  | S fuel' =>
      match forward_fringe, reverse_fringe with
      | [], _ | _, [] => Raise NetworkXNoPath
      | _, _ =>
          if decide (length forward_fringe <= length reverse_fringe)%nat then
            match expand_level forward_fringe succ pred [] with
            | None => Ok tt
            | Some (pred', fr) => pred_succ_loop fuel' pred' succ fr reverse_fringe
            end
          else
            match expand_level reverse_fringe pred succ [] with
            | None => Ok tt
            | Some (succ', fr) => pred_succ_loop fuel' pred succ' forward_fringe fr
            end
      end
  end.

Definition _bidirectional_pred_succ (fuel : nat) (source target : string) : res unit :=
  if decide (target = source) then Ok tt
  else pred_succ_loop fuel {[source]} {[target]} [source] [target].

(** *** [bidirectional_dijkstra] *)

(** One search direction: final distances, paths, the heap and the
    distances to seen nodes. *)
Record side : Type := {
  dists : gmap string Q;
  paths : gmap string (list string);
  fringe : list (Q * nat * string);
  seen : gmap string Q
}.

Record dstate : Type := {
  fwd : side;
  bwd : side;
  counter : nat;
  finaldist : option Q;
  finalpath : list string
}.

(** [dir == 0] is [false], [dir == 1] is [true]. *)
Definition get_side (dir : bool) (st : dstate) : side :=
  if dir then bwd st else fwd st.

Definition set_side (dir : bool) (sd : side) (st : dstate) : dstate :=
  if dir
  then {| fwd := fwd st; bwd := sd; counter := counter st;
          finaldist := finaldist st; finalpath := finalpath st |}
  else {| fwd := sd; bwd := bwd st; counter := counter st;
          finaldist := finaldist st; finalpath := finalpath st |}.

(** Tuple comparison of heap entries: distance first, then the counter
    (counters are pairwise distinct, the node is never compared). *)
Definition entry_ltb (a b : Q * nat * string) : bool :=
  Qltb a.1.1 b.1.1 || (Qeq_bool a.1.1 b.1.1 && (a.1.2 <? b.1.2)%nat).

(** [heappop]: the least entry and the remaining ones.  The heap is kept
    as a bag; its array layout does not influence which entry is least. *)
Fixpoint heappop (h : list (Q * nat * string))
  : option ((Q * nat * string) * list (Q * nat * string)) :=
  match h with
  | [] => None
  | e :: h' =>
      match heappop h' with
      | None => Some (e, [])
      | Some (m, r) => if entry_ltb m e then Some (m, e :: r) else Some (e, h')
      end
  end.

Definition heappush (h : list (Q * nat * string)) (e : Q * nat * string)
  : list (Q * nat * string) := e :: h.

(** The [if w in seen[0] and w in seen[1]] block of the relaxation. *)
Definition meet (w : string) (st : dstate) : res dstate :=
  match seen (fwd st) !! w, seen (bwd st) !! w with
  | Some a, Some b =>
      let totaldist := a + b in
      let*  better :=
        match finalpath st with
        | [] => Ok true
        | _ :: _ => match finaldist st with
                    | Some fd => Ok (Qltb totaldist fd)
                    | None => Raise UnboundLocalError
                    end
        end in
      if (better : bool) then
        let* p1 := getitem (paths (bwd st)) w in
        let* p0 := getitem (paths (fwd st)) w in
        Ok {| fwd := fwd st; bwd := bwd st; counter := counter st;
              finaldist := Some totaldist;
              finalpath := p0 ++ tail (rev p1) |}
      else Ok st
  | _, _ => Ok st
  end.

(** The relaxation of [w]:
    [seen[dir][w] = vwLength; push(fringe[dir], (vwLength, next(c), w));
     paths[dir][w] = paths[dir][v] + [w]]. *)
Definition record_seen (dir : bool) (w : string) (vwLength : Q) (p : list string)
  (st : dstate) : dstate :=
  let sd := get_side dir st in
  let st1 :=
    set_side dir
      {| dists := dists sd;
         paths := <[w := p]> (paths sd);
         fringe := heappush (fringe sd) (vwLength, counter st, w);
         seen := <[w := vwLength]> (seen sd) |} st in
  {| fwd := fwd st1; bwd := bwd st1; counter := S (counter st1);
     finaldist := finaldist st1; finalpath := finalpath st1 |}.

(** The body of [for w, d in neighs[dir][v].items()]. *)
Definition relax1 (dir : bool) (v w : string) (cost : Q) (st : dstate) : res dstate :=
  let sd := get_side dir st in
  let* dv := getitem (dists sd) v in
  let vwLength := dv + cost in
  match dists sd !! w with
  | Some dw => if Qltb vwLength dw then Raise ValueError else Ok st
  | None =>
      if match seen sd !! w with
         | None => true
         | Some sw => Qltb vwLength sw
         end
      then
        let* pv := getitem (paths sd) v in
        meet w (record_seen dir w vwLength (pv ++ [w]) st)
      else Ok st
  end.

Fixpoint relax (dir : bool) (v : string) (nb : list (string * Q)) (st : dstate)
  : res dstate :=
  match nb with
  | [] => Ok st
  | (w, cost) :: nb' =>
      let* st' := relax1 dir v w cost st in
      relax dir v nb' st'
  end.

(** The heap of a side after [heappop]. *)
Definition with_fringe (rest : list (Q * nat * string)) (sd : side) : side :=
  {| dists := dists sd; paths := paths sd; fringe := rest; seen := seen sd |}.

(** [dists[dir][v] = dist] *)
Definition with_final (v : string) (dist : Q) (sd : side) : side :=
  {| dists := <[v := dist]> (dists sd); paths := paths sd;
     fringe := fringe sd; seen := seen sd |}.

(** [while fringe[0] and fringe[1]: ...]; [dir] is the direction of the
    previous round. *)
Fixpoint dijkstra_loop (fuel : nat) (dir : bool) (st : dstate)
  : res (Q * list string) :=
  match fuel with
  | O => Diverge
  | S fuel' =>
      match fringe (fwd st), fringe (bwd st) with
      | [], _ | _, [] => Raise NetworkXNoPath
      | _, _ =>
          let dir := negb dir in
          let sd := get_side dir st in
          match heappop (fringe sd) with
          | None => Raise NetworkXNoPath
          | Some ((dist, _, v), rest) =>
              match dists sd !! v with
              | Some _ =>
                  dijkstra_loop fuel' dir (set_side dir (with_fringe rest sd) st)
              | None =>
                  let st2 :=
                    set_side dir (with_final v dist (with_fringe rest sd)) st in
                  match dists (get_side (negb dir) st2) !! v with
                  | Some _ =>
                      match finaldist st2 with
                      | Some fd => Ok (fd, finalpath st2)
                      | None => Raise UnboundLocalError
                      end
                  | None =>
                      let* st3 := relax dir v (nbrs v) st2 in
                      dijkstra_loop fuel' dir st3
                  end
              end
          end
      end
  end.

Definition dijkstra_init (source target : string) : dstate :=
  {| fwd := {| dists := ∅; paths := {[source := [source]]};
               fringe := [(0, 0%nat, source)]; seen := {[source := 0]} |};
     bwd := {| dists := ∅; paths := {[target := [target]]};
               fringe := [(0, 1%nat, target)]; seen := {[target := 0]} |};
     counter := 2;
     finaldist := None;
     finalpath := [] |}.

Definition bidirectional_dijkstra_from (fuel : nat) (source target : string)
  : res (Q * list string) :=
  if decide (source = target) then Ok (0, [source])
  else dijkstra_loop fuel true (dijkstra_init source target).

End Search.

(** Rounds that the two loops can take at most on [g]. *)
Definition bfs_fuel (g : Graph) : nat := 2 * length (names g) + 2.

Definition degree_sum (g : Graph) : nat :=
  sum_list_with (fun v => length (neighbors g v)) (nodes g).

Definition dijkstra_fuel (g : Graph) : nat := 2 * degree_sum g + 3.

(** [nx.bidirectional_shortest_path], without the path it builds. *)
Definition bidirectional_shortest_path (g : Graph) (source target : string) : res unit :=
  if negb (has_node g source) || negb (has_node g target) then Raise NodeNotFound
  else _bidirectional_pred_succ (neighbors g) (bfs_fuel g) source target.

(** [nx.has_path]. *)
Definition has_path (g : Graph) (source target : string) : res bool :=
  match bidirectional_shortest_path g source target with
  | Ok _ => Ok true
  | Raise NetworkXNoPath => Ok false
  | Raise e => Raise e
  | Diverge => Diverge
  end.

(** [nx.bidirectional_dijkstra(G, source, target, 'weight')]. *)
Definition bidirectional_dijkstra (g : Graph) (source target : string)
  : res (Q * list string) :=
  if negb (has_node g source) || negb (has_node g target) then Raise NodeNotFound
  else bidirectional_dijkstra_from (neighbors g) (dijkstra_fuel g) source target.

(** [nx.shortest_path(G, source, target, weight='weight')]. *)
Definition shortest_path (g : Graph) (source target : string) : res (list string) :=
  let* r := bidirectional_dijkstra g source target in Ok r.2.

End nx.

(** ** GraphAnalyzer *)

Record GraphAnalyzer : Type := {
  graph : nx.Graph;
  is_initialized : bool
}.

(** [GraphAnalyzer.__init__] *)
Definition __init__ : GraphAnalyzer :=
  {| graph := nx.empty; is_initialized := false |}.

(** [GraphAnalyzer.initialize] *)
Definition initialize (self : GraphAnalyzer) : GraphAnalyzer :=
  {| graph := graph self; is_initialized := true |}.

(** [self.graph_analyzer.graph.clear()] in [MLPipeline.cleanup]. *)
Definition cleanup (self : GraphAnalyzer) : GraphAnalyzer :=
  {| graph := nx.empty; is_initialized := is_initialized self |}.

Definition with_graph (self : GraphAnalyzer) (g : nx.Graph) : GraphAnalyzer :=
  {| graph := g; is_initialized := is_initialized self |}.

(** [self.graph[source][target]['weight'] += weight] *)
Definition bump_weight (g : nx.Graph) (source target : string) (w : Q) : res nx.Graph :=
  let* d := nx.edge_data g source target in
  nx.set_edge_data g source target
    {| nx.weight := nx.weight d + w; nx.types := nx.types d |}.

(** [self.graph[source][target]['types'].add(connection_type)] *)
Definition add_type (g : nx.Graph) (source target connection_type : string)
  : res nx.Graph :=
  let* d := nx.edge_data g source target in
  nx.set_edge_data g source target
    {| nx.weight := nx.weight d; nx.types := nx.types d ∪ {[connection_type]} |}.

(** [GraphAnalyzer.add_connection]: what the call evaluates to ([Ok tt]
    is a normal return) and the analyzer it leaves behind.  An exception
    in the [try] block is logged and swallowed; the mutations made before
    it stay. *)
Definition add_connection (self : GraphAnalyzer)
  (source target connection_type : string) (weight : Q)
  : res unit * GraphAnalyzer :=
  if negb (is_initialized self) then (Ok tt, self)
  else if nx.has_edge (graph self) source target then
    match bump_weight (graph self) source target weight with
    | Ok g1 =>
        match add_type g1 source target connection_type with
        | Ok g2 => (Ok tt, with_graph self g2)
        | Raise _ => (Ok tt, with_graph self g1)
        | Diverge => (Diverge, with_graph self g1)
        end
    | Raise _ => (Ok tt, self)
    | Diverge => (Diverge, self)
    end
  else
    (Ok tt,
     with_graph self
       (nx.add_edge (graph self) source target
          {| nx.weight := weight; nx.types := {[connection_type]} |})).

(** The dictionary [detect_lateral_movement] returns; the two keys that the
    zero-risk answers leave out are optional. *)
Record LateralMovement : Type := {
  risk_score : Q;
  path : list string;
  path_length : option Z;
  is_suspicious : bool;
  total_weight : option Q
}.

Definition no_movement : LateralMovement :=
  {| risk_score := 0; path := []; path_length := None;
     is_suspicious := false; total_weight := None |}.

(** [self.graph[path[i]][path[i+1]]['weight'] for i in range(len(path) - 1)] *)
Fixpoint edge_weights (g : nx.Graph) (p : list string) : res (list Q) :=
  match p with
  | u :: p' =>
      match p' with
      | v :: _ =>
          let* d := nx.edge_data g u v in
          let* ws := edge_weights g p' in
          Ok (nx.weight d :: ws)
      | [] => Ok []
      end
  | [] => Ok []
  end.

(** [sum(...)] *)
Definition py_sum (ws : list Q) : Q := fold_left Qplus ws 0.

(** The [try] block of [detect_lateral_movement]. *)
Definition score_path (g : nx.Graph) (source target : string) : res LateralMovement :=
  let* connected := nx.has_path g source target in
  if (connected : bool) then
    let* path := nx.shortest_path g source target in
    let path_length := (Z.of_nat (length path) - 1)%Z in
    let* ws := edge_weights g path in
    let total_weight := py_sum ws in
    let risk_score := py_min 1 ((inject_Z path_length * total_weight) / 10) in
    let is_suspicious := Qltb (7 # 10) risk_score in
    Ok {| risk_score := risk_score; path := path;
          path_length := Some path_length;
          is_suspicious := is_suspicious;
          total_weight := Some total_weight |}
  else Ok no_movement.

(** [GraphAnalyzer.detect_lateral_movement] *)
Definition detect_lateral_movement (self : GraphAnalyzer) (source target : string)
  : res LateralMovement :=
  if negb (is_initialized self)
     || negb (nx.has_node (graph self) source)
     || negb (nx.has_node (graph self) target)
  then Ok no_movement
  else
    match score_path (graph self) source target with
    | Ok r => Ok r
    | Raise _ => Ok no_movement
    | Diverge => Diverge
    end.

(** An entry of the list [get_attack_paths] returns:
    [{"source": source, "target": target, **result}]. *)
Record AttackPath : Type := {
  source : string;
  target : string;
  movement : LateralMovement
}.

(** [for i in range(len(nodes)): for j in range(i + 1, len(nodes))] *)
Fixpoint pairs {A : Type} (l : list A) : list (A * A) :=
  match l with
  | [] => []
  | x :: l' => map (pair x) l' ++ pairs l'
  end.

(** The body of the double loop over the pairs in order. *)
Fixpoint collect (self : GraphAnalyzer) (risk_threshold : Q)
  (ps : list (string * string)) : res (list AttackPath) :=
  match ps with
  | [] => Ok []
  | (s, t) :: ps' =>
      let* result := detect_lateral_movement self s t in
      let* rest := collect self risk_threshold ps' in
      if Qltb risk_threshold (risk_score result)
      then Ok ({| source := s; target := t; movement := result |} :: rest)
      else Ok rest
  end.

(** [sorted(xs, key=..., reverse=True)]: the stable sort in descending
    order of the key; entries with equal keys keep their order. *)
Fixpoint insert_desc {A : Type} (key : A -> Q) (x : A) (l : list A) : list A :=
  match l with
  | [] => [x]
  | y :: l' => if Qltb (key x) (key y) then y :: insert_desc key x l' else x :: l
  end.

Definition sorted_reverse {A : Type} (key : A -> Q) (l : list A) : list A :=
  foldr (insert_desc key) [] l.

(** [GraphAnalyzer.get_attack_paths] *)
Definition get_attack_paths (self : GraphAnalyzer) (risk_threshold : Q)
  : res (list AttackPath) :=
  if negb (is_initialized self) then Ok []
  else
    match collect self risk_threshold (pairs (nx.nodes (graph self))) with
    | Ok attack_paths =>
        Ok (sorted_reverse (fun x => risk_score (movement x)) attack_paths)
    | Raise _ => Ok []
    | Diverge => Diverge
    end.

(** ** MLPipeline._calculate_threat_score *)

(** The [results] dictionary of [analyze_event]: each analysis is present
    or not; when present it carries the keys its producer always sets
    ([anomaly_score]; [classification] and [confidence]; [risk_score]). *)
Record Results : Type := {
  anomaly_detection : option Q;
  threat_classification : option (string * Q);
  graph_analysis : option LateralMovement
}.

Definition _calculate_threat_score (results : Results) : Q :=
  let score := 0 in
  let score :=
    match anomaly_detection results with
    | Some anomaly_score => score + anomaly_score * (3 # 10)
    | None => score
    end in
  let score :=
    match threat_classification results with
    | Some (classification, confidence) =>
        if String.eqb classification "malicious"
        then score + confidence * (4 # 10)
        else if String.eqb classification "suspicious"
        then score + confidence * (5 # 10) * (4 # 10)
        else score
    | None => score
    end in
  let score :=
    match graph_analysis results with
    | Some r => score + risk_score r * (3 # 10)
    | None => score
    end in
  py_min 1 score.

(** The three labels of [ThreatClassifier.classes]. *)
Inductive Label : Set := benign | suspicious | malicious.

Definition label_name (l : Label) : string :=
  match l with
  | benign => "benign"
  | suspicious => "suspicious"
  | malicious => "malicious"
  end.

(** [_calculate_threat_score] on the results of an event for which all
    three analyses ran. *)
Definition Fuse (anomalyScore : Q) (label : Label) (confidence : Q)
  (graph_result : LateralMovement) : Q :=
  _calculate_threat_score
    {| anomaly_detection := Some anomalyScore;
       threat_classification := Some (label_name label, confidence);
       graph_analysis := Some graph_result |}.

(** ** The fused score on binary64 values

    Python's [float] and the primitive [float] are both IEEE 754
    binary64 rounded to nearest, ties to even, and in both a decimal
    literal stands for the nearest binary64 value.
    [binary64._calculate_threat_score] is the function above on these
    values, with the operations of the source in the order of the source;
    [graph_analysis] holds the ['risk_score'] of the graph result. *)
Module binary64.

Record Results : Type := {
  anomaly_detection : option float;
  threat_classification : option (string * float);
  graph_analysis : option float
}.

(** Python's [min(a, b)] *)
Definition py_min (a b : float) : float := if PrimFloat.ltb b a then b else a.

Definition _calculate_threat_score (results : Results) : float :=
  let score := 0.0%float in
  let score :=
    match anomaly_detection results with
    | Some anomaly_score => PrimFloat.add score (PrimFloat.mul anomaly_score 0.3)
    | None => score
    end in
  let score :=
    match threat_classification results with
    | Some (classification, confidence) =>
        if String.eqb classification "malicious"
        then PrimFloat.add score (PrimFloat.mul confidence 0.4)
        else if String.eqb classification "suspicious"
        then PrimFloat.add score (PrimFloat.mul (PrimFloat.mul confidence 0.5) 0.4)
        else score
    | None => score
    end in
  let score :=
    match graph_analysis results with
    | Some graph_score => PrimFloat.add score (PrimFloat.mul graph_score 0.3)
    | None => score
    end in
  py_min 1.0 score.

Definition Fuse (anomalyScore : float) (label : Label) (confidence graphRisk : float)
  : float :=
  _calculate_threat_score
    {| anomaly_detection := Some anomalyScore;
       threat_classification := Some (label_name label, confidence);
       graph_analysis := Some graphRisk |}.

End binary64.

(** ** Walks, and the invariants of the two searches *)

Section Walks.

Variable nbrs : string -> list (string * Q).

(** A walk that leaves [u]: the steps taken, each one an entry of the
    neighbour list of the node it leaves, with that entry's cost. *)
Fixpoint steps_from (u : string) (steps : list (string * Q)) : Prop :=
  match steps with
  | [] => True
  | (v, c) :: rest => (v, c) ∈ nbrs u /\ steps_from v rest
  end.

Fixpoint walk_end (u : string) (steps : list (string * Q)) : string :=
  match steps with
  | [] => u
  | (v, _) :: rest => walk_end v rest
  end.

Definition walk_nodes (u : string) (steps : list (string * Q)) : list string :=
  u :: map fst steps.

Definition walk_cost (steps : list (string * Q)) : Q :=
  foldr (fun s acc => s.2 + acc) 0 steps.

(** The same walk taken backwards, ending at [u]. *)
Fixpoint rev_steps (u : string) (steps : list (string * Q)) : list (string * Q) :=
  match steps with
  | [] => []
  | (v, c) :: rest => rev_steps v rest ++ [(u, c)]
  end.

Definition connected (u v : string) : Prop :=
  exists steps, steps_from u steps /\ walk_end u steps = v.

(** [p] lists the nodes of a walk from [src] to [w] that costs at most [q]. *)
Definition walk_within (src : string) (p : list string) (w : string) (q : Q) : Prop :=
  exists steps,
    steps_from src steps /\ p = walk_nodes src steps /\
    walk_end src steps = w /\ walk_cost steps <= q.

(** What one direction of [bidirectional_dijkstra] maintains.  While the
    neighbours of [v] are being relaxed, [pending] are those still to
    come; between rounds [pending] is empty. *)
Record side_inv (src v : string) (pending : list (string * Q)) (sd : nx.side)
  : Prop := {
  inv_src : exists q, nx.seen sd !! src = Some q /\ q <= 0;
  inv_first : nx.dists sd = ∅ ->
              forall e, e ∈ nx.fringe sd -> e.2 = src;
  inv_src_final : forall u d, nx.dists sd !! u = Some d ->
                  is_Some (nx.dists sd !! src);
  inv_final_seen : forall u d, nx.dists sd !! u = Some d ->
                   exists q, nx.seen sd !! u = Some q /\ q <= d;
  inv_paths : forall w q, nx.seen sd !! w = Some q ->
              exists p, nx.paths sd !! w = Some p /\ walk_within src p w q;
  inv_seen_fringe : forall w q, nx.seen sd !! w = Some q ->
                    nx.dists sd !! w = None ->
                    exists e, e ∈ nx.fringe sd /\ e.2 = w /\ e.1.1 <= q;
  inv_fringe_seen : forall e, e ∈ nx.fringe sd ->
                    exists q, nx.seen sd !! e.2 = Some q /\ q <= e.1.1;
  inv_final_fringe : forall u d e, nx.dists sd !! u = Some d ->
                     e ∈ nx.fringe sd -> d <= e.1.1;
  inv_closed : forall u d w c, nx.dists sd !! u = Some d -> (w, c) ∈ nbrs u ->
               (u = v /\ (w, c) ∈ pending) \/
               exists q, nx.seen sd !! w = Some q /\ q <= d + c;
  inv_least : forall u d steps, nx.dists sd !! u = Some d ->
              steps_from src steps -> walk_end src steps = u ->
              d <= walk_cost steps
}.

Definition src_of (s t : string) (dir : bool) : string := if dir then t else s.

(** What the two directions maintain together. *)
Record meet_inv (s t : string) (st : nx.dstate) : Prop := {
  inv_best : forall w a b,
      nx.seen (nx.fwd st) !! w = Some a -> nx.seen (nx.bwd st) !! w = Some b ->
      exists fd, nx.finaldist st = Some fd /\ fd <= a + b /\ nx.finalpath st <> [];
  inv_finalpath : nx.finalpath st <> [] ->
      exists fd, nx.finaldist st = Some fd /\ walk_within s (nx.finalpath st) t fd;
  inv_apart : forall u, nx.dists (nx.fwd st) !! u = None \/
                        nx.dists (nx.bwd st) !! u = None;
  inv_lone : forall dir u d, nx.dists (nx.get_side (negb dir) st) = ∅ ->
             nx.dists (nx.get_side dir st) !! u = Some d -> u = src_of s t dir
}.

(** Whose turn it is: [dir] is the direction of the previous round. *)
Definition phase (dir : bool) (st : nx.dstate) : Prop :=
  if dir
  then nx.dists (nx.fwd st) = ∅ <-> nx.dists (nx.bwd st) = ∅
  else nx.dists (nx.fwd st) <> ∅.

Definition dijkstra_inv (s t : string) (dir : bool) (st : nx.dstate) : Prop :=
  side_inv s s [] (nx.fwd st) /\ side_inv t t [] (nx.bwd st) /\
  meet_inv s t st /\ phase dir st.

(** The measure that bounds the rounds of [dijkstra_loop]: the heap
    entries, and the neighbour entries of the nodes not yet final. *)
Definition room (ns : list string) (d : gmap string Q) : nat :=
  sum_list_with (fun v => length (nbrs v))
    (filter (fun v => d !! v = None) ns).

Definition dijkstra_measure (ns : list string) (st : nx.dstate) : nat :=
  length (nx.fringe (nx.fwd st)) + length (nx.fringe (nx.bwd st))
  + room ns (nx.dists (nx.fwd st)) + room ns (nx.dists (nx.bwd st)).

End Walks.

Arguments inv_src {nbrs src v pending sd} _.
Arguments inv_first {nbrs src v pending sd} _ _ _ _.
Arguments inv_src_final {nbrs src v pending sd} _ _ _ _.
Arguments inv_final_seen {nbrs src v pending sd} _ _ _ _.
Arguments inv_paths {nbrs src v pending sd} _ _ _ _.
Arguments inv_seen_fringe {nbrs src v pending sd} _ _ _ _ _.
Arguments inv_fringe_seen {nbrs src v pending sd} _ _ _.
Arguments inv_final_fringe {nbrs src v pending sd} _ _ _ _ _ _.
Arguments inv_closed {nbrs src v pending sd} _ _ _ _ _ _ _.
Arguments inv_least {nbrs src v pending sd} _ _ _ _ _ _ _.
Arguments inv_best {nbrs s t st} _ _ _ _ _ _.
Arguments inv_finalpath {nbrs s t st} _ _.
Arguments inv_apart {nbrs s t st} _ _.
Arguments inv_lone {nbrs s t st} _ _ _ _ _ _.

(** What [_bidirectional_pred_succ] maintains between rounds: both visited
    sets hold only nodes their end reaches, they do not overlap, and a
    visited node off the fringe has all its neighbours visited. *)
Record bfs_inv (nbrs : string -> list (string * Q)) (s t : string)
  (pred succ : gset string) (ff rf : list string) : Prop := {
  bfs_src : s ∈ pred;
  bfs_dst : t ∈ succ;
  bfs_pred_reach : forall v, v ∈ pred -> connected nbrs s v;
  bfs_succ_reach : forall v, v ∈ succ -> connected nbrs t v;
  bfs_apart : forall v, v ∈ pred -> v ∈ succ -> False;
  bfs_ff : forall v, v ∈ ff -> v ∈ pred;
  bfs_rf : forall v, v ∈ rf -> v ∈ succ;
  bfs_pred_closed : forall v w c, v ∈ pred -> v ∉ ff -> (w, c) ∈ nbrs v -> w ∈ pred;
  bfs_succ_closed : forall v w c, v ∈ succ -> v ∉ rf -> (w, c) ∈ nbrs v -> w ∈ succ
}.

Arguments bfs_src {nbrs s t pred succ ff rf} _.
Arguments bfs_dst {nbrs s t pred succ ff rf} _.
Arguments bfs_pred_reach {nbrs s t pred succ ff rf} _ _ _.
Arguments bfs_succ_reach {nbrs s t pred succ ff rf} _ _ _.
Arguments bfs_apart {nbrs s t pred succ ff rf} _ _ _ _.
Arguments bfs_ff {nbrs s t pred succ ff rf} _ _ _.
Arguments bfs_rf {nbrs s t pred succ ff rf} _ _ _.
Arguments bfs_pred_closed {nbrs s t pred succ ff rf} _ _ _ _ _ _ _.
Arguments bfs_succ_closed {nbrs s t pred succ ff rf} _ _ _ _ _ _ _.

(** The measure that bounds the rounds of [pred_succ_loop]: the names not
    yet visited from either end. *)
Definition bfs_measure (U pred succ : gset string) : nat :=
  size (U ∖ pred) + size (U ∖ succ).

(** ** Graphs that the analyzer can hold *)

(** What [add_edge] keeps true of the adjacency: keys are not repeated,
    and the two entries of an edge hold the same live reference. *)
Record wf_graph (g : nx.Graph) : Prop := {
  wf_nodes : NoDup (nx.nodes g);
  wf_inner : forall u nb, dict_get u (nx._adj g) = Some nb -> NoDup (dict_keys nb);
  wf_sym : forall u v r, nx.edge_ref g u v = Some r -> nx.edge_ref g v u = Some r;
  wf_live : forall u v r, nx.edge_ref g u v = Some r -> (r < length (nx.attrs g))%nat;
  wf_node : forall u v r, nx.edge_ref g u v = Some r -> nx.has_node g v = true
}.

Arguments wf_nodes {g} _.
Arguments wf_inner {g} _ _ _ _.
Arguments wf_sym {g} _ _ _ _ _.
Arguments wf_live {g} _ _ _ _ _.
Arguments wf_node {g} _ _ _ _ _.

(** The analyzers that the methods of the class can produce. *)
Inductive reachable : GraphAnalyzer -> Prop :=
| reach_init : reachable __init__
| reach_initialize self : reachable self -> reachable (initialize self)
| reach_add self source target connection_type weight :
    reachable self ->
    reachable (add_connection self source target connection_type weight).2
| reach_cleanup self : reachable self -> reachable (cleanup self).

(** No edge carries a negative weight. *)
Definition nonneg_weights (g : nx.Graph) : Prop :=
  forall v w c, (w, c) ∈ nx.neighbors g v -> 0 <= c.

(** Weights on which binary64 adds exactly: every weight is a whole
    number from 0 to [bound], and [bound] times the number of nodes is at
    most 2^52.  A length that the search forms is the sum of at most as
    many weights as there are nodes, and the search adds at most two
    such lengths; so every sum that [nx.shortest_path] and
    [detect_lateral_movement] form is a whole number of at most 2^53,
    which a Python [float] holds without rounding.  (With the default
    weight 1.0 of [add_connection] the weight of an edge is the number of
    times it was observed.) *)
Definition whole_weights (g : nx.Graph) : Prop :=
  exists bound : Z,
    (Z.of_nat (length (nx.nodes g)) * bound <= 2 ^ 52)%Z /\
    forall v w c, (w, c) ∈ nx.neighbors g v ->
                  exists n : Z, (0 <= n <= bound)%Z /\ c == inject_Z n.

(** ['weight'] of the edge between [u] and [v], when there is one. *)
Definition edge_weight (g : nx.Graph) (u v : string) : option Q :=
  match nx.edge_data g u v with
  | Ok d => Some (nx.weight d)
  | _ => None
  end.

(** [p] is a path of [g]: consecutive nodes are joined by an edge. *)
Fixpoint is_path (g : nx.Graph) (p : list string) : Prop :=
  match p with
  | [] => False
  | u :: p' =>
      match p' with
      | [] => nx.has_node g u = true
      | v :: _ => nx.has_edge g u v = true /\ is_path g p'
      end
  end.

(** The sum of the weights along [p] (0 where an edge is missing). *)
Fixpoint path_weight (g : nx.Graph) (p : list string) : Q :=
  match p with
  | u :: p' =>
      match p' with
      | v :: _ => default 0 (edge_weight g u v) + path_weight g p'
      | [] => 0
      end
  | [] => 0
  end.

(** [p] leads from [u] to [v]. *)
Definition joins (p : list string) (u v : string) : Prop :=
  head p = Some u /\ last p = Some v.

(** Some path of [g] leads from [u] to [v]. *)
Definition has_route (g : nx.Graph) (u v : string) : Prop :=
  exists p, is_path g p /\ joins p u v.

(** ** The cache in front of the attack-path view

    [get_attack_paths] of [endpoints/visualize.py] with [cache_data] and
    [get_cached_data] of [core/database.py].  Redis is a map from keys to
    a value and the second at which it expires; [now] is the second of
    the call.  What the view computes on a cache miss is read from the
    assets and alerts tables ([Db]) and from nothing of [GraphAnalyzer];
    it is a dictionary with the keys [nodes], [edges] and [metadata], so
    it is never falsy, and [str] followed by [eval] gives it back. *)

Section AttackPathsView.

Variable View : Type.
Variable Db : Type.
Variable build_view : Db -> option string -> string -> View.

(** [client.setex(key, expire_seconds, str(data))] *)
Definition cache_data (key : string) (data : View) (expire_seconds now : nat)
  (client : gmap string (View * nat)) : gmap string (View * nat) :=
  <[key := (data, (now + expire_seconds)%nat)]> client.

(** [data = client.get(key); eval(data) if data else None] *)
Definition get_cached_data (key : string) (now : nat)
  (client : gmap string (View * nat)) : option View :=
  match client !! key with
  | Some (data, expiry) => if (now <? expiry)%nat then Some data else None
  | None => None
  end.

(** [f"attack_paths:{risk_level}:{time_range}"] *)
Definition attack_paths_key (risk_level : option string) (time_range : string)
  : string :=
  String.append "attack_paths:"
    (String.append (default "None" risk_level) (String.append ":" time_range)).

Definition get_attack_paths_view (now : nat) (db : Db)
  (risk_level : option string) (time_range : string)
  (client : gmap string (View * nat)) : View * gmap string (View * nat) :=
  let cache_key := attack_paths_key risk_level time_range in
  match get_cached_data cache_key now client with
  | Some cached_result => (cached_result, client)
  | None =>
      let result := build_view db risk_level time_range in
      (result, cache_data cache_key result 300 now client)
  end.

End AttackPathsView.

(** ** Vocabulary of the statements *)

(** The cost that the specification gives an edge, [1 / (1 + weight)],
    summed along [p]. *)
Fixpoint inverse_cost (g : nx.Graph) (p : list string) : Q :=
  match p with
  | u :: p' =>
      match p' with
      | v :: _ => 1 / (1 + default 0 (edge_weight g u v)) + inverse_cost g p'
      | [] => 0
      end
  | [] => 0
  end.

(** The answer of [detect_lateral_movement] as a value. *)
Definition Score (self : GraphAnalyzer) (s t : string) : LateralMovement :=
  match detect_lateral_movement self s t with
  | Ok r => r
  | _ => no_movement
  end.

(** The entry [get_attack_paths] builds for a pair. *)
Definition scored (self : GraphAnalyzer) (st : string * string) : AttackPath :=
  {| source := st.1; target := st.2; movement := Score self st.1 st.2 |}.

Definition risk (x : AttackPath) : Q := risk_score (movement x).

(** The entries above the threshold, in the order of the double loop. *)
Definition above (self : GraphAnalyzer) (risk_threshold : Q) : list AttackPath :=
  filter (fun x => Qltb risk_threshold (risk x) = true)
    (map (scored self) (pairs (nx.nodes (graph self)))).

(** No entry is followed, anywhere later, by one of higher risk. *)
Definition descending (l : list AttackPath) : Prop :=
  forall i j x y, (i < j)%nat -> l !! i = Some x -> l !! j = Some y ->
                  risk y <= risk x.

(** Entries of equal risk stand in [l] as they stand in [l0]. *)
Definition ties_as_in (l0 l : list AttackPath) : Prop :=
  forall q, filter (fun x => Qeq_bool (risk x) q = true) l =
            filter (fun x => Qeq_bool (risk x) q = true) l0.

(** [(source, target)] compared as Python compares tuples of strings. *)
Definition pair_leb (a b : string * string) : bool :=
  match String.compare a.1 b.1 with
  | Lt => true
  | Eq => String.leb a.2 b.2
  | Gt => false
  end.

(** The order that the specification states: risk descending, and equal
    risks by [(source, target)]. *)
Definition ranked_by_name (l : list AttackPath) : Prop :=
  forall i x y, l !! i = Some x -> l !! S i = Some y ->
    risk y < risk x \/
    (risk x == risk y /\ pair_leb (source x, target x) (source y, target y) = true).

(** The analyzer after [initialize] and a list of observations. *)
Definition observe (l : list (string * string * string * Q)) (self : GraphAnalyzer)
  : GraphAnalyzer :=
  fold_left (fun ga o => (add_connection ga o.1.1.1 o.1.1.2 o.1.2 o.2).2) l self.

Definition started : GraphAnalyzer := initialize __init__.

(** Edges A-B (weight 3, login) and B-C (weight 2, file-transfer). *)
Definition chain_abc : GraphAnalyzer :=
  observe [("A", "B", "login", 3); ("B", "C", "file-transfer", 2)] started.

(** Edges A-B and B-C of weight 1 and a direct edge A-C of weight 5. *)
Definition triangle : GraphAnalyzer :=
  observe [("A", "B", "login", 1); ("B", "C", "login", 1); ("A", "C", "login", 5)]
    started.

(** Two separate edges of weight 10, C-D observed before A-B. *)
Definition two_links : GraphAnalyzer :=
  observe [("C", "D", "login", 10); ("A", "B", "login", 10)] started.

(** One edge A-B of weight 1 and type login. *)
Definition one_link : GraphAnalyzer :=
  observe [("A", "B", "login", 1)] started.

(** The share of the classification in the fused score, as the
    specification words it. *)
Definition classificationContribution (label : Label) (confidence : Q) : Q :=
  match label with
  | malicious => confidence * (4 # 10)
  | suspicious => confidence * (5 # 10) * (4 # 10)
  | benign => 0
  end.


(** ** Vocabulary of the statements about sequences of observations *)

(** ['types'] of the edge between [u] and [v], when there is one. *)
Definition edge_types (g : nx.Graph) (u v : string) : option (gset string) :=
  match nx.edge_data g u v with
  | Ok d => Some (nx.types d)
  | _ => None
  end.

(** The observation [o] joins [a] and [b], in one direction or the other. *)
Definition between (a b : string) (o : string * string * string * Q) : bool :=
  (String.eqb o.1.1.1 a && String.eqb o.1.1.2 b)
  || (String.eqb o.1.1.1 b && String.eqb o.1.1.2 a).

(** The weights, and the connection types, of the observations in [l] that
    join [a] and [b]. *)
Definition weights_between (a b : string) (l : list (string * string * string * Q))
  : list Q :=
  map snd (filter (fun o => between a b o = true) l).

Definition types_between (a b : string) (l : list (string * string * string * Q))
  : gset string :=
  list_to_set (map (fun o : string * string * string * Q => o.1.2)
                 (filter (fun o => between a b o = true) l)).

(** The names of [l], each one where it stands first. *)
Fixpoint first_mentions (l : list string) : list string :=
  match l with
  | [] => []
  | x :: l' => x :: filter (fun y => y <> x) (first_mentions l')
  end.

(** The two assets of every observation, in the order of the calls. *)
Definition endpoints (l : list (string * string * string * Q)) : list string :=
  flat_map (fun o : string * string * string * Q => [o.1.1.1; o.1.1.2]) l.

(** No attribute dictionary is shared by two edges. *)
Definition apart (g : nx.Graph) : Prop :=
  forall u v x y r, nx.edge_ref g u v = Some r -> nx.edge_ref g x y = Some r ->
                    (x = u /\ y = v) \/ (x = v /\ y = u).

(** The attribute dictionary of an edge after one more observation of it. *)
Definition observed_once (before : res nx.EdgeData) (ct : string) (w : Q)
  : nx.EdgeData :=
  match before with
  | Ok d => {| nx.weight := nx.weight d + w; nx.types := nx.types d ∪ {[ct]} |}
  | _ => {| nx.weight := w; nx.types := {[ct]} |}
  end.

(** The weight of an edge of weight [former] ([None]: no edge yet) after
    the observations of weights [ws]: [add_edge(..., weight=w)] for the
    first observation of a new edge, [weight += w] for every other one,
    in the order of the calls. *)
Definition accumulated (former : option Q) (ws : list Q) : option Q :=
  match former, ws with
  | Some w0, _ => Some (fold_left Qplus ws w0)
  | None, w :: ws' => Some (fold_left Qplus ws' w)
  | None, [] => None
  end.

(** * The service layer

    What follows embeds code around the graph engine: the permission
    checks of [core/security.py], the request limiter of
    [core/rate_limiter.py], the Redis helpers of [core/database.py], the
    other views of [endpoints/visualize.py], the models of
    [services/ml_pipeline.py] with [MLPipeline.analyze_event], and the
    endpoints that call them.  Libraries and services outside the
    repository (the token library, the databases, the machine-learning
    models) are parameters; each of their calls is allowed to raise. *)

(** ** Exceptions of the service layer *)

Inductive error : Type :=
| RuntimeError (message : string)
| NameError (name : string)
| AttributeError
| HTTPException (status_code : nat) (detail : string)
| LibraryError (what : string).

(** What a call does: it returns a value or raises. *)
Inductive outcome (A : Type) : Type :=
| Returns (a : A)
| Raises (e : error).

Arguments Returns {A} a.
Arguments Raises {A} e.

Definition outcome_bind {A B : Type} (m : outcome A) (k : A -> outcome B) : outcome B :=
  match m with
  | Returns a => k a
  | Raises e => Raises e
  end.

Notation "'do*' x ':=' m 'in' k" := (outcome_bind m (fun x => k))
  (at level 10, x pattern, m at level 100, k at level 200).

(** ** Roles and permissions *)

Module security.

(** [class User(BaseModel)]; the two dates are seconds. *)
Record User : Type := {
  id : string;
  username : string;
  email : string;
  role : string;
  is_active : bool;
  created_at : nat;
  last_login : option nat
}.

Definition ROLE_PERMISSIONS : list (string * list string) :=
  [("admin",
    ["read:all"; "write:all"; "delete:all"; "train:models";
     "manage:users"; "manage:system"; "export:reports"]);
   ("analyst",
    ["read:alerts"; "write:alerts"; "read:reports"; "export:reports";
     "read:metrics"; "read:visualizations"]);
   ("viewer",
    ["read:alerts"; "read:reports"; "read:metrics"; "read:visualizations"])].

(** [permission in ROLE_PERMISSIONS.get(user.role, [])] *)
Definition has_permission (user : User) (permission : string) : bool :=
  let user_permissions := default [] (dict_get (role user) ROLE_PERMISSIONS) in
  bool_decide (permission ∈ user_permissions).

(** [require_permission(permission)] applied to the current user. *)
Definition require_permission (permission : string) (current_user : User)
  : outcome User :=
  if negb (has_permission current_user permission)
  then Raises (HTTPException 403
                 (String.append "Permission '" (String.append permission "' required")))
  else Returns current_user.

(** [require_role(required_role)] applied to the current user. *)
Definition require_role (required_role : string) (current_user : User)
  : outcome User :=
  if negb (String.eqb (role current_user) required_role)
     && negb (String.eqb (role current_user) "admin")
  then Raises (HTTPException 403
                 (String.append "Role '" (String.append required_role "' required")))
  else Returns current_user.

Definition require_admin (current_user : User) : outcome User :=
  if negb (String.eqb (role current_user) "admin")
  then Raises (HTTPException 403 "Admin role required")
  else Returns current_user.

Definition require_analyst_or_admin (current_user : User) : outcome User :=
  if negb (bool_decide (role current_user ∈ ["admin"; "analyst"]))
  then Raises (HTTPException 403 "Analyst or admin role required")
  else Returns current_user.

End security.


(** ** The request limiter *)

Module RateLimiterMiddleware.

(** [self.requests[client_id]] of the [defaultdict(list)]: the times of
    the requests of a client, [[]] for a client without an entry. *)
Definition requests_of (requests : gmap string (list Q)) (client_id : string)
  : list Q :=
  default [] (requests !! client_id).

(** [[req_time for req_time in times if req_time > window_start]] *)
Definition recent (window_start : Q) (times : list Q) : list Q :=
  filter (fun req_time => Qltb window_start req_time = true) times.

(** [_is_allowed]; [current_time] is what [time.time()] returns, and
    [RATE_LIMIT_PER_MINUTE] the setting of that name. *)
Definition _is_allowed (RATE_LIMIT_PER_MINUTE : Z) (current_time : Q)
  (client_id : string) (requests : gmap string (list Q))
  : bool * gmap string (list Q) :=
  let window_start := current_time - 60 in
  let requests := <[client_id := recent window_start (requests_of requests client_id)]>
                    requests in
  (bool_decide (Z.of_nat (length (requests_of requests client_id))
                < RATE_LIMIT_PER_MINUTE)%Z,
   requests).

(** [_add_request] *)
Definition _add_request (current_time : Q) (client_id : string)
  (requests : gmap string (list Q)) : gmap string (list Q) :=
  <[client_id := requests_of requests client_id ++ [current_time]]> requests.

(** [cleanup_old_requests] *)
Definition cleanup_old_requests (current_time : Q) (requests : gmap string (list Q))
  : gmap string (list Q) :=
  let window_start := current_time - 60 in
  omap (fun times => match recent window_start times with
                     | [] => None
                     | kept => Some kept
                     end) requests.

(** The part of [__call__] before [call_next]: the check, and the
    recording of a request that is let through.  The two read the clock
    one after the other.  The result says whether the request goes on
    to [call_next]; otherwise the answer is 429. *)
Definition check_and_record (RATE_LIMIT_PER_MINUTE : Z) (check_time add_time : Q)
  (client_id : string) (requests : gmap string (list Q))
  : bool * gmap string (list Q) :=
  let (allowed, requests) :=
    _is_allowed RATE_LIMIT_PER_MINUTE check_time client_id requests in
  if negb allowed then (false, requests)
  else (true, _add_request add_time client_id requests).

(** The header [X-RateLimit-Remaining], set after [call_next]. *)
Definition remaining (RATE_LIMIT_PER_MINUTE : Z) (client_id : string)
  (requests : gmap string (list Q)) : Z :=
  (RATE_LIMIT_PER_MINUTE - Z.of_nat (length (requests_of requests client_id)))%Z.

(** What happens to the limiter, in the order of the event loop: a
    request of a client, with the two readings of the clock, or a round
    of the cleanup task. *)
Inductive event : Type :=
| Request (client_id : string) (check_time add_time : Q)
| Cleanup (current_time : Q).

(** The limiter after [events], and for each request whether it was let
    through. *)
Fixpoint run (RATE_LIMIT_PER_MINUTE : Z) (events : list event)
  (requests : gmap string (list Q)) : list bool * gmap string (list Q) :=
  match events with
  | [] => ([], requests)
  | Request client_id check_time add_time :: events' =>
      let (allowed, requests) :=
        check_and_record RATE_LIMIT_PER_MINUTE check_time add_time client_id requests in
      let (rest, requests) := run RATE_LIMIT_PER_MINUTE events' requests in
      (allowed :: rest, requests)
  | Cleanup current_time :: events' =>
      run RATE_LIMIT_PER_MINUTE events' (cleanup_old_requests current_time requests)
  end.

End RateLimiterMiddleware.

(** The limiter that forgets nothing: it keeps every request it let
    through, and lets a request through when fewer than the limit of the
    client's earlier ones are younger than 60 seconds. *)
Fixpoint sliding_window (limit : Z) (events : list RateLimiterMiddleware.event)
  (history : list (string * Q)) : list bool :=
  match events with
  | [] => []
  | RateLimiterMiddleware.Request client_id check_time add_time :: events' =>
      let young :=
        filter (fun r : string * Q =>
                  r.1 = client_id /\ Qltb (check_time - 60) r.2 = true) history in
      if bool_decide (Z.of_nat (length young) < limit)%Z
      then true :: sliding_window limit events' (history ++ [(client_id, add_time)])
      else false :: sliding_window limit events' history
  | RateLimiterMiddleware.Cleanup _ :: events' => sliding_window limit events' history
  end.

(** The readings of the clock in [events], in the order they are made. *)
Definition readings (events : list RateLimiterMiddleware.event) : list Q :=
  flat_map (fun e => match e with
                     | RateLimiterMiddleware.Request _ check_time add_time =>
                         [check_time; add_time]
                     | RateLimiterMiddleware.Cleanup current_time => [current_time]
                     end) events.

(** The clock does not run backwards. *)
Fixpoint clock_from (now : Q) (times : list Q) : Prop :=
  match times with
  | [] => True
  | t :: times' => now <= t /\ clock_from t times'
  end.

(** The requests of [cl] in [history] that are younger than [ws]. *)
Definition young (cl : string) (ws : Q) (history : list (string * Q)) :=
  filter (fun r : string * Q => r.1 = cl /\ Qltb ws r.2 = true) history.

(** The limiter holds every request it let through that can still count. *)
Definition keeps (now : Q) (requests : gmap string (list Q))
  (history : list (string * Q)) : Prop :=
  forall cl ws, now - 60 <= ws ->
    RateLimiterMiddleware.recent ws (RateLimiterMiddleware.requests_of requests cl)
    = map snd (young cl ws history).

(** No client ever has more requests on record than the limit allows. *)
Definition bounded (limit : Z) (requests : gmap string (list Q)) : Prop :=
  forall cl, (Z.of_nat (length (RateLimiterMiddleware.requests_of requests cl)) <= Z.max 0 limit)%Z.


(** ** More of the Redis helpers, and the cache of the alert lists

    As for the attack-path view, Redis is a map from keys to a value and
    the second at which it expires.  The patterns of [KEYS] are matched
    by Redis; [matches pattern key] stands for that. *)

Section Redis.

Variable View : Type.
Variable matches : string -> string -> bool.

(** [client.keys(pattern)]: the keys that have not expired and match. *)
Definition redis_keys (pattern : string) (now : nat)
  (client : gmap string (View * nat)) : list string :=
  (filter (fun kv : string * (View * nat) =>
             matches pattern kv.1 = true /\ (now < kv.2.2)%nat)
     (map_to_list client)).*1.

(** [client.delete] of the keys in [keys] *)
Definition redis_delete (keys : list string) (client : gmap string (View * nat))
  : gmap string (View * nat) :=
  foldr delete client keys.

(** [invalidate_cache] of [core/database.py] *)
Definition invalidate_cache (pattern : string) (now : nat)
  (client : gmap string (View * nat)) : gmap string (View * nat) :=
  match redis_keys pattern now client with
  | [] => client
  | keys => redis_delete keys client
  end.

End Redis.

(** [get_alerts] of [endpoints/alerts.py], the route that lists alerts:
    the same use of the cache as the attack-path view.  What is computed
    on a miss is read from the alerts table and is a parameter. *)

Section AlertsView.

Variable View : Type.
Variable Db : Type.
Variable build_alerts :
  Db -> Z -> option string -> option string -> option string -> option string -> View.

(** [f"alerts:{limit}:{severity}:{status}:{category}:{asset_id}"] *)
Definition alerts_key (limit : Z) (severity status category asset_id : option string)
  : string :=
  String.append "alerts:"
    (String.append (pretty limit)
       (String.append ":"
          (String.append (default "None" severity)
             (String.append ":"
                (String.append (default "None" status)
                   (String.append ":"
                      (String.append (default "None" category)
                         (String.append ":" (default "None" asset_id))))))))).

Definition get_alerts (now : nat) (db : Db) (limit : Z)
  (severity status category asset_id : option string)
  (client : gmap string (View * nat)) : View * gmap string (View * nat) :=
  let cache_key := alerts_key limit severity status category asset_id in
  match get_cached_data View cache_key now client with
  | Some cached_result => (cached_result, client)
  | None =>
      let result := build_alerts db limit severity status category asset_id in
      (result, cache_data View cache_key result 300 now client)
  end.

(** The step headed [# Invalidate cache] of [update_alert_status] and
    [create_alert]: [redis_client.delete] of the one key made of
    [alerts:] and a star. *)
Definition delete_alerts_star (client : gmap string (View * nat))
  : gmap string (View * nat) :=
  redis_delete View ["alerts:*"] client.

End AlertsView.


(** ** The models of [services/ml_pipeline.py]

    An event is the dictionary that [analyze_event] receives; its values
    are those of a JSON document.  A fitted model is kept as what it
    computes: [AnomalyDetector.model] is, for an event, what the [try]
    block of [predict] obtains from [_extract_single_event_features],
    [scaler.transform] and [model.decision_function] (a score, or an
    exception), and likewise for the classifier and for the tokenizer and
    the network of the log parser.  An attribute that is [None] is
    [None] here, and using it raises. *)

Inductive Value : Type :=
| Str (s : string)
| Num (q : Q)
| Other.

Definition Event : Type := gmap string Value.

Module AnomalyDetector.

Record t : Type := {
  model : option (Event -> outcome Q);
  is_trained : bool
}.

(** The dictionary that [predict] returns; ['threshold'] is left out of
    the answers that stand for no prediction. *)
Record Prediction : Type := {
  anomaly_score : Q;
  is_anomaly : bool;
  threshold : option Q
}.

Definition __init__ : t := {| model := None; is_trained := false |}.

Definition no_prediction : Prediction :=
  {| anomaly_score := 0; is_anomaly := false; threshold := None |}.

(** The [try] block of [predict] up to the score. *)
Definition decision (self : t) (data : Event) : outcome Q :=
  match model self with
  | Some decision_function => decision_function data
  | None => Raises AttributeError
  end.

Definition predict (self : t) (data : Event) : Prediction :=
  if negb (is_trained self) then no_prediction
  else match decision self data with
       | Returns score =>
           {| anomaly_score := score; is_anomaly := Qltb (1 # 2) score;
              threshold := Some (1 # 2) |}
       | Raises _ => no_prediction
       end.

End AnomalyDetector.

Module ThreatClassifier.

(** [model] gives, for an event, the label that [model.predict] returns
    and the list that [model.predict_proba] returns. *)
Record t : Type := {
  model : option (Event -> outcome (string * list Q));
  is_trained : bool
}.

Record Prediction : Type := {
  classification : string;
  confidence : Q;
  probabilities : option (list (string * Q))
}.

Definition classes : list string := ["benign"; "suspicious"; "malicious"].

Definition __init__ : t := {| model := None; is_trained := false |}.

Definition no_prediction : Prediction :=
  {| classification := "benign"; confidence := 0; probabilities := None |}.

(** [max(probabilities)]; [ValueError] on the empty list. *)
Definition py_max (l : list Q) : outcome Q :=
  match l with
  | [] => Raises (LibraryError "ValueError")
  | x :: l' => Returns (fold_left (fun m y => if Qltb m y then y else m) l' x)
  end.

Definition predict (self : t) (data : Event) : Prediction :=
  if negb (is_trained self) then no_prediction
  else
    match
      (do* r := match model self with
                | Some predict_both => predict_both data
                | None => Raises AttributeError
                end in
       do* confidence := py_max r.2 in
       Returns {| classification := r.1; confidence := confidence;
                  probabilities := Some (zip classes r.2) |})
    with
    | Returns prediction => prediction
    | Raises _ => no_prediction
    end.

End ThreatClassifier.

(** What [re] and [str.lower] compute for [_extract_entities]. *)
Record Text : Type := {
  lower : string -> string;
  findall_ip : string -> list string;
  search_user : string -> option string
}.

(** [keyword in text] *)
Fixpoint occurs_in (keyword text : string) : bool :=
  String.prefix keyword text
  || match text with
     | EmptyString => false
     | String _ rest => occurs_in keyword rest
     end.

Module LogParser.

Record t : Type := {
  tokenizer : option (string -> outcome (list Z));
  model : option (list Z -> outcome (list (list Q)));
  is_loaded : bool
}.

Record Entities : Type := {
  ip : option string;
  action : option string;
  user : option string
}.

Record Parsed : Type := {
  entities : Entities;
  confidence : Q;
  embedding : option (list (list Q))
}.

Definition __init__ : t := {| tokenizer := None; model := None; is_loaded := false |}.

(** [load_model]; the two arguments are what the two calls of
    [from_pretrained] do.  An exception is raised again, after what was
    assigned before it. *)
Definition load_model
  (pretrained_tokenizer : outcome (string -> outcome (list Z)))
  (pretrained_model : outcome (list Z -> outcome (list (list Q))))
  (self : t) : outcome unit * t :=
  match pretrained_tokenizer with
  | Raises e => (Raises e, self)
  | Returns tokenize =>
      match pretrained_model with
      | Raises e =>
          (Raises e,
           {| tokenizer := Some tokenize; model := model self;
              is_loaded := is_loaded self |})
      | Returns network =>
          (Returns tt,
           {| tokenizer := Some tokenize; model := Some network; is_loaded := true |})
      end
  end.

Definition action_keywords : list string :=
  ["login"; "logout"; "access"; "denied"; "blocked"; "failed"].

(** [_extract_entities] *)
Definition _extract_entities (re : Text) (log_message : string) : Entities :=
  {| ip := head (findall_ip re log_message);
     action := find (fun keyword => occurs_in keyword (lower re log_message))
                 action_keywords;
     user := search_user re log_message |}.

Definition nothing_parsed : Parsed :=
  {| entities := {| ip := None; action := None; user := None |};
     confidence := 0; embedding := None |}.

(** [parse_log]; a message that is no string makes the [try] block
    raise, at the latest in [re.findall]. *)
Definition parse_log (re : Text) (self : t) (log_message : Value) : Parsed :=
  if negb (is_loaded self) then nothing_parsed
  else
    match
      (match log_message with
       | Str s =>
           do* inputs := match tokenizer self with
                         | Some tokenize => tokenize s
                         | None => Raises (LibraryError "TypeError")
                         end in
           do* embeddings := match model self with
                             | Some network => network inputs
                             | None => Raises (LibraryError "TypeError")
                             end in
           Returns {| entities := _extract_entities re s;
                      confidence := 85 # 100;
                      embedding := Some embeddings |}
       | _ => Raises (LibraryError "TypeError")
       end)
    with
    | Returns parsed => parsed
    | Raises _ => nothing_parsed
    end.

End LogParser.

(** ** MLPipeline *)

Module MLPipeline.

Record t : Type := {
  anomaly_detector : AnomalyDetector.t;
  threat_classifier : ThreatClassifier.t;
  log_parser : LogParser.t;
  graph_analyzer : GraphAnalyzer;
  is_initialized : bool
}.

(** [results] as [analyze_event] hands it to [_calculate_threat_score]:
    the two predictions, and the graph analysis when there is one. *)
Definition results_so_far (anomaly_result : AnomalyDetector.Prediction)
  (classification_result : ThreatClassifier.Prediction)
  (graph_result : option LateralMovement) : Results :=
  {| anomaly_detection := Some (AnomalyDetector.anomaly_score anomaly_result);
     threat_classification :=
       Some (ThreatClassifier.classification classification_result,
             ThreatClassifier.confidence classification_result);
     graph_analysis := graph_result |}.

(** The dictionary that [analyze_event] returns once the pipeline is
    initialized. *)
Record Analysis : Type := {
  anomaly_detection : AnomalyDetector.Prediction;
  threat_classification : ThreatClassifier.Prediction;
  log_parsing : option LogParser.Parsed;
  graph_analysis : option LateralMovement;
  overall_threat_score : Q
}.

(** What [analyze_event] returns: the analysis, or a dictionary with the
    one key ['error'], whose text is not kept when it is that of an
    exception. *)
Inductive Answer : Type :=
| Analyzed (results : Analysis)
| Error (message : option string).

Definition __init__ : t :=
  {| anomaly_detector := AnomalyDetector.__init__;
     threat_classifier := ThreatClassifier.__init__;
     log_parser := LogParser.__init__;
     graph_analyzer := __init__;
     is_initialized := false |}.

(** The two files of [_load_models]: absent, or what [joblib.load] does
    with the file. *)
Record Disk : Type := {
  anomaly_detector_joblib : option (outcome (Event -> outcome Q));
  threat_classifier_joblib : option (outcome (Event -> outcome (string * list Q)))
}.

(** [_load_models]: an exception ends the loading and is logged. *)
Definition _load_models (disk : Disk) (self : t) : t :=
  match anomaly_detector_joblib disk with
  | Some (Raises _) => self
  | loaded =>
      let self1 :=
        match loaded with
        | Some (Returns m) =>
            {| anomaly_detector :=
                 {| AnomalyDetector.model := Some m;
                    AnomalyDetector.is_trained := true |};
               threat_classifier := threat_classifier self;
               log_parser := log_parser self;
               graph_analyzer := graph_analyzer self;
               is_initialized := is_initialized self |}
        | _ => self
        end in
      match threat_classifier_joblib disk with
      | Some (Returns m) =>
          {| anomaly_detector := anomaly_detector self1;
             threat_classifier :=
               {| ThreatClassifier.model := Some m;
                  ThreatClassifier.is_trained := true |};
             log_parser := log_parser self1;
             graph_analyzer := graph_analyzer self1;
             is_initialized := is_initialized self1 |}
      | _ => self1
      end
  end.

(** [initialize]: what the call does, and the pipeline it leaves. *)
Definition initialize
  (pretrained_tokenizer : outcome (string -> outcome (list Z)))
  (pretrained_model : outcome (list Z -> outcome (list (list Q))))
  (disk : Disk) (self : t) : outcome unit * t :=
  let (loaded, parser) :=
    LogParser.load_model pretrained_tokenizer pretrained_model (log_parser self) in
  let self1 :=
    {| anomaly_detector := anomaly_detector self;
       threat_classifier := threat_classifier self;
       log_parser := parser;
       graph_analyzer := graph_analyzer self;
       is_initialized := is_initialized self |} in
  match loaded with
  | Raises e => (Raises e, self1)
  | Returns _ =>
      let self2 :=
        _load_models disk
          {| anomaly_detector := anomaly_detector self1;
             threat_classifier := threat_classifier self1;
             log_parser := log_parser self1;
             graph_analyzer := initialize (graph_analyzer self1);
             is_initialized := is_initialized self1 |} in
      (Returns tt,
       {| anomaly_detector := anomaly_detector self2;
          threat_classifier := threat_classifier self2;
          log_parser := log_parser self2;
          graph_analyzer := graph_analyzer self2;
          is_initialized := true |})
  end.

(** [cleanup] *)
Definition cleanup (self : t) : t :=
  {| anomaly_detector :=
       {| AnomalyDetector.model := None;
          AnomalyDetector.is_trained :=
            AnomalyDetector.is_trained (anomaly_detector self) |};
     threat_classifier :=
       {| ThreatClassifier.model := None;
          ThreatClassifier.is_trained :=
            ThreatClassifier.is_trained (threat_classifier self) |};
     log_parser :=
       {| LogParser.tokenizer := LogParser.tokenizer (log_parser self);
          LogParser.model := None;
          LogParser.is_loaded := LogParser.is_loaded (log_parser self) |};
     graph_analyzer := cleanup (graph_analyzer self);
     is_initialized := is_initialized self |}.

(** The graph analysis of [analyze_event].  A value that is no string is
    no node of the graph, whose nodes are strings, so that [has_node]
    denies it and the answer is the one without a path. *)
Definition graph_result (self : t) (source_asset target_asset : Value)
  : res LateralMovement :=
  match source_asset, target_asset with
  | Str source, Str target =>
      detect_lateral_movement (graph_analyzer self) source target
  | _, _ => Ok no_movement
  end.

(** [analyze_event] *)
Definition analyze_event (re : Text) (self : t) (event_data : Event) : res Answer :=
  if negb (is_initialized self) then Ok (Error (Some "ML pipeline not initialized"))
  else
    let anomaly_result := AnomalyDetector.predict (anomaly_detector self) event_data in
    let classification_result :=
      ThreatClassifier.predict (threat_classifier self) event_data in
    let log_result :=
      match event_data !! "log_message" with
      | Some log_message => Some (LogParser.parse_log re (log_parser self) log_message)
      | None => None
      end in
    match
      match event_data !! "source_asset", event_data !! "target_asset" with
      | Some source_asset, Some target_asset =>
          let* r := graph_result self source_asset target_asset in Ok (Some r)
      | _, _ => Ok None
      end
    with
    | Ok graph =>
        let threat_score :=
          _calculate_threat_score
            (results_so_far anomaly_result classification_result graph) in
        Ok (Analyzed
              {| anomaly_detection := anomaly_result;
                 threat_classification := classification_result;
                 log_parsing := log_result;
                 graph_analysis := graph;
                 overall_threat_score := threat_score |})
    | Raise _ => Ok (Error None)
    | Diverge => Diverge
    end.

End MLPipeline.


(** ** Creating an event

    [write_event_to_influxdb] of [core/database.py] and [create_event] of
    [endpoints/monitor.py].  The InfluxDB client is a parameter: it is
    [None] until [init_db] has run, [write_api] is what its method of
    that name does, and [point] is what building the [Point] with its
    three tags and three fields does. *)

Section CreateEvent.

Variable Client WriteApi Point : Type.

(** [get_influxdb_client] *)
Definition get_influxdb_client (influxdb_client : option Client) : outcome Client :=
  match influxdb_client with
  | Some client => Returns client
  | None => Raises (RuntimeError "InfluxDB not initialized")
  end.

(** [write_event_to_influxdb].  The argument of [.time] reads the name
    [datetime], which [core/database.py] neither imports nor defines;
    what follows it in the source is never run. *)
Definition write_event_to_influxdb (influxdb_client : option Client)
  (write_api : Client -> outcome WriteApi) (point : Event -> outcome Point)
  (event_data : Event) : outcome unit :=
  do* client := get_influxdb_client influxdb_client in
  do* api := write_api client in
  do* tagged := point event_data in
  Raises (NameError "datetime").

(** What [create_event] returns. *)
Record Created : Type := {
  message : string;
  event_id : option Value;
  analysis : MLPipeline.Answer;
  broadcast : bool
}.

(** The body of [create_event]; [timestamp] is the text of the time of
    the call.  The pipeline it asks is a new [MLPipeline()].  The answer
    of [analyze_event] has no key ['anomaly_score'] at its top level, so
    that [get] gives the default 0 there. *)
Definition create_event_body (re : Text) (influxdb_client : option Client)
  (write_api : Client -> outcome WriteApi) (point : Event -> outcome Point)
  (timestamp : string) (current_user : security.User) (event_data : Event)
  : res (outcome Created) :=
  let event_data :=
    <["created_by" := Str (security.id current_user)]>
      (<["timestamp" := Str timestamp]> event_data) in
  match write_event_to_influxdb influxdb_client write_api point event_data with
  | Raises _ => Ok (Raises (HTTPException 500 "Failed to create event"))
  | Returns _ =>
      let ml_pipeline := MLPipeline.__init__ in
      let* analysis_result := MLPipeline.analyze_event re ml_pipeline event_data in
      Ok (Returns {| message := "Event created successfully";
                     event_id := event_data !! "id";
                     analysis := analysis_result;
                     broadcast := Qltb (7 # 10) 0 |})
  end.

(** [create_event] with its dependency [require_permission("write:events")]. *)
Definition create_event (re : Text) (influxdb_client : option Client)
  (write_api : Client -> outcome WriteApi) (point : Event -> outcome Point)
  (timestamp : string) (user : security.User) (event_data : Event)
  : res (outcome Created) :=
  match security.require_permission "write:events" user with
  | Raises e => Ok (Raises e)
  | Returns current_user =>
      create_event_body re influxdb_client write_api point timestamp current_user
        event_data
  end.

End CreateEvent.


(** ** The other views of [endpoints/visualize.py]

    The rows that the views fetch are their arguments.  [None] printed
    by an f-string reads [None]. *)

Definition py_str (o : option string) : string := default "None" o.

(** [x or "Unknown"]: [None] and the empty string give way. *)
Definition or_unknown (o : option string) : string :=
  match o with
  | Some EmptyString | None => "Unknown"
  | Some s => s
  end.

Module topology.

(** A row of [assets] as [get_network_topology] selects it. *)
Record Asset : Type := {
  id : string;
  name : string;
  type : string;
  ip_address : option string;
  risk_level : option string;
  location : option string;
  department : option string
}.

(** [asset["risk_level"] in ["high", "critical"]] *)
Definition high_risk (asset : Asset) : bool :=
  bool_decide (risk_level asset ∈ [Some "high"; Some "critical"]).

(** [f"{asset['location']}_{asset['type']}"] *)
Definition segment_key (asset : Asset) : string :=
  String.append (py_str (location asset)) (String.append "_" (type asset)).

End topology.

Module member.

(** An entry of the list ["assets"] of a segment. *)
Record t : Type := {
  id : string;
  name : string;
  ip_address : option string;
  risk_level : option string
}.

Definition from_asset (asset : topology.Asset) : t :=
  {| id := topology.id asset; name := topology.name asset;
     ip_address := topology.ip_address asset;
     risk_level := topology.risk_level asset |}.

End member.

Module segment.

Record t : Type := {
  name : string;
  location : option string;
  type : string;
  assets : list member.t;
  risk_level : string
}.

(** The segment that the first asset of a key opens; [title] is
    [str.title]. *)
Definition opened_by (title : string -> string) (asset : topology.Asset) : t :=
  {| name := String.append (py_str (topology.location asset))
               (String.append " - " (title (topology.type asset)));
     location := topology.location asset;
     type := topology.type asset;
     assets := [];
     risk_level := "low" |}.

Definition append (m : member.t) (self : t) : t :=
  {| name := name self; location := location self; type := type self;
     assets := assets self ++ [m]; risk_level := risk_level self |}.

Definition set_high (self : t) : t :=
  {| name := name self; location := location self; type := type self;
     assets := assets self; risk_level := "high" |}.

End segment.

Module summary.

Record t : Type := {
  total_assets : nat;
  segments : nat;
  high_risk_assets : nat
}.

End summary.

Module network_topology.

(** A connection: ["from"], ["to"] and ["type"]. *)
Record Topology : Type := {
  segments : list (string * segment.t);
  connections : list (string * string * string);
  summary : summary.t
}.

(** The body of [for asset in assets]: the segments and the count of
    high-risk assets so far. *)
Definition place (title : string -> string)
  (state : list (string * segment.t) * nat) (asset : topology.Asset)
  : list (string * segment.t) * nat :=
  let segment_key := topology.segment_key asset in
  let segments :=
    match dict_get segment_key state.1 with
    | Some _ => state.1
    | None => dict_set segment_key (segment.opened_by title asset) state.1
    end in
  let segments :=
    match dict_get segment_key segments with
    | Some s => dict_set segment_key (segment.append (member.from_asset asset) s) segments
    | None => segments
    end in
  if topology.high_risk asset then
    (match dict_get segment_key segments with
     | Some s => dict_set segment_key (segment.set_high s) segments
     | None => segments
     end,
     S state.2)
  else (segments, state.2).

(** The second loop: the pairs of segments, in the order of their
    creation, that have equal locations. *)
Definition connect (segments : list (string * segment.t))
  : list (string * string * string) :=
  omap (fun ij : string * string =>
          match dict_get ij.1 segments, dict_get ij.2 segments with
          | Some si, Some sj =>
              if decide (segment.location si = segment.location sj)
              then Some (ij.1, ij.2, "internal")
              else None
          | _, _ => None
          end)
    (pairs (dict_keys segments)).

(** [get_network_topology] on the rows fetched. *)
Definition get_network_topology (title : string -> string)
  (assets : list topology.Asset) : Topology :=
  let state := fold_left (place title) assets ([], 0%nat) in
  {| segments := state.1;
     connections := connect state.1;
     summary := {| summary.total_assets := length assets;
                   summary.segments := length state.1;
                   summary.high_risk_assets := state.2 |} |}.

End network_topology.

(** The assets among [assets] whose key is [key], in the order fetched. *)
Definition assets_of (key : string) (assets : list topology.Asset)
  : list topology.Asset :=
  filter (fun asset => topology.segment_key asset = key) assets.

(** What the first loop has built after the assets [done]. *)
Definition placed (title : string -> string) (done : list topology.Asset)
  (state : list (string * segment.t) * nat) : Prop :=
  dict_keys state.1 = first_mentions (map topology.segment_key done) /\
  (forall key s, dict_get key state.1 = Some s ->
     segment.assets s = map member.from_asset (assets_of key done) /\
     segment.risk_level s =
       (if existsb topology.high_risk (assets_of key done) then "high" else "low") /\
     exists first rest,
       assets_of key done = first :: rest /\
       segment.location s = topology.location first /\
       segment.type s = topology.type first /\
       segment.name s = segment.name (segment.opened_by title first)) /\
  state.2 = length (filter (fun asset => topology.high_risk asset = true) done).

(** Two servers in Paris, a laptop in Paris and a server without a
    location. *)
Definition four_assets : list topology.Asset :=
  [{| topology.id := "1"; topology.name := "db"; topology.type := "server";
      topology.ip_address := None; topology.risk_level := Some "low";
      topology.location := Some "Paris"; topology.department := None |};
   {| topology.id := "2"; topology.name := "pc"; topology.type := "laptop";
      topology.ip_address := None; topology.risk_level := Some "critical";
      topology.location := Some "Paris"; topology.department := None |};
   {| topology.id := "3"; topology.name := "web"; topology.type := "server";
      topology.ip_address := None; topology.risk_level := None;
      topology.location := Some "Paris"; topology.department := None |};
   {| topology.id := "4"; topology.name := "old"; topology.type := "server";
      topology.ip_address := None; topology.risk_level := Some "high";
      topology.location := None; topology.department := None |}].


(** ** The threat map *)

Module threat_map.

(** A row of the join that [get_threat_map] selects; [created_at] is the
    time in seconds. *)
Record Threat : Type := {
  severity : string;
  category : option string;
  source : option string;
  location : option string;
  created_at : Z
}.

Record ThreatMap : Type := {
  locations : list (string * list (string * nat));
  categories : list (string * nat);
  sources : list (string * nat);
  timeline : list (string * nat)
}.

(** The counters that a location starts with. *)
Definition no_threats : list (string * nat) :=
  [("total", 0%nat); ("critical", 0%nat); ("high", 0%nat); ("medium", 0%nat);
   ("low", 0%nat)].

(** [counts[key] += 1] on a dictionary that has to hold the key. *)
Definition increment (key : string) (counts : list (string * nat))
  : outcome (list (string * nat)) :=
  match dict_get key counts with
  | Some n => Returns (dict_set key (S n) counts)
  | None => Raises (LibraryError "KeyError")
  end.

(** [if key not in counts: counts[key] = 0] and then [counts[key] += 1] *)
Definition count_up (counts : list (string * nat)) (key : string)
  : list (string * nat) :=
  dict_set key (S (default 0%nat (dict_get key counts))) counts.

(** The counting by location for one threat. *)
Definition count_location (locations : list (string * list (string * nat)))
  (threat : Threat) : outcome (list (string * list (string * nat))) :=
  let location := or_unknown (location threat) in
  let locations :=
    match dict_get location locations with
    | Some _ => locations
    | None => dict_set location no_threats locations
    end in
  do* counts := match dict_get location locations with
                | Some counts => Returns counts
                | None => Raises (LibraryError "KeyError")
                end in
  do* counts := increment "total" counts in
  let locations := dict_set location counts locations in
  do* counts := increment (severity threat) counts in
  Returns (dict_set location counts locations).

(** The first loop over the threats. *)
Fixpoint process (threats : list Threat)
  (state : list (string * list (string * nat)) * list (string * nat)
           * list (string * nat))
  : outcome (list (string * list (string * nat)) * list (string * nat)
             * list (string * nat)) :=
  match threats with
  | [] => Returns state
  | threat :: threats' =>
      do* locations := count_location state.1.1 threat in
      process threats'
        (locations,
         count_up state.1.2 (or_unknown (category threat)),
         count_up state.2 (or_unknown (source threat)))
  end.

(** Tuples of a date and a count, compared as Python compares tuples. *)
Definition item_ltb (a b : string * nat) : bool :=
  match String.compare a.1 b.1 with
  | Lt => true
  | Eq => (a.2 <? b.2)%nat
  | Gt => false
  end.

Fixpoint insert_item (x : string * nat) (l : list (string * nat))
  : list (string * nat) :=
  match l with
  | [] => [x]
  | y :: l' => if item_ltb y x then y :: insert_item x l' else x :: l
  end.

(** [sorted(timeline_data.items())] *)
Definition sorted_items (l : list (string * nat)) : list (string * nat) :=
  foldr insert_item [] l.

(** The body of [get_threat_map] after the rows are fetched, up to the
    caching of the result; [date_of] is
    [created_at.date().isoformat()]. *)
Definition get_threat_map (date_of : Z -> string) (threats : list Threat)
  : outcome ThreatMap :=
  do* counted := process threats ([], [], []) in
  let timeline_data :=
    fold_left (fun data threat => count_up data (date_of (created_at threat)))
      threats [] in
  Returns {| locations := counted.1.1;
             categories := counted.1.2;
             sources := counted.2;
             timeline := sorted_items timeline_data |}.

End threat_map.

(** How often [key] stands in [keys]. *)
Definition tally (key : string) (keys : list string) : nat :=
  length (filter (fun k => k = key) keys).

(** The severities that the table of alerts allows. *)
Definition valid_severity (severity : string) : Prop :=
  severity ∈ ["critical"; "high"; "medium"; "low"].

(** The threats of [threats] at [location], and those of them of
    [severity]. *)
Definition threats_at (location : string) (threats : list threat_map.Threat)
  : list threat_map.Threat :=
  filter (fun threat => or_unknown (threat_map.location threat) = location) threats.

Definition of_severity (severity : string) (threats : list threat_map.Threat)
  : list threat_map.Threat :=
  filter (fun threat => threat_map.severity threat = severity) threats.

(** The counters of a location after [threats]. *)
Definition counters (location : string) (threats : list threat_map.Threat)
  : list (string * nat) :=
  [("total", length (threats_at location threats));
   ("critical", length (of_severity "critical" (threats_at location threats)));
   ("high", length (of_severity "high" (threats_at location threats)));
   ("medium", length (of_severity "medium" (threats_at location threats)));
   ("low", length (of_severity "low" (threats_at location threats)))].

(** Two rows of one day in Paris and one of the day after, without a
    location; the dates are the days since the first. *)
Definition three_threats : list threat_map.Threat :=
  [{| threat_map.severity := "high"; threat_map.category := Some "malware";
      threat_map.source := Some "ids"; threat_map.location := Some "Paris";
      threat_map.created_at := 86400%Z |};
   {| threat_map.severity := "low"; threat_map.category := None;
      threat_map.source := Some "ids"; threat_map.location := None;
      threat_map.created_at := 0%Z |};
   {| threat_map.severity := "high"; threat_map.category := Some "malware";
      threat_map.source := Some ""; threat_map.location := Some "Paris";
      threat_map.created_at := 90000%Z |}].

(** A stand-in for the text of the date: the number of the day. *)
Definition day_of (created_at : Z) : string := pretty (created_at / 86400)%Z.


(** ** Vocabulary of the statements on the fused score and the cache keys *)


(** The values that the patterns of the query parameters of the
    attack-path view let through. *)
Definition valid_risk_level (risk_level : option string) : Prop :=
  risk_level ∈ [None; Some "low"; Some "medium"; Some "high"; Some "critical"].

Definition valid_time_range (time_range : string) : Prop :=
  time_range ∈ ["1h"; "24h"; "7d"; "30d"].

(** [f"threat_map:{time_range}"], the key of the other cached view. *)
Definition threat_map_key (time_range : string) : string :=
  String.append "threat_map:" time_range.

(** * Proofs *)

(** ** Numbers *)

Lemma Qltb_lt (x y : Q) : Qltb x y = true <-> x < y.
Proof.
  unfold Qltb. rewrite negb_true_iff, <- not_true_iff_false, Qle_bool_iff.
  split; intros H; lra.
Qed.

Lemma Qltb_ge (x y : Q) : Qltb x y = false <-> y <= x.
Proof.
  unfold Qltb. rewrite negb_false_iff, Qle_bool_iff. reflexivity.
Qed.

Lemma py_min_spec (a b : Q) : py_min a b == Qmin a b.
Proof.
  unfold py_min. destruct (Qltb b a) eqn:E.
  - apply Qltb_lt in E. symmetry. apply Q.min_r. lra.
  - apply Qltb_ge in E. symmetry. apply Q.min_l. lra.
Qed.

Lemma py_min_le_l (a b : Q) : py_min a b <= a.
Proof. rewrite py_min_spec. apply Q.le_min_l. Qed.

(** ** The result monad *)

Lemma res_bind_Ok {A B : Type} (m : res A) (k : A -> res B) (b : B) :
  res_bind m k = Ok b -> exists a, m = Ok a /\ k a = Ok b.
Proof. destruct m; simpl; intros H; try discriminate. eauto. Qed.

Lemma getitem_Ok {V : Type} (d : gmap string V) (k : string) (v : V) :
  getitem d k = Ok v <-> d !! k = Some v.
Proof. unfold getitem. destruct (d !! k); split; intros H; congruence. Qed.

(** ** The heap *)

Lemma heappop_None (h : list (Q * nat * string)) :
  nx.heappop h = None <-> h = [].
Proof.
  destruct h as [|e h]; simpl; [tauto|].
  split; [|discriminate].
  destruct (nx.heappop h) as [[m r]|]; [destruct (nx.entry_ltb m e)|]; discriminate.
Qed.

Lemma heappop_perm (h : list (Q * nat * string)) e r :
  nx.heappop h = Some (e, r) -> h ≡ₚ e :: r.
Proof.
  revert e r. induction h as [|x h IH]; intros e r; simpl; [discriminate|].
  destruct (nx.heappop h) as [[m r']|] eqn:E.
  - destruct (nx.entry_ltb m x); intros [= <- <-].
    + rewrite (IH _ _ eq_refl). apply perm_swap.
    + reflexivity.
  - intros [= <- <-]. apply heappop_None in E. subst h. reflexivity.
Qed.

Lemma entry_ltb_false (a b : Q * nat * string) :
  nx.entry_ltb a b = false -> b.1.1 <= a.1.1.
Proof.
  unfold nx.entry_ltb. rewrite orb_false_iff. intros [H _].
  apply Qltb_ge in H. exact H.
Qed.

Lemma entry_ltb_true (a b : Q * nat * string) :
  nx.entry_ltb a b = true -> a.1.1 <= b.1.1.
Proof.
  unfold nx.entry_ltb. rewrite orb_true_iff, andb_true_iff.
  intros [H|[H _]].
  - apply Qltb_lt in H. lra.
  - apply Qeq_bool_iff in H. lra.
Qed.

Lemma heappop_least (h : list (Q * nat * string)) e r :
  nx.heappop h = Some (e, r) -> forall x, x ∈ r -> e.1.1 <= x.1.1.
Proof.
  revert e r. induction h as [|y h IH]; intros e r; simpl; [discriminate|].
  destruct (nx.heappop h) as [[m r']|] eqn:E.
  - destruct (nx.entry_ltb m y) eqn:L; intros [= <- <-] x Hx.
    + apply elem_of_cons in Hx as [->|Hx].
      * apply entry_ltb_true; assumption.
      * eapply IH; eauto.
    + apply entry_ltb_false in L.
      apply heappop_perm in E. rewrite E in Hx.
      apply elem_of_cons in Hx as [->|Hx]; [assumption|].
      specialize (IH _ _ eq_refl x Hx). lra.
  - intros [= <- <-] x Hx. apply elem_of_nil in Hx. contradiction.
Qed.

Lemma heappop_length (h : list (Q * nat * string)) e r :
  nx.heappop h = Some (e, r) -> length h = S (length r).
Proof. intros H. apply heappop_perm in H. rewrite H. reflexivity. Qed.

(** ** The two directions of a search state *)

Lemma get_set_side_same dir sd st : nx.get_side dir (nx.set_side dir sd st) = sd.
Proof. destruct dir; reflexivity. Qed.

Lemma get_set_side_other dir sd st :
  nx.get_side (negb dir) (nx.set_side dir sd st) = nx.get_side (negb dir) st.
Proof. destruct dir; reflexivity. Qed.

Lemma record_seen_same dir w q p st :
  nx.get_side dir (nx.record_seen dir w q p st) =
  {| nx.dists := nx.dists (nx.get_side dir st);
     nx.paths := <[w := p]> (nx.paths (nx.get_side dir st));
     nx.fringe := (q, nx.counter st, w) :: nx.fringe (nx.get_side dir st);
     nx.seen := <[w := q]> (nx.seen (nx.get_side dir st)) |}.
Proof. destruct dir; reflexivity. Qed.

Lemma record_seen_other dir w q p st :
  nx.get_side (negb dir) (nx.record_seen dir w q p st) = nx.get_side (negb dir) st.
Proof. destruct dir; reflexivity. Qed.

Lemma record_seen_final dir w q p st :
  nx.finaldist (nx.record_seen dir w q p st) = nx.finaldist st /\
  nx.finalpath (nx.record_seen dir w q p st) = nx.finalpath st.
Proof. destruct dir; split; reflexivity. Qed.

(** [meet] leaves both directions alone; it either keeps the best path
    found so far or replaces it by the one through [w]. *)
Lemma meet_Ok w st st' :
  nx.meet w st = Ok st' ->
  nx.fwd st' = nx.fwd st /\ nx.bwd st' = nx.bwd st /\
  ((nx.finaldist st' = nx.finaldist st /\ nx.finalpath st' = nx.finalpath st /\
    (nx.seen (nx.fwd st) !! w = None \/ nx.seen (nx.bwd st) !! w = None \/
     exists a b fd x l, nx.seen (nx.fwd st) !! w = Some a /\
                    nx.seen (nx.bwd st) !! w = Some b /\
                    nx.finaldist st = Some fd /\ nx.finalpath st = x :: l /\
                    fd <= a + b))
   \/
   (exists a b p0 p1,
       nx.seen (nx.fwd st) !! w = Some a /\ nx.seen (nx.bwd st) !! w = Some b /\
       nx.paths (nx.fwd st) !! w = Some p0 /\ nx.paths (nx.bwd st) !! w = Some p1 /\
       nx.finaldist st' = Some (a + b) /\ nx.finalpath st' = p0 ++ tail (rev p1) /\
       (nx.finalpath st = [] \/
        exists fd, nx.finaldist st = Some fd /\ a + b < fd))).
Proof.
  unfold nx.meet.
  destruct (nx.seen (nx.fwd st) !! w) as [a|] eqn:Ea;
    [|intros [= <-]; repeat split; left; auto].
  destruct (nx.seen (nx.bwd st) !! w) as [b|] eqn:Eb;
    [|intros [= <-]; repeat split; left; auto].
  destruct (nx.finalpath st) as [|x l] eqn:Ep; simpl.
  - destruct (getitem (nx.paths (nx.bwd st)) w) as [p1| |] eqn:E1; simpl; try discriminate.
    destruct (getitem (nx.paths (nx.fwd st)) w) as [p0| |] eqn:E0; simpl; try discriminate.
    intros [= <-]; simpl. apply getitem_Ok in E0, E1.
    repeat split. right. exists a, b, p0, p1. repeat split; auto.
  - destruct (nx.finaldist st) as [fd|] eqn:Ef; simpl; try discriminate.
    destruct (Qltb (a + b) fd) eqn:El.
    + destruct (getitem (nx.paths (nx.bwd st)) w) as [p1| |] eqn:E1; simpl; try discriminate.
      destruct (getitem (nx.paths (nx.fwd st)) w) as [p0| |] eqn:E0; simpl; try discriminate.
      intros [= <-]; simpl. apply getitem_Ok in E0, E1. apply Qltb_lt in El.
      repeat split. right. exists a, b, p0, p1. repeat split; eauto.
    + intros [= <-]. apply Qltb_ge in El.
      repeat split. left. repeat split; auto.
      right; right. exists a, b, fd, x, l. repeat split; auto.
Qed.

Lemma meet_not_Diverge w st : nx.meet w st <> Diverge.
Proof.
  unfold nx.meet.
  destruct (nx.seen (nx.fwd st) !! w); [|discriminate].
  destruct (nx.seen (nx.bwd st) !! w); [|discriminate].
  destruct (nx.finalpath st); simpl.
  - unfold getitem. destruct (nx.paths (nx.bwd st) !! w); simpl; [|discriminate].
    destruct (nx.paths (nx.fwd st) !! w); simpl; discriminate.
  - destruct (nx.finaldist st); simpl; [|discriminate].
    destruct (Qltb _ _); [|discriminate].
    unfold getitem. destruct (nx.paths (nx.bwd st) !! w); simpl; [|discriminate].
    destruct (nx.paths (nx.fwd st) !! w); simpl; discriminate.
Qed.

(** The two ways a relaxation step can succeed: nothing changes because
    the known distance is not improved, or [w] is recorded and [meet] runs. *)
Lemma relax1_Ok dir v w cost st st' :
  nx.relax1 dir v w cost st = Ok st' ->
  exists dv, nx.dists (nx.get_side dir st) !! v = Some dv /\
    ((st' = st /\
      ((exists dw, nx.dists (nx.get_side dir st) !! w = Some dw /\ dw <= dv + cost) \/
       (nx.dists (nx.get_side dir st) !! w = None /\
        exists sw, nx.seen (nx.get_side dir st) !! w = Some sw /\ sw <= dv + cost)))
     \/
     (nx.dists (nx.get_side dir st) !! w = None /\
      (nx.seen (nx.get_side dir st) !! w = None \/
       exists sw, nx.seen (nx.get_side dir st) !! w = Some sw /\ dv + cost < sw) /\
      exists pv, nx.paths (nx.get_side dir st) !! v = Some pv /\
        nx.meet w (nx.record_seen dir w (dv + cost) (pv ++ [w]) st) = Ok st')).
Proof.
  unfold nx.relax1. intros H.
  apply res_bind_Ok in H as (dv & Hdv & H). apply getitem_Ok in Hdv.
  exists dv. split; [exact Hdv|].
  destruct (nx.dists (nx.get_side dir st) !! w) as [dw|] eqn:Ew.
  - destruct (Qltb (dv + cost) dw) eqn:El; [discriminate|].
    injection H as <-. apply Qltb_ge in El. left. split; [reflexivity|]. left. eauto.
  - destruct (nx.seen (nx.get_side dir st) !! w) as [sw|] eqn:Es.
    + destruct (Qltb (dv + cost) sw) eqn:El.
      * apply res_bind_Ok in H as (pv & Hpv & H). apply getitem_Ok in Hpv.
        apply Qltb_lt in El. right. split; [reflexivity|]. split; [right; eauto|]. eauto.
      * injection H as <-. apply Qltb_ge in El. left. split; [reflexivity|]. right. eauto.
    + apply res_bind_Ok in H as (pv & Hpv & H). apply getitem_Ok in Hpv.
      right. split; [reflexivity|]. split; [left; reflexivity|]. eauto.
Qed.

Lemma relax1_not_Diverge dir v w cost st : nx.relax1 dir v w cost st <> Diverge.
Proof.
  unfold nx.relax1, getitem.
  destruct (nx.dists (nx.get_side dir st) !! v); simpl; [|discriminate].
  destruct (nx.dists (nx.get_side dir st) !! w).
  - destruct (Qltb _ _); discriminate.
  - destruct (match nx.seen (nx.get_side dir st) !! w with
              | Some sw => Qltb _ sw | None => true end); [|discriminate].
    destruct (nx.paths (nx.get_side dir st) !! v); simpl; [|discriminate].
    apply meet_not_Diverge.
Qed.

Lemma relax_not_Diverge dir v nb st : nx.relax dir v nb st <> Diverge.
Proof.
  revert st. induction nb as [|[w c] nb IH]; intros st; simpl; [discriminate|].
  destruct (nx.relax1 dir v w c st) eqn:E; simpl; [apply IH|discriminate|].
  exfalso. eapply relax1_not_Diverge; eauto.
Qed.

(** A relaxation step leaves the final distances alone, adds at most one
    heap entry on its own side and none on the other. *)
Lemma relax1_sizes dir v w cost st st' :
  nx.relax1 dir v w cost st = Ok st' ->
  nx.dists (nx.get_side dir st') = nx.dists (nx.get_side dir st) /\
  nx.get_side (negb dir) st' = nx.get_side (negb dir) st /\
  (length (nx.fringe (nx.get_side dir st'))
   <= S (length (nx.fringe (nx.get_side dir st))))%nat.
Proof.
  intros H. apply relax1_Ok in H as (dv & _ & [[-> _]|(_ & _ & pv & _ & H)]).
  - repeat split; auto.
  - apply meet_Ok in H as (Hf & Hb & _).
    assert (Hs : forall d, nx.get_side d st' =
                           nx.get_side d (nx.record_seen dir w (dv + cost) (pv ++ [w]) st)).
    { intros []; simpl; assumption. }
    rewrite !Hs, record_seen_same, record_seen_other. simpl. repeat split; auto.
Qed.

Lemma relax_sizes dir v nb st st' :
  nx.relax dir v nb st = Ok st' ->
  nx.dists (nx.get_side dir st') = nx.dists (nx.get_side dir st) /\
  nx.get_side (negb dir) st' = nx.get_side (negb dir) st /\
  (length (nx.fringe (nx.get_side dir st'))
   <= length (nx.fringe (nx.get_side dir st)) + length nb)%nat.
Proof.
  revert st. induction nb as [|[w c] nb IH]; intros st; simpl.
  - intros [= <-]. repeat split; auto. lia.
  - intros H. apply res_bind_Ok in H as (st1 & H1 & H).
    apply relax1_sizes in H1 as (Hd & Ho & Hl).
    apply IH in H as (Hd' & Ho' & Hl').
    rewrite Hd', Hd, Ho', Ho. repeat split; auto. lia.
Qed.

(** ** [dijkstra_loop] comes to an end *)

Section DijkstraRounds.

Variable nbrs : string -> list (string * Q).
Variable ns : list string.
Hypothesis nbrs_outside : forall v, v ∉ ns -> nbrs v = [].

Lemma room_insert_list (l : list string) (d : gmap string Q) (v : string) (x : Q) :
  d !! v = None ->
  (sum_list_with (fun u => length (nbrs u)) (filter (fun u => <[v := x]> d !! u = None) l)
   + (if decide (v ∈ l) then length (nbrs v) else 0)
   <= sum_list_with (fun u => length (nbrs u)) (filter (fun u => d !! u = None) l))%nat.
Proof.
  intros Hv. induction l as [|u l IH].
  - destruct (decide (v ∈ [])) as [Hin|_]; [inversion Hin|]. simpl. lia.
  - rewrite !filter_cons.
    destruct (decide (u = v)) as [->|Hne].
    + rewrite lookup_insert_eq.
      rewrite (decide_False (P := Some x = None)) by discriminate.
      rewrite (decide_True (P := d !! v = None)) by assumption.
      rewrite (decide_True (P := v ∈ v :: l)) by apply list_elem_of_here.
      simpl. destruct (decide (v ∈ l)); lia.
    + rewrite lookup_insert_ne by congruence.
      assert (Hiff : v ∈ u :: l <-> v ∈ l).
      { rewrite elem_of_cons. split; [intros [Heq|Hin]|]; [congruence|assumption|auto]. }
      destruct (decide (d !! u = None)); simpl;
        destruct (decide (v ∈ u :: l)), (decide (v ∈ l)); try tauto; lia.
Qed.

Lemma room_insert (d : gmap string Q) (v : string) (x : Q) :
  d !! v = None ->
  (room nbrs ns (<[v := x]> d) + length (nbrs v) <= room nbrs ns d)%nat.
Proof.
  intros Hv. pose proof (room_insert_list ns d v x Hv) as H.
  unfold room. destruct (decide (v ∈ ns)) as [Hin|Hout]; [exact H|].
  rewrite (nbrs_outside v Hout). simpl. lia.
Qed.

Lemma measure_sides dir st :
  dijkstra_measure nbrs ns st =
  (length (nx.fringe (nx.get_side dir st))
   + length (nx.fringe (nx.get_side (negb dir) st))
   + room nbrs ns (nx.dists (nx.get_side dir st))
   + room nbrs ns (nx.dists (nx.get_side (negb dir) st)))%nat.
Proof. unfold dijkstra_measure. destruct dir; simpl; lia. Qed.

Lemma dijkstra_loop_ends fuel dir st :
  (dijkstra_measure nbrs ns st < fuel)%nat ->
  nx.dijkstra_loop nbrs fuel dir st <> Diverge.
Proof.
  revert dir st. induction fuel as [|fuel IH]; intros dir st Hm; [lia|].
  simpl.
  destruct (nx.fringe (nx.fwd st)) as [|e0 f0] eqn:Ef; [discriminate|].
  destruct (nx.fringe (nx.bwd st)) as [|e1 f1] eqn:Eb; [discriminate|].
  destruct (nx.heappop (nx.fringe (nx.get_side (negb dir) st)))
    as [[[[dist c] v] rest]|] eqn:Ep; [|discriminate].
  apply heappop_length in Ep.
  rewrite (measure_sides (negb dir)) in Hm.
  destruct (nx.dists (nx.get_side (negb dir) st) !! v) eqn:Ed.
  - apply IH. rewrite (measure_sides (negb dir)).
    rewrite get_set_side_same, get_set_side_other. simpl. lia.
  - rewrite get_set_side_other.
    destruct (nx.dists (nx.get_side (negb (negb dir)) st) !! v).
    + destruct (nx.finaldist _); discriminate.
    + match goal with |- res_bind ?m _ <> _ => destruct m as [st3| |] eqn:Er end;
        simpl; [|discriminate|exfalso; eapply relax_not_Diverge; eauto].
      apply relax_sizes in Er as (Hd & Ho & Hl).
      rewrite get_set_side_same, get_set_side_other in *. simpl in *.
      apply IH. rewrite (measure_sides (negb dir)).
      rewrite Hd, Ho.
      pose proof (room_insert (nx.dists (nx.get_side (negb dir) st)) v dist Ed).
      lia.
Qed.

End DijkstraRounds.

(** ** Walks *)

Section WalkFacts.

Variable nbrs : string -> list (string * Q).

Lemma steps_from_app u a b :
  steps_from nbrs u (a ++ b) <->
  steps_from nbrs u a /\ steps_from nbrs (walk_end u a) b.
Proof.
  revert u. induction a as [|[v c] a IH]; intros u; simpl; [tauto|].
  rewrite IH. tauto.
Qed.

Lemma walk_end_app u a b : walk_end u (a ++ b) = walk_end (walk_end u a) b.
Proof. revert u. induction a as [|[v c] a IH]; intros u; simpl; auto. Qed.

Lemma walk_cost_app a b : walk_cost (a ++ b) == walk_cost a + walk_cost b.
Proof.
  induction a as [|[v c] a IH]; simpl; [ring|].
  unfold walk_cost in *. simpl. rewrite IH. ring.
Qed.

Lemma walk_nodes_snoc u a w c :
  walk_nodes u (a ++ [(w, c)]) = walk_nodes u a ++ [w].
Proof. unfold walk_nodes. rewrite map_app. reflexivity. Qed.

Lemma walk_within_start src : walk_within nbrs src [src] src 0.
Proof. exists []. repeat split. simpl. unfold walk_cost. simpl. lra. Qed.

Lemma walk_within_snoc src p v q w c q' :
  walk_within nbrs src p v q -> (w, c) ∈ nbrs v -> q + c <= q' ->
  walk_within nbrs src (p ++ [w]) w q'.
Proof.
  intros (steps & H1 & -> & H3 & H4) Hw Hq.
  exists (steps ++ [(w, c)]). split; [|split; [|split]].
  - apply steps_from_app. split; [assumption|]. rewrite H3. simpl. auto.
  - rewrite walk_nodes_snoc. reflexivity.
  - rewrite walk_end_app. reflexivity.
  - rewrite walk_cost_app. unfold walk_cost at 2. simpl. lra.
Qed.

Lemma walk_within_nonempty src p w q : walk_within nbrs src p w q -> p <> [].
Proof. intros (steps & _ & -> & _). discriminate. Qed.

Hypothesis nonneg : forall v w c, (w, c) ∈ nbrs v -> 0 <= c.

Lemma walk_cost_nonneg u steps : steps_from nbrs u steps -> 0 <= walk_cost steps.
Proof.
  revert u. induction steps as [|[v c] steps IH]; intros u; simpl.
  - intros _. unfold walk_cost. simpl. lra.
  - intros [Hv Hs]. specialize (IH _ Hs). apply nonneg in Hv.
    unfold walk_cost in *. simpl. lra.
Qed.

Hypothesis sym : forall v w c, (w, c) ∈ nbrs v -> (v, c) ∈ nbrs w.

Lemma rev_steps_spec u steps :
  steps_from nbrs u steps ->
  steps_from nbrs (walk_end u steps) (rev_steps u steps) /\
  walk_end (walk_end u steps) (rev_steps u steps) = u /\
  walk_cost (rev_steps u steps) == walk_cost steps /\
  map fst (rev_steps u steps) = tail (rev (walk_nodes u steps)).
Proof.
  revert u. induction steps as [|[v c] steps IH]; intros u; simpl.
  - intros _. repeat split; reflexivity.
  - intros [Hv Hs]. destruct (IH _ Hs) as (I1 & I2 & I3 & I4).
    split; [|split; [|split]].
    + apply steps_from_app. split; [assumption|]. rewrite I2. simpl. auto.
    + rewrite walk_end_app, I2. reflexivity.
    + rewrite walk_cost_app, I3. unfold walk_cost. simpl. ring.
    + rewrite map_app, I4. unfold walk_nodes. simpl.
      destruct (rev (map fst steps) ++ [v]) as [|x l] eqn:E.
      * destruct (rev (map fst steps)); discriminate.
      * reflexivity.
Qed.

Lemma connected_sym u v : connected nbrs u v -> connected nbrs v u.
Proof.
  intros (steps & H1 & <-). exists (rev_steps u steps).
  destruct (rev_steps_spec u steps H1) as (I1 & I2 & _). auto.
Qed.

(** A walk from [s] to [w] and one from [t] to [w] make one from [s] to [t]. *)
Lemma walk_within_join s t w p0 p1 a b :
  walk_within nbrs s p0 w a -> walk_within nbrs t p1 w b ->
  walk_within nbrs s (p0 ++ tail (rev p1)) t (a + b).
Proof.
  intros (s0 & A1 & -> & A3 & A4) (s1 & B1 & -> & B3 & B4).
  destruct (rev_steps_spec t s1 B1) as (I1 & I2 & I3 & I4).
  exists (s0 ++ rev_steps t s1). split; [|split; [|split]].
  - apply steps_from_app. split; [assumption|]. rewrite A3, <- B3. assumption.
  - unfold walk_nodes in *. rewrite map_app, I4. reflexivity.
  - rewrite walk_end_app, A3, <- B3. assumption.
  - rewrite walk_cost_app, I3. lra.
Qed.

End WalkFacts.

(** ** What [bidirectional_dijkstra] maintains *)

Section DijkstraInvariants.

Variable nbrs : string -> list (string * Q).
Hypothesis nonneg : forall v w c, (w, c) ∈ nbrs v -> 0 <= c.
Hypothesis sym : forall v w c, (w, c) ∈ nbrs v -> (v, c) ∈ nbrs w.

(** Every walk that ends at a node not yet final passes the heap: some heap
    entry is no dearer than the walk. *)
Lemma frontier src x sd :
  side_inv nbrs src x [] sd ->
  forall post pre y,
    steps_from nbrs src pre -> walk_end src pre = y ->
    steps_from nbrs y post -> nx.dists sd !! walk_end y post = None ->
    (is_Some (nx.dists sd !! y) \/
     exists q, nx.seen sd !! y = Some q /\ q <= walk_cost pre) ->
    exists e, e ∈ nx.fringe sd /\ e.1.1 <= walk_cost pre + walk_cost post.
Proof.
  intros I post. induction post as [|[z c] post IH]; intros pre y Hpre Hy Hpost Hend Hcase.
  - simpl in Hend. destruct Hcase as [[d Hd]|(q & Hq & Hle)]; [congruence|].
    destruct (inv_seen_fringe I _ _ Hq Hend) as (e & He & _ & Hk).
    exists e. split; [assumption|]. unfold walk_cost at 2. simpl. lra.
  - simpl in Hpost, Hend. destruct Hpost as [Hz Hpost].
    destruct (nx.dists sd !! y) as [d|] eqn:Ed.
    + destruct (inv_closed I _ _ _ _ Ed Hz) as [[_ Hin]|(q & Hq & Hle)];
        [inversion Hin|].
      pose proof (inv_least I _ _ _ Ed Hpre Hy) as Hd.
      destruct (IH (pre ++ [(z, c)]) z) as (e & He & Hk).
      * apply steps_from_app. split; [assumption|]. rewrite Hy. simpl. auto.
      * rewrite walk_end_app. reflexivity.
      * assumption.
      * assumption.
      * right. exists q. split; [assumption|].
        rewrite walk_cost_app. unfold walk_cost at 2. simpl. lra.
      * exists e. split; [assumption|].
        rewrite walk_cost_app in Hk. unfold walk_cost in *. simpl in *. lra.
    + destruct Hcase as [[d Hd]|(q & Hq & Hle)]; [congruence|].
      destruct (inv_seen_fringe I _ _ Hq Ed) as (e & He & _ & Hk).
      exists e. split; [assumption|].
      assert (0 <= walk_cost ((z, c) :: post)).
      { apply (walk_cost_nonneg nbrs nonneg y). simpl. auto. }
      lra.
Qed.

Lemma frontier_src src x sd steps :
  side_inv nbrs src x [] sd ->
  steps_from nbrs src steps -> nx.dists sd !! walk_end src steps = None ->
  exists e, e ∈ nx.fringe sd /\ e.1.1 <= walk_cost steps.
Proof.
  intros I Hs Hend.
  destruct (frontier src x sd I steps [] src) as (e & He & Hk); simpl; auto.
  - right. destruct (inv_src I) as (q & Hq & Hle). exists q. split; [assumption|].
    unfold walk_cost. simpl. assumption.
  - exists e. split; [assumption|]. unfold walk_cost in *. simpl in *. lra.
Qed.

(** A stale heap entry is dropped. *)
Lemma pop_stale_inv src x sd k c v rest d :
  side_inv nbrs src x [] sd ->
  nx.heappop (nx.fringe sd) = Some ((k, c, v), rest) ->
  nx.dists sd !! v = Some d ->
  side_inv nbrs src x [] (nx.with_fringe rest sd).
Proof.
  intros I Hp Hv. pose proof (heappop_perm _ _ _ Hp) as Hperm.
  assert (Hsub : forall e, e ∈ rest -> e ∈ nx.fringe sd).
  { intros e He. rewrite Hperm. apply elem_of_cons. auto. }
  constructor; simpl.
  - apply (inv_src I).
  - intros He. rewrite He in Hv. rewrite lookup_empty in Hv. discriminate.
  - apply (inv_src_final I).
  - apply (inv_final_seen I).
  - apply (inv_paths I).
  - intros w q Hq Hw.
    destruct (inv_seen_fringe I _ _ Hq Hw) as (e & He & Hew & Hk).
    exists e. split; [|auto].
    rewrite Hperm in He. apply elem_of_cons in He as [->|He]; [|assumption].
    simpl in Hew. congruence.
  - intros e He. apply (inv_fringe_seen I). auto.
  - intros u du e Hu He. apply (inv_final_fringe I _ _ _ Hu). auto.
  - apply (inv_closed I).
  - apply (inv_least I).
Qed.

(** The least heap entry becomes final; its neighbours are then pending. *)
Lemma pop_final_inv src x sd k c v rest :
  side_inv nbrs src x [] sd ->
  nx.heappop (nx.fringe sd) = Some ((k, c, v), rest) ->
  nx.dists sd !! v = None ->
  side_inv nbrs src v (nbrs v) (nx.with_final v k (nx.with_fringe rest sd)) /\
  (forall u d, <[v := k]> (nx.dists sd) !! u = Some d -> d <= k).
Proof.
  intros I Hp Hv. pose proof (heappop_perm _ _ _ Hp) as Hperm.
  assert (Hsub : forall e, e ∈ rest -> e ∈ nx.fringe sd).
  { intros e He. rewrite Hperm. apply elem_of_cons. auto. }
  assert (Hin : (k, c, v) ∈ nx.fringe sd).
  { rewrite Hperm. apply elem_of_cons. auto. }
  split; [constructor; simpl|].
  - apply (inv_src I).
  - intros He. exfalso. exact (insert_non_empty (nx.dists sd) v k He).
  - intros u d _.
    destruct (nx.dists sd !! src) as [ds|] eqn:Es.
    + destruct (decide (v = src)) as [->|Hne]; [congruence|].
      rewrite lookup_insert_ne by assumption. rewrite Es. eauto.
    + assert (He : nx.dists sd = ∅).
      { apply map_empty. intros i. destruct (nx.dists sd !! i) as [di|] eqn:Ei; [|reflexivity].
        destruct (inv_src_final I _ _ Ei) as [? ?]. congruence. }
      pose proof (inv_first I He _ Hin) as Hsrc. simpl in Hsrc. subst v.
      rewrite lookup_insert_eq. eauto.
  - intros u d. destruct (decide (u = v)) as [->|Hne].
    + rewrite lookup_insert_eq. intros [= <-].
      destruct (inv_fringe_seen I _ Hin) as (q & Hq & Hle). eauto.
    + rewrite lookup_insert_ne by congruence. apply (inv_final_seen I).
  - apply (inv_paths I).
  - intros w q Hq Hw.
    destruct (decide (w = v)) as [->|Hne]; [rewrite lookup_insert_eq in Hw; discriminate|].
    rewrite lookup_insert_ne in Hw by congruence.
    destruct (inv_seen_fringe I _ _ Hq Hw) as (e & He & Hew & Hk).
    exists e. split; [|auto].
    rewrite Hperm in He. apply elem_of_cons in He as [->|He]; [|assumption].
    simpl in Hew. congruence.
  - intros e He. apply (inv_fringe_seen I). auto.
  - intros u d e Hu He. destruct (decide (u = v)) as [->|Hne].
    + rewrite lookup_insert_eq in Hu. injection Hu as <-.
      apply (heappop_least _ _ _ Hp e He).
    + rewrite lookup_insert_ne in Hu by congruence.
      apply (inv_final_fringe I _ _ _ Hu). auto.
  - intros u d w cw Hu Hw. destruct (decide (u = v)) as [->|Hne].
    + left. auto.
    + rewrite lookup_insert_ne in Hu by congruence.
      destruct (inv_closed I _ _ _ _ Hu Hw) as [[_ Hnil]|H]; [inversion Hnil|auto].
  - intros u d steps Hu Hs He. destruct (decide (u = v)) as [->|Hne].
    + rewrite lookup_insert_eq in Hu. injection Hu as <-.
      destruct (frontier_src src x sd steps I Hs) as (e & Hin' & Hk); [congruence|].
      rewrite Hperm in Hin'. apply elem_of_cons in Hin' as [->|Hin']; [assumption|].
      pose proof (heappop_least _ _ _ Hp e Hin') as Hl. simpl in Hl. lra.
    + rewrite lookup_insert_ne in Hu by congruence.
      apply (inv_least I _ _ _ Hu Hs He).
  - intros u d. destruct (decide (u = v)) as [->|Hne].
    + rewrite lookup_insert_eq. intros [= <-]. lra.
    + rewrite lookup_insert_ne by congruence. intros Hu.
      apply (inv_final_fringe I _ _ _ Hu Hin).
Qed.

(** A neighbour whose known distance is not improved. *)
Lemma skip_side_inv src v w cost pending sd dv :
  side_inv nbrs src v ((w, cost) :: pending) sd ->
  nx.dists sd !! v = Some dv ->
  ((exists dw, nx.dists sd !! w = Some dw /\ dw <= dv + cost) \/
   (exists sw, nx.seen sd !! w = Some sw /\ sw <= dv + cost)) ->
  side_inv nbrs src v pending sd.
Proof.
  intros I Hv Hw. constructor.
  - apply (inv_src I).
  - apply (inv_first I).
  - apply (inv_src_final I).
  - apply (inv_final_seen I).
  - apply (inv_paths I).
  - apply (inv_seen_fringe I).
  - apply (inv_fringe_seen I).
  - apply (inv_final_fringe I).
  - intros u d w' c' Hu Hw'.
    destruct (inv_closed I _ _ _ _ Hu Hw') as [[-> Hin]|H]; [|auto].
    apply elem_of_cons in Hin as [[= -> ->]|Hin]; [|auto].
    right. assert (d = dv) as -> by congruence.
    destruct Hw as [(dw & Hdw & Hle)|(sw & Hsw & Hle)].
    + destruct (inv_final_seen I _ _ Hdw) as (q & Hq & Hqle).
      exists q. split; [assumption|lra].
    + eauto.
  - apply (inv_least I).
Qed.

(** A neighbour that is recorded with a new, smaller distance. *)
Lemma record_side_inv src v w cost pending sd dv pv c :
  side_inv nbrs src v ((w, cost) :: pending) sd ->
  (w, cost) ∈ nbrs v ->
  nx.dists sd !! v = Some dv ->
  (forall u d, nx.dists sd !! u = Some d -> d <= dv) ->
  nx.dists sd !! w = None ->
  (nx.seen sd !! w = None \/
   exists sw, nx.seen sd !! w = Some sw /\ dv + cost < sw) ->
  nx.paths sd !! v = Some pv ->
  side_inv nbrs src v pending
    {| nx.dists := nx.dists sd;
       nx.paths := <[w := pv ++ [w]]> (nx.paths sd);
       nx.fringe := (dv + cost, c, w) :: nx.fringe sd;
       nx.seen := <[w := dv + cost]> (nx.seen sd) |}.
Proof.
  intros I Hedge Hv Htop Hw Hseen Hpv.
  pose proof (nonneg _ _ _ Hedge) as Hc.
  assert (Hold : forall q, nx.seen sd !! w = Some q -> dv + cost < q).
  { intros q Hq. destruct Hseen as [Hn|(sw & Hsw & Hlt)]; congruence. }
  constructor; simpl.
  - destruct (inv_src I) as (q & Hq & Hle).
    destruct (decide (w = src)) as [->|Hne].
    + rewrite lookup_insert_eq. exists (dv + cost). split; [reflexivity|].
      specialize (Hold _ Hq). lra.
    + rewrite lookup_insert_ne by assumption. eauto.
  - intros He. rewrite He, lookup_empty in Hv. discriminate.
  - apply (inv_src_final I).
  - intros u d Hu. assert (u <> w) by congruence.
    rewrite lookup_insert_ne by congruence. apply (inv_final_seen I _ _ Hu).
  - intros w' q. destruct (decide (w' = w)) as [->|Hne].
    + rewrite !lookup_insert_eq. intros [= <-].
      exists (pv ++ [w]). split; [reflexivity|].
      destruct (inv_final_seen I _ _ Hv) as (qv & Hqv & Hqle).
      destruct (inv_paths I _ _ Hqv) as (p & Hp & Hwalk).
      assert (p = pv) as -> by congruence.
      eapply walk_within_snoc; eauto. lra.
    + rewrite !lookup_insert_ne by congruence. apply (inv_paths I).
  - intros w' q. destruct (decide (w' = w)) as [->|Hne].
    + rewrite lookup_insert_eq. intros [= <-] _.
      exists (dv + cost, c, w). split; [apply elem_of_cons; auto|]. simpl.
      split; [reflexivity|lra].
    + rewrite lookup_insert_ne by congruence. intros Hq Hd.
      destruct (inv_seen_fringe I _ _ Hq Hd) as (e & He & Hew & Hk).
      exists e. split; [apply elem_of_cons; auto|auto].
  - intros e He. apply elem_of_cons in He as [->|He]; simpl.
    + rewrite lookup_insert_eq. exists (dv + cost). split; [reflexivity|lra].
    + destruct (inv_fringe_seen I _ He) as (q & Hq & Hle).
      destruct (decide (e.2 = w)) as [Heq|Hne].
      * rewrite Heq in *. rewrite lookup_insert_eq.
        exists (dv + cost). split; [reflexivity|]. specialize (Hold _ Hq). lra.
      * rewrite lookup_insert_ne by congruence. eauto.
  - intros u d e Hu He. apply elem_of_cons in He as [->|He]; simpl.
    + specialize (Htop _ _ Hu). lra.
    + apply (inv_final_fringe I _ _ _ Hu He).
  - intros u d w' c' Hu Hw'.
    assert (Hkeep : forall q, nx.seen sd !! w' = Some q -> q <= d + c' ->
              exists q', <[w := dv + cost]> (nx.seen sd) !! w' = Some q' /\ q' <= d + c').
    { intros q Hq Hle. destruct (decide (w' = w)) as [->|Hne].
      - rewrite lookup_insert_eq. exists (dv + cost). split; [reflexivity|].
        specialize (Hold _ Hq). lra.
      - rewrite lookup_insert_ne by congruence. eauto. }
    destruct (inv_closed I _ _ _ _ Hu Hw') as [[-> Hin]|(q & Hq & Hle)].
    + apply elem_of_cons in Hin as [[= -> ->]|Hin]; [|auto].
      right. assert (d = dv) as -> by congruence.
      rewrite lookup_insert_eq. exists (dv + cost). split; [reflexivity|lra].
    + right. eauto.
  - apply (inv_least I).
Qed.

Variables s t : string.

(** [meet] restores the invariant on the best path after [w] was recorded. *)
Lemma meet_keeps w st1 x0 pen0 x1 pen1 :
  side_inv nbrs s x0 pen0 (nx.fwd st1) ->
  side_inv nbrs t x1 pen1 (nx.bwd st1) ->
  (forall w' a b, w' <> w ->
      nx.seen (nx.fwd st1) !! w' = Some a -> nx.seen (nx.bwd st1) !! w' = Some b ->
      exists fd, nx.finaldist st1 = Some fd /\ fd <= a + b /\ nx.finalpath st1 <> []) ->
  (nx.finalpath st1 <> [] ->
      exists fd, nx.finaldist st1 = Some fd /\
                 walk_within nbrs s (nx.finalpath st1) t fd) ->
  (forall u, nx.dists (nx.fwd st1) !! u = None \/ nx.dists (nx.bwd st1) !! u = None) ->
  (forall dir u d, nx.dists (nx.get_side (negb dir) st1) = ∅ ->
      nx.dists (nx.get_side dir st1) !! u = Some d -> u = src_of s t dir) ->
  exists st', nx.meet w st1 = Ok st' /\
              nx.fwd st' = nx.fwd st1 /\ nx.bwd st' = nx.bwd st1 /\
              meet_inv nbrs s t st'.
Proof.
  intros I0 I1 Hbest Hpath Hapart Hlone.
  unfold nx.meet.
  destruct (nx.seen (nx.fwd st1) !! w) as [a|] eqn:Ea; cycle 1.
  { refine (ex_intro _ st1 (conj eq_refl (conj eq_refl (conj eq_refl _)))).
    constructor; auto. intros w' a' b' Ha' Hb'.
    apply (Hbest w' a' b'); auto. congruence. }
  destruct (nx.seen (nx.bwd st1) !! w) as [b|] eqn:Eb; cycle 1.
  { refine (ex_intro _ st1 (conj eq_refl (conj eq_refl (conj eq_refl _)))).
    constructor; auto. intros w' a' b' Ha' Hb'.
    apply (Hbest w' a' b'); auto. congruence. }
  destruct (inv_paths I0 _ _ Ea) as (p0 & Hp0 & Hw0).
  destruct (inv_paths I1 _ _ Eb) as (p1 & Hp1 & Hw1).
  assert (Hreplace :
    (nx.finalpath st1 = [] \/ exists fd, nx.finaldist st1 = Some fd /\ a + b < fd) ->
    meet_inv nbrs s t
      {| nx.fwd := nx.fwd st1; nx.bwd := nx.bwd st1; nx.counter := nx.counter st1;
         nx.finaldist := Some (a + b); nx.finalpath := p0 ++ tail (rev p1) |}).
  { intros Hwhy.
    assert (Hne : p0 ++ tail (rev p1) <> []).
    { pose proof (walk_within_nonempty _ _ _ _ _ Hw0). destruct p0; [congruence|discriminate]. }
    constructor; simpl.
    - intros w' a' b' Ha' Hb'. exists (a + b). split; [reflexivity|]. split; [|assumption].
      destruct (decide (w' = w)) as [->|Hw'].
      + assert (a' = a) as -> by congruence. assert (b' = b) as -> by congruence. lra.
      + destruct (Hbest w' a' b' Hw' Ha' Hb') as (fd & Hfd & Hle & Hnil).
        destruct Hwhy as [Hnil'|(fd' & Hfd' & Hlt)]; [congruence|].
        assert (fd' = fd) as -> by congruence. lra.
    - intros _. exists (a + b). split; [reflexivity|].
      eapply walk_within_join; eauto.
    - assumption.
    - intros [] u d; simpl; apply (Hlone true) || apply (Hlone false). }
  destruct (nx.finalpath st1) as [|y l] eqn:Ep; simpl.
  - unfold getitem. rewrite Hp1, Hp0. simpl.
    refine (ex_intro _ _ (conj eq_refl (conj eq_refl (conj eq_refl _)))). auto.
  - destruct (Hpath ltac:(discriminate)) as (fd & Hfd & Hwalk).
    rewrite Hfd. simpl.
    destruct (Qltb (a + b) fd) eqn:El.
    + apply Qltb_lt in El. unfold getitem. rewrite Hp1, Hp0. simpl.
      refine (ex_intro _ _ (conj eq_refl (conj eq_refl (conj eq_refl _)))). eauto.
    + apply Qltb_ge in El.
      refine (ex_intro _ st1 (conj eq_refl (conj eq_refl (conj eq_refl _)))).
      constructor; auto.
      * intros w' a' b' Ha' Hb'. destruct (decide (w' = w)) as [->|Hw'].
        -- assert (a' = a) as -> by congruence. assert (b' = b) as -> by congruence.
           exists fd. rewrite Ep. repeat split; auto.
        -- rewrite Ep. apply (Hbest w' a' b'); auto.
      * rewrite Ep. intros _. eauto.
Qed.

(** One relaxation step: it succeeds and keeps every invariant. *)
Lemma relax1_inv dir v w cost pending st dv x' :
  side_inv nbrs (src_of s t dir) v ((w, cost) :: pending) (nx.get_side dir st) ->
  side_inv nbrs (src_of s t (negb dir)) x' [] (nx.get_side (negb dir) st) ->
  meet_inv nbrs s t st ->
  (w, cost) ∈ nbrs v ->
  nx.dists (nx.get_side dir st) !! v = Some dv ->
  (forall u d, nx.dists (nx.get_side dir st) !! u = Some d -> d <= dv) ->
  exists st', nx.relax1 dir v w cost st = Ok st' /\
    side_inv nbrs (src_of s t dir) v pending (nx.get_side dir st') /\
    nx.get_side (negb dir) st' = nx.get_side (negb dir) st /\
    nx.dists (nx.get_side dir st') = nx.dists (nx.get_side dir st) /\
    meet_inv nbrs s t st'.
Proof.
  intros I Io M Hedge Hv Htop.
  pose proof (nonneg _ _ _ Hedge) as Hc.
  assert (Hrecord :
    nx.dists (nx.get_side dir st) !! w = None ->
    (nx.seen (nx.get_side dir st) !! w = None \/
     exists sw, nx.seen (nx.get_side dir st) !! w = Some sw /\ dv + cost < sw) ->
    exists st',
      (let* pv := getitem (nx.paths (nx.get_side dir st)) v in
       nx.meet w (nx.record_seen dir w (dv + cost) (pv ++ [w]) st)) = Ok st' /\
      side_inv nbrs (src_of s t dir) v pending (nx.get_side dir st') /\
      nx.get_side (negb dir) st' = nx.get_side (negb dir) st /\
      nx.dists (nx.get_side dir st') = nx.dists (nx.get_side dir st) /\
      meet_inv nbrs s t st').
  { intros Hw Hseen.
    destruct (inv_final_seen I _ _ Hv) as (qv & Hqv & _).
    destruct (inv_paths I _ _ Hqv) as (pv & Hpv & _).
    unfold getitem. rewrite Hpv. simpl.
    pose proof (record_side_inv _ _ _ _ _ _ _ _ (nx.counter st)
                  I Hedge Hv Htop Hw Hseen Hpv) as Irec.
    set (st1 := nx.record_seen dir w (dv + cost) (pv ++ [w]) st).
    assert (Hsame : nx.get_side dir st1 = _) by apply record_seen_same.
    assert (Hother : nx.get_side (negb dir) st1 = nx.get_side (negb dir) st)
      by apply record_seen_other.
    assert (Hfin : nx.finaldist st1 = nx.finaldist st /\
                   nx.finalpath st1 = nx.finalpath st) by apply record_seen_final.
    destruct Hfin as [Hfd Hfp].
    rewrite <- Hsame in Irec. rewrite <- Hother in Io.
    assert (Hd : forall d, nx.dists (nx.get_side d st1) = nx.dists (nx.get_side d st)).
    { intros d. destruct (decide (d = dir)) as [->|Hne].
      - rewrite Hsame. reflexivity.
      - assert (d = negb dir) as -> by (destruct d, dir; simpl; congruence).
        rewrite Hother. reflexivity. }
    assert (Hs : forall d w', w' <> w ->
               nx.seen (nx.get_side d st1) !! w' = nx.seen (nx.get_side d st) !! w').
    { intros d w' Hne. destruct (decide (d = dir)) as [->|Hne'].
      - rewrite Hsame. simpl. apply lookup_insert_ne. congruence.
      - assert (d = negb dir) as -> by (destruct d, dir; simpl; congruence).
        rewrite Hother. reflexivity. }
    destruct (meet_keeps w st1
                (if dir then x' else v) (if dir then [] else pending)
                (if dir then v else x') (if dir then pending else []))
      as (st' & Hmeet & Hf & Hb & M').
    - destruct dir; assumption.
    - destruct dir; assumption.
    - intros w' a b Hne Ha Hb.
      rewrite Hfd, Hfp.
      apply (inv_best M w' a b).
      + pose proof (Hs false w' Hne) as E.
        change (nx.seen (nx.fwd st1) !! w' = nx.seen (nx.fwd st) !! w') in E.
        rewrite <- E. exact Ha.
      + pose proof (Hs true w' Hne) as E.
        change (nx.seen (nx.bwd st1) !! w' = nx.seen (nx.bwd st) !! w') in E.
        rewrite <- E. exact Hb.
    - rewrite Hfd, Hfp. apply (inv_finalpath M).
    - intros u. pose proof (Hd false) as Hd0. pose proof (Hd true) as Hd1.
      change (nx.dists (nx.fwd st1) = nx.dists (nx.fwd st)) in Hd0.
      change (nx.dists (nx.bwd st1) = nx.dists (nx.bwd st)) in Hd1.
      rewrite Hd0, Hd1. apply (inv_apart M).
    - intros d u du. rewrite !Hd. apply (inv_lone M).
    - exists st'. split; [exact Hmeet|].
      assert (Hg : forall d, nx.get_side d st' = nx.get_side d st1).
      { intros []; simpl; assumption. }
      rewrite !Hg. rewrite Hother, Hd. auto. }
  unfold nx.relax1, getitem. rewrite Hv. simpl.
  destruct (nx.dists (nx.get_side dir st) !! w) as [dw|] eqn:Ew.
  - pose proof (Htop _ _ Ew) as Hdw.
    destruct (Qltb (dv + cost) dw) eqn:El; [apply Qltb_lt in El; lra|].
    exists st. split; [reflexivity|]. split; [|auto].
    eapply skip_side_inv; eauto. left. exists dw. split; [assumption|lra].
  - destruct (nx.seen (nx.get_side dir st) !! w) as [sw|] eqn:Es.
    + destruct (Qltb (dv + cost) sw) eqn:El.
      * apply Qltb_lt in El.
        apply Hrecord; [reflexivity|right; exists sw; split; [reflexivity|exact El]].
      * apply Qltb_ge in El.
        exists st. split; [reflexivity|]. split; [|auto].
        eapply skip_side_inv; eauto.
    + apply Hrecord; [reflexivity|left; reflexivity].
Qed.

Lemma relax_inv dir v nb st dv x' :
  side_inv nbrs (src_of s t dir) v nb (nx.get_side dir st) ->
  side_inv nbrs (src_of s t (negb dir)) x' [] (nx.get_side (negb dir) st) ->
  meet_inv nbrs s t st ->
  (forall e, e ∈ nb -> e ∈ nbrs v) ->
  nx.dists (nx.get_side dir st) !! v = Some dv ->
  (forall u d, nx.dists (nx.get_side dir st) !! u = Some d -> d <= dv) ->
  exists st', nx.relax dir v nb st = Ok st' /\
    side_inv nbrs (src_of s t dir) v [] (nx.get_side dir st') /\
    nx.get_side (negb dir) st' = nx.get_side (negb dir) st /\
    nx.dists (nx.get_side dir st') = nx.dists (nx.get_side dir st) /\
    meet_inv nbrs s t st'.
Proof.
  revert st. induction nb as [|[w c] nb IH]; intros st I Io M Hsub Hv Htop; simpl.
  - exists st. auto.
  - destruct (relax1_inv dir v w c nb st dv x') as (st1 & H1 & I1 & Ho1 & Hd1 & M1); auto.
    { apply Hsub. apply elem_of_cons. auto. }
    rewrite H1. simpl.
    destruct (IH st1) as (st' & H' & I' & Ho' & Hd' & M'); auto.
    + rewrite Ho1. assumption.
    + intros e He. apply Hsub. apply elem_of_cons. auto.
    + rewrite Hd1. assumption.
    + rewrite Hd1. assumption.
    + exists st'. rewrite Ho', Hd', Ho1, Hd1. auto.
Qed.

Lemma side_inv_any src v v' sd :
  side_inv nbrs src v [] sd -> side_inv nbrs src v' [] sd.
Proof.
  intros I. constructor; try apply I.
  intros u d w c Hu Hw.
  destruct (inv_closed I _ _ _ _ Hu Hw) as [[_ Hnil]|H]; [inversion Hnil|auto].
Qed.

Lemma dijkstra_inv_side dir0 st d :
  dijkstra_inv nbrs s t dir0 st ->
  side_inv nbrs (src_of s t d) (src_of s t d) [] (nx.get_side d st).
Proof. intros (I0 & I1 & _). destruct d; assumption. Qed.

Lemma dijkstra_inv_intro dir0 st d x x' :
  side_inv nbrs (src_of s t d) x [] (nx.get_side d st) ->
  side_inv nbrs (src_of s t (negb d)) x' [] (nx.get_side (negb d) st) ->
  meet_inv nbrs s t st -> phase dir0 st ->
  dijkstra_inv nbrs s t dir0 st.
Proof.
  intros I Io M P. unfold dijkstra_inv.
  destruct d; simpl in *;
    (split; [eapply side_inv_any; eassumption|];
     split; [eapply side_inv_any; eassumption|]; split; assumption).
Qed.

(** The best distance seen from both ends, read from either side. *)
Lemma inv_best_sides st d w a b :
  meet_inv nbrs s t st ->
  nx.seen (nx.get_side d st) !! w = Some a ->
  nx.seen (nx.get_side (negb d) st) !! w = Some b ->
  exists fd, nx.finaldist st = Some fd /\ fd <= a + b /\ nx.finalpath st <> [].
Proof.
  intros M Ha Hb. destruct d; simpl in *.
  - destruct (inv_best M _ _ _ Hb Ha) as (fd & H1 & H2 & H3).
    exists fd. repeat split; auto. lra.
  - apply (inv_best M _ _ _ Ha Hb).
Qed.

(** The loop stops with [NetworkXNoPath] only when there is no walk. *)
Lemma empty_fringe_apart dir0 st d :
  s <> t -> dijkstra_inv nbrs s t dir0 st ->
  nx.fringe (nx.get_side d st) = [] -> ~ connected nbrs s t.
Proof.
  intros Hst Inv Hempty Hconn.
  pose proof (dijkstra_inv_side dir0 st d Inv) as IA.
  pose proof (dijkstra_inv_side dir0 st (negb d) Inv) as IB.
  destruct Inv as (_ & _ & M & _).
  assert (Hc : connected nbrs (src_of s t d) (src_of s t (negb d))).
  { destruct d; simpl; [apply (connected_sym nbrs sym)|]; assumption. }
  destruct Hc as (steps & Hs & He).
  destruct (nx.dists (nx.get_side d st) !! src_of s t (negb d)) as [da|] eqn:Ea; cycle 1.
  { destruct (frontier_src _ _ _ steps IA Hs) as (e & Hin & _); [congruence|].
    rewrite Hempty in Hin. inversion Hin. }
  destruct (nx.dists (nx.get_side (negb d) st) !! src_of s t (negb d)) as [db|] eqn:Eb.
  - destruct (inv_apart M (src_of s t (negb d))) as [H|H]; destruct d; simpl in *; congruence.
  - assert (Hnone : nx.dists (nx.get_side (negb d) st) = ∅).
    { apply map_empty. intros i.
      destruct (nx.dists (nx.get_side (negb d) st) !! i) as [di|] eqn:Ei; [|reflexivity].
      destruct (inv_src_final IB _ _ Ei) as [? ?]. congruence. }
    pose proof (inv_lone M d _ _ Hnone Ea) as Heq.
    destruct d; simpl in Heq; congruence.
Qed.

(** When a node becomes final in one direction and is final in the other,
    the best path recorded is a cheapest walk. *)
Lemma meeting_is_least dir0 st dir k c v rest d' :
  dijkstra_inv nbrs s t dir0 st ->
  nx.heappop (nx.fringe (nx.get_side dir st)) = Some ((k, c, v), rest) ->
  nx.dists (nx.get_side dir st) !! v = None ->
  nx.dists (nx.get_side (negb dir) st) !! v = Some d' ->
  exists fd, nx.finaldist st = Some fd /\
    walk_within nbrs s (nx.finalpath st) t fd /\
    forall steps, steps_from nbrs s steps -> walk_end s steps = t ->
                  fd <= walk_cost steps.
Proof.
  intros Inv Hp Hv Hv'.
  pose proof (dijkstra_inv_side dir0 st dir Inv) as IA.
  pose proof (dijkstra_inv_side dir0 st (negb dir) Inv) as IB.
  destruct Inv as (_ & _ & M & _).
  set (a0 := src_of s t dir) in *. set (b0 := src_of s t (negb dir)) in *.
  pose proof (heappop_perm _ _ _ Hp) as Hperm.
  assert (Hin : (k, c, v) ∈ nx.fringe (nx.get_side dir st)).
  { rewrite Hperm. apply elem_of_cons. auto. }
  assert (Hmin : forall e, e ∈ nx.fringe (nx.get_side dir st) -> k <= e.1.1).
  { intros e He. rewrite Hperm in He. apply elem_of_cons in He as [->|He]; simpl; [lra|].
    apply (heappop_least _ _ _ Hp e He). }
  destruct (inv_fringe_seen IA _ Hin) as (qa & Hqa & Hqak). simpl in Hqa, Hqak.
  destruct (inv_final_seen IB _ _ Hv') as (qb & Hqb & Hqbd).
  destruct (inv_best_sides st dir v qa qb M Hqa Hqb) as (fd & Hfd & Hfdle & Hnil).
  destruct (inv_finalpath M Hnil) as (fd' & Hfd' & Hwalk).
  assert (fd' = fd) as -> by congruence.
  exists fd. split; [assumption|]. split; [assumption|].
  assert (Hopen : forall pre y post q,
    steps_from nbrs y post -> walk_end y post = b0 ->
    nx.dists (nx.get_side dir st) !! y = None ->
    nx.seen (nx.get_side dir st) !! y = Some q -> q <= walk_cost pre ->
    fd <= walk_cost pre + walk_cost post).
  { intros pre y post q Hpost Hend Hy Hq Hqle.
    destruct (inv_seen_fringe IA _ _ Hq Hy) as (e & He & _ & Hek).
    pose proof (Hmin e He) as Hke.
    destruct (rev_steps_spec nbrs sym y post Hpost) as (R1 & R2 & R3 & _).
    rewrite Hend in R1, R2.
    destruct (nx.dists (nx.get_side (negb dir) st) !! y) as [dy|] eqn:Ey.
    - destruct (inv_final_seen IB _ _ Ey) as (qy & Hqy & Hqyle).
      pose proof (inv_least IB _ _ _ Ey R1 R2) as Hdy.
      destruct (inv_best_sides st dir y q qy M Hq Hqy) as (fd2 & Hfd2 & Hle2 & _).
      assert (fd2 = fd) as -> by congruence. lra.
    - destruct (frontier_src _ _ _ _ IB R1) as (e' & He' & Hk'); [rewrite R2; exact Ey|].
      pose proof (inv_final_fringe IB _ _ _ Hv' He') as Hd'. lra. }
  assert (Hbound : forall post pre y,
    steps_from nbrs a0 pre -> walk_end a0 pre = y ->
    steps_from nbrs y post -> walk_end y post = b0 ->
    (is_Some (nx.dists (nx.get_side dir st) !! y) \/
     exists q, nx.seen (nx.get_side dir st) !! y = Some q /\ q <= walk_cost pre) ->
    fd <= walk_cost pre + walk_cost post).
  { intros post. induction post as [|[z cz] post IH]; intros pre y Hpre Hy Hpost Hend Hcase.
    - simpl in Hend.
      destruct (nx.dists (nx.get_side dir st) !! y) as [dy|] eqn:Ey.
      + destruct (inv_final_seen IA _ _ Ey) as (q & Hq & Hqle).
        pose proof (inv_least IA _ _ _ Ey Hpre Hy) as Hdy.
        destruct (inv_src IB) as (q0 & Hq0 & Hq0le). fold b0 in Hq0. rewrite <- Hend in Hq0.
        destruct (inv_best_sides st dir y q q0 M Hq Hq0) as (fd2 & Hfd2 & Hle2 & _).
        assert (fd2 = fd) as -> by congruence.
        unfold walk_cost at 2. simpl. lra.
      + destruct Hcase as [[? ?]|(q & Hq & Hqle)]; [congruence|].
        apply (Hopen pre y [] q); simpl; auto.
    - destruct (nx.dists (nx.get_side dir st) !! y) as [dy|] eqn:Ey.
      + simpl in Hpost, Hend. destruct Hpost as [Hz Hpost].
        destruct (inv_closed IA _ _ _ _ Ey Hz) as [[_ Hn]|(q & Hq & Hqle)]; [inversion Hn|].
        pose proof (inv_least IA _ _ _ Ey Hpre Hy) as Hdy.
        assert (Hcost : walk_cost (pre ++ [(z, cz)]) == walk_cost pre + cz).
        { rewrite walk_cost_app. unfold walk_cost at 2. simpl. ring. }
        assert (fd <= walk_cost (pre ++ [(z, cz)]) + walk_cost post) as Hres.
        { apply (IH (pre ++ [(z, cz)]) z); auto.
          - apply steps_from_app. split; [assumption|]. rewrite Hy. simpl. auto.
          - rewrite walk_end_app. reflexivity.
          - right. exists q. split; [assumption|]. rewrite Hcost. lra. }
        rewrite Hcost in Hres. unfold walk_cost in *. simpl. lra.
      + destruct Hcase as [[? ?]|(q & Hq & Hqle)]; [congruence|].
        apply (Hopen pre y ((z, cz) :: post) q); auto. }
  assert (Hab : forall steps, steps_from nbrs a0 steps -> walk_end a0 steps = b0 ->
                              fd <= walk_cost steps).
  { intros steps Hs He.
    assert (fd <= walk_cost [] + walk_cost steps) as Hres.
    { apply (Hbound steps [] a0); simpl; auto.
      right. destruct (inv_src IA) as (q & Hq & Hqle). exists q. split; [assumption|].
      unfold walk_cost. simpl. assumption. }
    unfold walk_cost in *. simpl in Hres. lra. }
  intros steps Hs He. destruct dir; simpl in a0, b0.
  - destruct (rev_steps_spec nbrs sym s steps Hs) as (R1 & R2 & R3 & _).
    rewrite He in R1, R2. rewrite <- R3. apply Hab; assumption.
  - apply Hab; assumption.
Qed.

Lemma insert_not_empty (d : gmap string Q) v k : <[v := k]> d <> ∅.
Proof. intros H. exact (insert_non_empty d v k H). Qed.

Lemma lookup_not_empty (d : gmap string Q) v k : d !! v = Some k -> d <> ∅.
Proof. intros H ->. rewrite lookup_empty in H. discriminate. Qed.

Lemma phase_after dir st sd' :
  nx.dists sd' <> ∅ -> phase dir st ->
  phase (negb dir) (nx.set_side (negb dir) sd' st).
Proof.
  intros Hne P. destruct dir; simpl in *; [assumption|].
  split; intros H; congruence.
Qed.

Lemma phase_same dir st st' :
  nx.dists (nx.fwd st') = nx.dists (nx.fwd st) ->
  nx.dists (nx.bwd st') = nx.dists (nx.bwd st) ->
  phase dir st -> phase dir st'.
Proof. intros H0 H1. unfold phase. rewrite H0, H1. auto. Qed.

Lemma meet_inv_same st st' :
  (forall d, nx.seen (nx.get_side d st') = nx.seen (nx.get_side d st)) ->
  (forall d, nx.dists (nx.get_side d st') = nx.dists (nx.get_side d st)) ->
  nx.finaldist st' = nx.finaldist st -> nx.finalpath st' = nx.finalpath st ->
  meet_inv nbrs s t st -> meet_inv nbrs s t st'.
Proof.
  intros Hs Hd Hfd Hfp M.
  pose proof (Hs false) as Hs0. pose proof (Hs true) as Hs1.
  pose proof (Hd false) as Hd0. pose proof (Hd true) as Hd1. simpl in *.
  constructor.
  - rewrite Hs0, Hs1, Hfd, Hfp. apply (inv_best M).
  - rewrite Hfd, Hfp. apply (inv_finalpath M).
  - intros u. rewrite Hd0, Hd1. apply (inv_apart M).
  - intros d u du. rewrite !Hd. apply (inv_lone M).
Qed.

(** The bookkeeping between the two directions when [v] becomes final. *)
Lemma finalize_meet_inv dir st k c v rest :
  dijkstra_inv nbrs s t dir st ->
  (k, c, v) ∈ nx.fringe (nx.get_side (negb dir) st) ->
  nx.dists (nx.get_side (negb dir) st) !! v = None ->
  nx.dists (nx.get_side (negb (negb dir)) st) !! v = None ->
  meet_inv nbrs s t
    (nx.set_side (negb dir)
       (nx.with_final v k (nx.with_fringe rest (nx.get_side (negb dir) st))) st).
Proof.
  intros Inv Hin Hv Hv'.
  pose proof (dijkstra_inv_side dir st (negb dir) Inv) as IA.
  destruct Inv as (_ & _ & M & P).
  set (st2 := nx.set_side _ _ st).
  assert (Hsame : nx.get_side (negb dir) st2 = _) by apply get_set_side_same.
  assert (Hother : nx.get_side (negb (negb dir)) st2 = nx.get_side (negb (negb dir)) st)
    by apply get_set_side_other.
  assert (Hfd : nx.finaldist st2 = nx.finaldist st) by (unfold st2; destruct dir; reflexivity).
  assert (Hfp : nx.finalpath st2 = nx.finalpath st) by (unfold st2; destruct dir; reflexivity).
  assert (Hseen : forall d, nx.seen (nx.get_side d st2) = nx.seen (nx.get_side d st)).
  { intros d. unfold st2. destruct d, dir; reflexivity. }
  pose proof (Hseen false) as Hs0. pose proof (Hseen true) as Hs1.
  change (nx.seen (nx.fwd st2) = nx.seen (nx.fwd st)) in Hs0.
  change (nx.seen (nx.bwd st2) = nx.seen (nx.bwd st)) in Hs1.
  constructor.
  - rewrite Hs0, Hs1, Hfd, Hfp. apply (inv_best M).
  - rewrite Hfd, Hfp. apply (inv_finalpath M).
  - intros u. destruct (decide (u = v)) as [->|Hne].
    + rewrite negb_involutive in Hv', Hother.
      assert (nx.dists (nx.get_side dir st2) !! v = None) as H by (rewrite Hother; exact Hv').
      destruct dir; simpl in H; auto.
    + assert (Hd : forall d, nx.dists (nx.get_side d st2) !! u =
                             nx.dists (nx.get_side d st) !! u).
      { intros d. unfold st2. destruct d, dir; simpl; try reflexivity;
          apply lookup_insert_ne; congruence. }
      pose proof (Hd false) as Hd0. pose proof (Hd true) as Hd1.
      change (nx.dists (nx.fwd st2) !! u = nx.dists (nx.fwd st) !! u) in Hd0.
      change (nx.dists (nx.bwd st2) !! u = nx.dists (nx.bwd st) !! u) in Hd1.
      rewrite Hd0, Hd1. apply (inv_apart M).
  - intros d u du Hempty Hu.
    destruct (decide (d = negb dir)) as [->|Hd].
    + rewrite Hother in Hempty. rewrite Hsame in Hu. simpl in Hu.
      destruct (decide (u = v)) as [->|Hne].
      * assert (He : nx.dists (nx.get_side (negb dir) st) = ∅).
        { destruct dir; simpl in *; [apply P; assumption|contradiction]. }
        apply (inv_first IA He _ Hin).
      * rewrite lookup_insert_ne in Hu by congruence.
        apply (inv_lone M _ _ _ Hempty Hu).
    + assert (d = dir) as -> by (destruct d, dir; simpl in *; congruence).
      rewrite Hsame in Hempty. simpl in Hempty.
      exfalso. eapply insert_not_empty; eauto.
Qed.

Lemma init_inv : s <> t -> dijkstra_inv nbrs s t true (nx.dijkstra_init s t).
Proof.
  intros Hst.
  assert (Hside : forall src c,
    side_inv nbrs src src []
      {| nx.dists := ∅; nx.paths := {[src := [src]]};
         nx.fringe := [(0, c, src)]; nx.seen := {[src := 0]} |}).
  { intros src c. constructor; simpl.
    - exists 0. split; [apply lookup_singleton_eq|lra].
    - intros _ e He. apply list_elem_of_singleton in He. subst e. reflexivity.
    - intros u d Hu. rewrite lookup_empty in Hu. discriminate.
    - intros u d Hu. rewrite lookup_empty in Hu. discriminate.
    - intros w q Hq. apply lookup_singleton_Some in Hq as [<- <-].
      exists [src]. split; [apply lookup_singleton_eq|apply walk_within_start].
    - intros w q Hq _. apply lookup_singleton_Some in Hq as [<- <-].
      exists (0, c, src). split; [apply list_elem_of_singleton; reflexivity|].
      simpl. split; [reflexivity|lra].
    - intros e He. apply list_elem_of_singleton in He. subst e. simpl.
      exists 0. split; [apply lookup_singleton_eq|lra].
    - intros u d e Hu. rewrite lookup_empty in Hu. discriminate.
    - intros u d w c' Hu. rewrite lookup_empty in Hu. discriminate.
    - intros u d steps Hu. rewrite lookup_empty in Hu. discriminate. }
  split; [apply Hside|]. split; [apply Hside|]. split.
  - constructor; simpl.
    + intros w a b Ha Hb.
      apply lookup_singleton_Some in Ha as [<- _].
      apply lookup_singleton_Some in Hb as [Heq _]. congruence.
    + congruence.
    + intros u. left. apply lookup_empty.
    + intros d u du _ Hu. destruct d; simpl in Hu; rewrite lookup_empty in Hu; discriminate.
  - simpl. tauto.
Qed.

(** [dijkstra_loop] returns a cheapest walk, or reports that there is none;
    it raises nothing else. *)
Lemma dijkstra_loop_correct fuel dir st :
  s <> t -> dijkstra_inv nbrs s t dir st ->
  match nx.dijkstra_loop nbrs fuel dir st with
  | Ok (fd, p) =>
      walk_within nbrs s p t fd /\
      forall steps, steps_from nbrs s steps -> walk_end s steps = t ->
                    fd <= walk_cost steps
  | Raise e => e = NetworkXNoPath /\ ~ connected nbrs s t
  | Diverge => True
  end.
Proof.
  intros Hst. revert dir st. induction fuel as [|fuel IH]; intros dir st Inv; simpl; [exact I|].
  destruct (nx.fringe (nx.fwd st)) as [|e0 f0] eqn:Ef.
  { split; [reflexivity|]. apply (empty_fringe_apart dir st false Hst Inv Ef). }
  destruct (nx.fringe (nx.bwd st)) as [|e1 f1] eqn:Eb.
  { split; [reflexivity|]. apply (empty_fringe_apart dir st true Hst Inv Eb). }
  destruct (nx.heappop (nx.fringe (nx.get_side (negb dir) st)))
    as [[[[k c] v] rest]|] eqn:Ep; cycle 1.
  { apply heappop_None in Ep. destruct dir; simpl in Ep; congruence. }
  pose proof (dijkstra_inv_side dir st (negb dir) Inv) as IA.
  pose proof (dijkstra_inv_side dir st (negb (negb dir)) Inv) as IB.
  assert (Hin : (k, c, v) ∈ nx.fringe (nx.get_side (negb dir) st)).
  { rewrite (heappop_perm _ _ _ Ep). apply elem_of_cons. auto. }
  destruct (nx.dists (nx.get_side (negb dir) st) !! v) as [dv|] eqn:Ev.
  - apply IH.
    apply (dijkstra_inv_intro _ _ (negb dir) (src_of s t (negb dir))
             (src_of s t (negb (negb dir)))).
    + rewrite get_set_side_same. eapply pop_stale_inv; eauto.
    + rewrite get_set_side_other. assumption.
    + destruct Inv as (_ & _ & M & _).
      revert M. apply meet_inv_same; try (destruct dir; reflexivity);
        intros d; destruct d, dir; reflexivity.
    + apply phase_after; [|apply Inv]. simpl. eapply lookup_not_empty; eauto.
  - destruct (pop_final_inv _ _ _ _ _ _ _ IA Ep Ev) as [IA2 Htop].
    rewrite get_set_side_other.
    destruct (nx.dists (nx.get_side (negb (negb dir)) st) !! v) as [d'|] eqn:Ev'.
    + destruct (meeting_is_least dir st (negb dir) k c v rest d' Inv Ep Ev Ev')
        as (fd & Hfd & Hwalk & Hleast).
      assert (Hfd2 : nx.finaldist (nx.set_side (negb dir)
                 (nx.with_final v k (nx.with_fringe rest (nx.get_side (negb dir) st))) st)
               = nx.finaldist st) by (destruct dir; reflexivity).
      assert (Hfp2 : nx.finalpath (nx.set_side (negb dir)
                 (nx.with_final v k (nx.with_fringe rest (nx.get_side (negb dir) st))) st)
               = nx.finalpath st) by (destruct dir; reflexivity).
      rewrite Hfd2, Hfd, Hfp2. auto.
    + pose proof (finalize_meet_inv dir st k c v rest Inv Hin Ev Ev') as M2.
      set (st2 := nx.set_side (negb dir) _ st) in *.
      destruct (relax_inv (negb dir) v (nbrs v) st2 k (src_of s t (negb (negb dir))))
        as (st3 & Hr & IA3 & Ho3 & Hd3 & M3); auto.
      * unfold st2. rewrite get_set_side_same. exact IA2.
      * unfold st2. rewrite get_set_side_other. exact IB.
      * unfold st2. rewrite get_set_side_same. simpl. apply lookup_insert_eq.
      * unfold st2. rewrite get_set_side_same. simpl. exact Htop.
      * rewrite Hr. simpl. apply IH.
        apply (dijkstra_inv_intro _ _ (negb dir) v (src_of s t (negb (negb dir)))).
        -- exact IA3.
        -- rewrite Ho3. unfold st2. rewrite get_set_side_other. exact IB.
        -- exact M3.
        -- apply (phase_same _ st2).
           ++ destruct dir; simpl in *; [rewrite Hd3|rewrite Ho3]; reflexivity.
           ++ destruct dir; simpl in *; [rewrite Ho3|rewrite Hd3]; reflexivity.
           ++ unfold st2. apply phase_after; [|apply Inv]. simpl. apply insert_not_empty.
Qed.

End DijkstraInvariants.

(** ** [_bidirectional_pred_succ] decides reachability *)

Section BfsFacts.

Variable nbrs : string -> list (string * Q).

Lemma connected_refl u : connected nbrs u u.
Proof. exists []. simpl. auto. Qed.

Lemma connected_trans u v w :
  connected nbrs u v -> connected nbrs v w -> connected nbrs u w.
Proof.
  intros (a & Ha & <-) (b & Hb & <-). exists (a ++ b).
  rewrite steps_from_app, walk_end_app. auto.
Qed.

Lemma connected_step v w c : (w, c) ∈ nbrs v -> connected nbrs v w.
Proof. intros H. exists [(w, c)]. simpl. auto. Qed.

Lemma elem_of_names v w : w ∈ map fst (nbrs v) <-> exists c, (w, c) ∈ nbrs v.
Proof.
  rewrite list_elem_of_fmap. split.
  - intros ([w' c] & -> & H). exists c. exact H.
  - intros (c & H). exists (w, c). auto.
Qed.

(** A set that holds [u] and is closed under the neighbour relation holds
    all that [u] reaches. *)
Lemma closed_reach (C : gset string) :
  (forall v w c, v ∈ C -> (w, c) ∈ nbrs v -> w ∈ C) ->
  forall steps u, u ∈ C -> steps_from nbrs u steps -> walk_end u steps ∈ C.
Proof.
  intros Hcl steps. induction steps as [|[v c] steps IH]; intros u Hu Hs; simpl in *.
  - assumption.
  - destruct Hs as [Hv Hs]. apply (IH v); eauto.
Qed.

Lemma expand_Some ws other mine fr mine' fr' :
  nx.expand ws other mine fr = Some (mine', fr') ->
  exists new, fr' = fr ++ new /\
    (forall x, x ∈ mine' <-> x ∈ mine \/ x ∈ new) /\
    (forall x, x ∈ new -> x ∈ ws /\ (x ∉ mine) /\ (x ∉ other)) /\
    (forall w, w ∈ ws -> w ∈ mine').
Proof.
  revert mine fr. induction ws as [|w ws IH]; intros mine fr; simpl.
  - intros [= <- <-]. exists []. rewrite app_nil_r. split; [reflexivity|]. split; [|split].
    + intros x. split; [auto|]. intros [H|H]; [assumption|inversion H].
    + intros x H. inversion H.
    + intros x H. inversion H.
  - destruct (decide (w ∈ other)) as [Ho|Ho]; [discriminate|].
    destruct (decide (w ∈ mine)) as [Hm|Hm]; intros H; apply IH in H
      as (new & -> & Hiff & Hnew & Hall).
    + exists new. split; [reflexivity|]. split; [assumption|]. split.
      * intros x Hx. destruct (Hnew x Hx) as (H1 & H2 & H3).
        split; [apply elem_of_cons; auto|auto].
      * intros x Hx. apply elem_of_cons in Hx as [->|Hx]; [|auto].
        apply Hiff. auto.
    + exists (w :: new). split; [rewrite <- app_assoc; reflexivity|]. split; [|split].
      * intros x. rewrite Hiff, elem_of_union, elem_of_singleton, elem_of_cons. tauto.
      * intros x Hx. apply elem_of_cons in Hx as [->|Hx].
        -- split; [apply elem_of_cons; auto|auto].
        -- destruct (Hnew x Hx) as (H1 & H2 & H3).
           split; [apply elem_of_cons; auto|]. split; [|assumption].
           intros Hin. apply H2. apply elem_of_union. auto.
      * intros x Hx. apply elem_of_cons in Hx as [->|Hx]; [|auto].
        apply Hiff. left. apply elem_of_union. left. apply elem_of_singleton. reflexivity.
Qed.

Lemma expand_None ws other mine fr :
  nx.expand ws other mine fr = None -> exists w, w ∈ ws /\ w ∈ other.
Proof.
  revert mine fr. induction ws as [|w ws IH]; intros mine fr; simpl; [discriminate|].
  destruct (decide (w ∈ other)) as [Ho|Ho].
  - intros _. exists w. split; [apply elem_of_cons; auto|assumption].
  - intros H. apply IH in H as (x & Hx & Hxo). exists x.
    split; [apply elem_of_cons; auto|assumption].
Qed.

Lemma expand_level_Some vs other mine fr mine' fr' :
  nx.expand_level nbrs vs other mine fr = Some (mine', fr') ->
  exists new, fr' = fr ++ new /\
    (forall x, x ∈ mine' <-> x ∈ mine \/ x ∈ new) /\
    (forall x, x ∈ new ->
       (x ∉ mine) /\ (x ∉ other) /\ exists v c, v ∈ vs /\ (x, c) ∈ nbrs v) /\
    (forall v w c, v ∈ vs -> (w, c) ∈ nbrs v -> w ∈ mine').
Proof.
  revert mine fr. induction vs as [|v vs IH]; intros mine fr; simpl.
  - intros [= <- <-]. exists []. rewrite app_nil_r. split; [reflexivity|]. split; [|split].
    + intros x. split; [auto|]. intros [H|H]; [assumption|inversion H].
    + intros x H. inversion H.
    + intros v w c H. inversion H.
  - destruct (nx.expand (map fst (nbrs v)) other mine fr) as [[m1 f1]|] eqn:E; [|discriminate].
    apply expand_Some in E as (new1 & -> & Hiff1 & Hnew1 & Hall1).
    intros H. apply IH in H as (new2 & -> & Hiff2 & Hnew2 & Hall2).
    exists (new1 ++ new2). split; [rewrite app_assoc; reflexivity|]. split; [|split].
    + intros x. rewrite Hiff2, Hiff1, elem_of_app. tauto.
    + intros x Hx. apply elem_of_app in Hx as [Hx|Hx].
      * destruct (Hnew1 x Hx) as (H1 & H2 & H3). split; [assumption|]. split; [assumption|].
        apply elem_of_names in H1 as (c & H1). exists v, c.
        split; [apply elem_of_cons; auto|assumption].
      * destruct (Hnew2 x Hx) as (H1 & H2 & v' & c & Hv' & Hc).
        split; [|split; [assumption|]].
        -- intros Hin. apply H1. apply Hiff1. auto.
        -- exists v', c. split; [apply elem_of_cons; auto|assumption].
    + intros v' w c Hv' Hw. apply elem_of_cons in Hv' as [->|Hv'].
      * apply Hiff2. left. apply Hall1. apply elem_of_names. eauto.
      * eapply Hall2; eauto.
Qed.

Lemma expand_level_None vs other mine fr :
  nx.expand_level nbrs vs other mine fr = None ->
  exists v w c, v ∈ vs /\ (w, c) ∈ nbrs v /\ w ∈ other.
Proof.
  revert mine fr. induction vs as [|v vs IH]; intros mine fr; simpl; [discriminate|].
  destruct (nx.expand (map fst (nbrs v)) other mine fr) as [[m1 f1]|] eqn:E.
  - intros H. apply IH in H as (v' & w & c & Hv' & Hw & Ho).
    exists v', w, c. split; [apply elem_of_cons; auto|auto].
  - intros _. apply expand_None in E as (w & Hw & Ho).
    apply elem_of_names in Hw as (c & Hw).
    exists v, w, c. split; [apply elem_of_cons; auto|auto].
Qed.

Variables s t : string.
Hypothesis sym : forall v w c, (w, c) ∈ nbrs v -> (v, c) ∈ nbrs w.

(** A round from the source side. *)
Lemma bfs_forward pred succ ff rf :
  bfs_inv nbrs s t pred succ ff rf ->
  match nx.expand_level nbrs ff succ pred [] with
  | None => connected nbrs s t
  | Some (pred', fr) =>
      bfs_inv nbrs s t pred' succ fr rf /\
      (forall x, x ∈ fr -> x ∈ pred' /\ (x ∉ pred) /\
                 exists v c, (x, c) ∈ nbrs v) /\
      (forall x, x ∈ pred -> x ∈ pred')
  end.
Proof.
  intros B.
  destruct (nx.expand_level nbrs ff succ pred []) as [[pred' fr]|] eqn:E.
  - apply expand_level_Some in E as (new & Hfr & Hiff & Hnew & Hall).
    simpl in Hfr. subst fr. split; [|split].
    + constructor.
      * apply Hiff. left. apply (bfs_src B).
      * apply (bfs_dst B).
      * intros v Hv. apply Hiff in Hv as [Hv|Hv]; [apply (bfs_pred_reach B _ Hv)|].
        destruct (Hnew v Hv) as (_ & _ & u & c & Hu & Hc).
        eapply connected_trans; [apply (bfs_pred_reach B u), (bfs_ff B _ Hu)|].
        eapply connected_step; eauto.
      * apply (bfs_succ_reach B).
      * intros v Hv Hv'. apply Hiff in Hv as [Hv|Hv]; [apply (bfs_apart B v Hv Hv')|].
        destruct (Hnew v Hv) as (_ & Ho & _). contradiction.
      * intros v Hv. apply Hiff. auto.
      * apply (bfs_rf B).
      * intros v w c Hv Hnf Hw. apply Hiff in Hv as [Hv|Hv]; [|contradiction].
        destruct (decide (v ∈ ff)) as [Hf|Hf]; [eapply Hall; eauto|].
        apply Hiff. left. apply (bfs_pred_closed B v w c Hv Hf Hw).
      * apply (bfs_succ_closed B).
    + intros x Hx. destruct (Hnew x Hx) as (H1 & _ & v & c & _ & Hc).
      split; [apply Hiff; auto|]. split; [assumption|eauto].
    + intros x Hx. apply Hiff. auto.
  - apply expand_level_None in E as (v & w & c & Hv & Hw & Ho).
    eapply connected_trans; [apply (bfs_pred_reach B v), (bfs_ff B _ Hv)|].
    eapply connected_trans; [eapply connected_step; eauto|].
    apply (connected_sym nbrs sym). apply (bfs_succ_reach B _ Ho).
Qed.

(** A round from the target side. *)
Lemma bfs_backward pred succ ff rf :
  bfs_inv nbrs s t pred succ ff rf ->
  match nx.expand_level nbrs rf pred succ [] with
  | None => connected nbrs s t
  | Some (succ', fr) =>
      bfs_inv nbrs s t pred succ' ff fr /\
      (forall x, x ∈ fr -> x ∈ succ' /\ (x ∉ succ) /\
                 exists v c, (x, c) ∈ nbrs v) /\
      (forall x, x ∈ succ -> x ∈ succ')
  end.
Proof.
  intros B.
  destruct (nx.expand_level nbrs rf pred succ []) as [[succ' fr]|] eqn:E.
  - apply expand_level_Some in E as (new & Hfr & Hiff & Hnew & Hall).
    simpl in Hfr. subst fr. split; [|split].
    + constructor.
      * apply (bfs_src B).
      * apply Hiff. left. apply (bfs_dst B).
      * apply (bfs_pred_reach B).
      * intros v Hv. apply Hiff in Hv as [Hv|Hv]; [apply (bfs_succ_reach B _ Hv)|].
        destruct (Hnew v Hv) as (_ & _ & u & c & Hu & Hc).
        eapply connected_trans; [apply (bfs_succ_reach B u), (bfs_rf B _ Hu)|].
        eapply connected_step; eauto.
      * intros v Hv Hv'. apply Hiff in Hv' as [Hv'|Hv']; [apply (bfs_apart B v Hv Hv')|].
        destruct (Hnew v Hv') as (_ & Ho & _). contradiction.
      * apply (bfs_ff B).
      * intros v Hv. apply Hiff. auto.
      * apply (bfs_pred_closed B).
      * intros v w c Hv Hnf Hw. apply Hiff in Hv as [Hv|Hv]; [|contradiction].
        destruct (decide (v ∈ rf)) as [Hf|Hf]; [eapply Hall; eauto|].
        apply Hiff. left. apply (bfs_succ_closed B v w c Hv Hf Hw).
    + intros x Hx. destruct (Hnew x Hx) as (H1 & _ & v & c & _ & Hc).
      split; [apply Hiff; auto|]. split; [assumption|eauto].
    + intros x Hx. apply Hiff. auto.
  - apply expand_level_None in E as (v & w & c & Hv & Hw & Ho).
    eapply connected_trans; [apply (bfs_pred_reach B _ Ho)|].
    apply (connected_sym nbrs sym).
    eapply connected_trans; [apply (bfs_succ_reach B v), (bfs_rf B _ Hv)|].
    eapply connected_step; eauto.
Qed.

(** [pred_succ_loop] finds a meeting point exactly when there is a walk. *)
Lemma pred_succ_loop_correct fuel pred succ ff rf :
  bfs_inv nbrs s t pred succ ff rf ->
  match nx.pred_succ_loop nbrs fuel pred succ ff rf with
  | Ok _ => connected nbrs s t
  | Raise e => e = NetworkXNoPath /\ ~ connected nbrs s t
  | Diverge => True
  end.
Proof.
  revert pred succ ff rf. induction fuel as [|fuel IH]; intros pred succ ff rf B;
    simpl; [exact I|].
  assert (Hnone_f : ff = [] -> ~ connected nbrs s t).
  { intros -> (steps & Hs & He).
    apply (bfs_apart B t); [|apply (bfs_dst B)].
    rewrite <- He. apply (closed_reach pred); [|apply (bfs_src B)|assumption].
    intros v w c Hv Hw. apply (bfs_pred_closed B v w c Hv); [|assumption].
    intros H; inversion H. }
  assert (Hnone_r : rf = [] -> ~ connected nbrs s t).
  { intros -> Hc. apply (connected_sym nbrs sym) in Hc as (steps & Hs & He).
    apply (bfs_apart B s); [apply (bfs_src B)|].
    rewrite <- He. apply (closed_reach succ); [|apply (bfs_dst B)|assumption].
    intros v w c Hv Hw. apply (bfs_succ_closed B v w c Hv); [|assumption].
    intros H; inversion H. }
  destruct ff as [|f0 ff]; [split; auto|].
  destruct rf as [|r0 rf]; [split; auto|].
  destruct (decide (length (f0 :: ff) <= length (r0 :: rf))%nat).
  - pose proof (bfs_forward _ _ _ _ B) as H.
    destruct (nx.expand_level nbrs (f0 :: ff) succ pred []) as [[pred' fr]|]; [|exact H].
    apply IH. apply H.
  - pose proof (bfs_backward _ _ _ _ B) as H.
    destruct (nx.expand_level nbrs (r0 :: rf) pred succ []) as [[succ' fr]|]; [|exact H].
    apply IH. apply H.
Qed.

Lemma bfs_init_inv : s <> t -> bfs_inv nbrs s t {[s]} {[t]} [s] [t].
Proof.
  intros Hst. constructor.
  - apply elem_of_singleton. reflexivity.
  - apply elem_of_singleton. reflexivity.
  - intros v Hv. apply elem_of_singleton in Hv as ->. apply connected_refl.
  - intros v Hv. apply elem_of_singleton in Hv as ->. apply connected_refl.
  - intros v Hv Hv'. apply elem_of_singleton in Hv, Hv'. congruence.
  - intros v Hv. apply list_elem_of_singleton in Hv as ->. apply elem_of_singleton. reflexivity.
  - intros v Hv. apply list_elem_of_singleton in Hv as ->. apply elem_of_singleton. reflexivity.
  - intros v w c Hv Hnf. apply elem_of_singleton in Hv as ->.
    exfalso. apply Hnf. apply list_elem_of_singleton. reflexivity.
  - intros v w c Hv Hnf. apply elem_of_singleton in Hv as ->.
    exfalso. apply Hnf. apply list_elem_of_singleton. reflexivity.
Qed.

(** The rounds are bounded by the names still to visit. *)
Variable U : gset string.
Hypothesis nbrs_in_U : forall v w c, (w, c) ∈ nbrs v -> w ∈ U.

Lemma measure_drop (A A' : gset string) x :
  x ∈ U -> x ∉ A -> x ∈ A' -> (forall y, y ∈ A -> y ∈ A') ->
  (size (U ∖ A') < size (U ∖ A))%nat.
Proof.
  intros HU HA HA' Hsub. apply subset_size. split.
  - intros y Hy. apply elem_of_difference in Hy as [H1 H2].
    apply elem_of_difference. split; [assumption|]. intros H. apply H2. auto.
  - intros Hsup. assert (Hx : x ∈ U ∖ A') by (apply Hsup, elem_of_difference; auto).
    apply elem_of_difference in Hx as [_ Hx]. contradiction.
Qed.

Lemma pred_succ_loop_ends fuel pred succ ff rf :
  bfs_inv nbrs s t pred succ ff rf ->
  (1 + (match ff, rf with
        | [], _ | _, [] => 0
        | _, _ => 1 + bfs_measure U pred succ
        end) <= fuel)%nat ->
  nx.pred_succ_loop nbrs fuel pred succ ff rf <> Diverge.
Proof.
  revert pred succ ff rf. induction fuel as [|fuel IH]; intros pred succ ff rf B Hf;
    [lia|]. simpl.
  destruct ff as [|f0 ff]; [discriminate|].
  destruct rf as [|r0 rf]; [discriminate|].
  unfold bfs_measure in Hf.
  destruct (decide (length (f0 :: ff) <= length (r0 :: rf))%nat).
  - pose proof (bfs_forward _ _ _ _ B) as H.
    destruct (nx.expand_level nbrs (f0 :: ff) succ pred []) as [[pred' fr]|]; [|discriminate].
    destruct H as (B' & Hnew & Hsub).
    apply IH; [exact B'|].
    destruct fr as [|x fr]; [lia|].
    destruct (Hnew x) as (H1 & H2 & v & c & Hc); [apply elem_of_cons; auto|].
    pose proof (measure_drop pred pred' x (nbrs_in_U _ _ _ Hc) H2 H1 Hsub).
    unfold bfs_measure. lia.
  - pose proof (bfs_backward _ _ _ _ B) as H.
    destruct (nx.expand_level nbrs (r0 :: rf) pred succ []) as [[succ' fr]|]; [|discriminate].
    destruct H as (B' & Hnew & Hsub).
    apply IH; [exact B'|].
    destruct fr as [|x fr]; [lia|].
    destruct (Hnew x) as (H1 & H2 & v & c & Hc); [apply elem_of_cons; auto|].
    pose proof (measure_drop succ succ' x (nbrs_in_U _ _ _ Hc) H2 H1 Hsub).
    unfold bfs_measure. lia.
Qed.

End BfsFacts.

(** ** Insertion-ordered dictionaries *)

Section Dict.

Context {V : Type}.
Implicit Types (d : list (string * V)) (k : string) (v : V).

Lemma dict_get_In k v d : dict_get k d = Some v -> (k, v) ∈ d.
Proof.
  induction d as [|[k' v'] d IH]; simpl; [discriminate|].
  destruct (String.eqb_spec k k') as [->|Hne].
  - intros [= ->]. apply elem_of_cons. auto.
  - intros H. apply elem_of_cons. auto.
Qed.

Lemma dict_get_None k d : dict_get k d = None <-> k ∉ dict_keys d.
Proof.
  induction d as [|[k' v'] d IH]; simpl.
  - split; [intros _ H; inversion H|reflexivity].
  - unfold dict_keys in *. simpl. rewrite not_elem_of_cons.
    destruct (String.eqb_spec k k') as [->|Hne].
    + split; [discriminate|tauto].
    + rewrite IH. tauto.
Qed.

Lemma dict_get_is_Some k d : is_Some (dict_get k d) <-> k ∈ dict_keys d.
Proof.
  destruct (dict_get k d) eqn:E.
  - split; [|eauto]. intros _. apply dec_stable. intros H.
    apply dict_get_None in H. congruence.
  - split; [intros [? ?]; discriminate|].
    intros H. apply dict_get_None in E. contradiction.
Qed.

Lemma dict_get_NoDup_In k v d :
  NoDup (dict_keys d) -> (k, v) ∈ d -> dict_get k d = Some v.
Proof.
  unfold dict_keys. induction d as [|[k' v'] d IH]; simpl; intros Hnd Hin.
  - inversion Hin.
  - apply NoDup_cons in Hnd as [Hk' Hnd].
    apply elem_of_cons in Hin as [[= -> ->]|Hin].
    + rewrite String.eqb_refl. reflexivity.
    + destruct (String.eqb_spec k k') as [->|Hne]; [|auto].
      exfalso. apply Hk'. apply list_elem_of_fmap. exists (k', v). auto.
Qed.

Lemma dict_get_set_eq k v d : dict_get k (dict_set k v d) = Some v.
Proof.
  induction d as [|[k' v'] d IH]; simpl.
  - rewrite String.eqb_refl. reflexivity.
  - destruct (String.eqb_spec k k') as [->|Hne]; simpl.
    + rewrite String.eqb_refl. reflexivity.
    + destruct (String.eqb_spec k k'); [contradiction|assumption].
Qed.

Lemma dict_get_set_ne k k' v d :
  k' <> k -> dict_get k' (dict_set k v d) = dict_get k' d.
Proof.
  intros Hne. induction d as [|[k0 v0] d IH]; simpl.
  - destruct (String.eqb_spec k' k); [contradiction|reflexivity].
  - destruct (String.eqb_spec k k0) as [->|Hne0]; simpl.
    + destruct (String.eqb_spec k' k0); [contradiction|reflexivity].
    + destruct (String.eqb_spec k' k0); [reflexivity|assumption].
Qed.

Lemma dict_keys_set k v d :
  dict_keys (dict_set k v d) =
  match dict_get k d with
  | Some _ => dict_keys d
  | None => dict_keys d ++ [k]
  end.
Proof.
  unfold dict_keys. induction d as [|[k0 v0] d IH]; simpl; [reflexivity|].
  destruct (String.eqb_spec k k0) as [->|Hne]; simpl; [reflexivity|].
  rewrite IH. destruct (dict_get k d); reflexivity.
Qed.

Lemma dict_set_NoDup k v d : NoDup (dict_keys d) -> NoDup (dict_keys (dict_set k v d)).
Proof.
  intros Hnd. rewrite dict_keys_set. destruct (dict_get k d) eqn:E; [assumption|].
  apply NoDup_app. split; [assumption|]. split.
  - intros x Hx Hx'. apply list_elem_of_singleton in Hx' as ->.
    apply dict_get_None in E. contradiction.
  - apply NoDup_singleton.
Qed.

Lemma dict_get_snoc k k' v d :
  dict_get k (d ++ [(k', v)]) =
  match dict_get k d with
  | Some x => Some x
  | None => if String.eqb k k' then Some v else None
  end.
Proof.
  induction d as [|[k0 v0] d IH]; simpl; [reflexivity|].
  destruct (String.eqb k k0); [reflexivity|assumption].
Qed.

Lemma dict_filter_absent k d :
  k ∉ dict_keys d -> filter (fun e : string * V => e.1 = k) d = [].
Proof.
  unfold dict_keys. induction d as [|[k0 v0] d IH]; simpl; [reflexivity|].
  rewrite not_elem_of_cons. intros [Hne Hk].
  rewrite filter_cons_False by (simpl; congruence). auto.
Qed.

(** A key of a dictionary occurs once among its entries. *)
Lemma dict_get_once k v d :
  NoDup (dict_keys d) -> dict_get k d = Some v ->
  length (filter (fun e : string * V => e.1 = k) d) = 1%nat.
Proof.
  unfold dict_keys. induction d as [|[k0 v0] d IH]; simpl; [discriminate|].
  intros Hnd. apply NoDup_cons in Hnd as [Hk0 Hnd].
  destruct (String.eqb_spec k k0) as [->|Hne].
  - intros _. rewrite filter_cons_True by reflexivity.
    rewrite dict_filter_absent by assumption. reflexivity.
  - intros H. rewrite filter_cons_False by (simpl; congruence). auto.
Qed.

End Dict.

(** ** The adjacency under [add_edge] *)

Section Adjacency.

Implicit Types (a : list (string * list (string * nat))) (u v x y : string) (r : nat).

Lemma dict_get_add_node x u a :
  dict_get u (nx.add_node_if_new x a) =
  match dict_get u a with
  | Some nb => Some nb
  | None => if String.eqb u x then Some [] else None
  end.
Proof.
  unfold nx.add_node_if_new. destruct (dict_get x a) as [nbx|] eqn:Ex.
  - destruct (dict_get u a) eqn:Eu; [reflexivity|].
    destruct (String.eqb_spec u x) as [->|]; [congruence|reflexivity].
  - apply dict_get_snoc.
Qed.

Lemma add_node_present x a : is_Some (dict_get x (nx.add_node_if_new x a)).
Proof.
  rewrite dict_get_add_node. destruct (dict_get x a); [eauto|].
  rewrite String.eqb_refl. eauto.
Qed.

Lemma add_node_keeps x u a :
  is_Some (dict_get u a) -> is_Some (dict_get u (nx.add_node_if_new x a)).
Proof. rewrite dict_get_add_node. intros [nb ->]. eauto. Qed.

Lemma adj_ref_add_node x a u v :
  nx.adj_ref (nx.add_node_if_new x a) u v = nx.adj_ref a u v.
Proof.
  unfold nx.adj_ref. rewrite dict_get_add_node.
  destruct (dict_get u a); [reflexivity|].
  destruct (String.eqb u x); reflexivity.
Qed.

Lemma keys_add_node x a :
  dict_keys (nx.add_node_if_new x a) =
  match dict_get x a with
  | Some _ => dict_keys a
  | None => dict_keys a ++ [x]
  end.
Proof.
  unfold nx.add_node_if_new. destruct (dict_get x a); [reflexivity|].
  unfold dict_keys. rewrite map_app. reflexivity.
Qed.

Lemma add_node_NoDup x a : NoDup (dict_keys a) -> NoDup (dict_keys (nx.add_node_if_new x a)).
Proof.
  intros Hnd. rewrite keys_add_node. destruct (dict_get x a) eqn:E; [assumption|].
  apply NoDup_app. split; [assumption|]. split.
  - intros y Hy Hy'. apply list_elem_of_singleton in Hy' as ->.
    apply dict_get_None in E. contradiction.
  - apply NoDup_singleton.
Qed.

Lemma dict_get_link u v r a x nb :
  dict_get u a = Some nb ->
  dict_get x (nx.link u v r a) =
  if decide (x = u) then Some (dict_set v r nb) else dict_get x a.
Proof.
  intros Hu. unfold nx.link. rewrite Hu.
  destruct (decide (x = u)) as [->|Hne].
  - apply dict_get_set_eq.
  - apply dict_get_set_ne. assumption.
Qed.

Lemma keys_link u v r a : dict_keys (nx.link u v r a) = dict_keys a.
Proof.
  unfold nx.link. destruct (dict_get u a) eqn:E; [|reflexivity].
  rewrite dict_keys_set, E. reflexivity.
Qed.

Lemma adj_ref_link u v r a x y :
  is_Some (dict_get u a) ->
  nx.adj_ref (nx.link u v r a) x y =
  if decide (x = u /\ y = v) then Some r else nx.adj_ref a x y.
Proof.
  intros [nb Hu]. unfold nx.adj_ref. rewrite (dict_get_link u v r a x nb Hu).
  destruct (decide (x = u)) as [->|Hne].
  - rewrite Hu. destruct (decide (y = v)) as [->|Hne'].
    + rewrite decide_True by auto. apply dict_get_set_eq.
    + rewrite decide_False by tauto. apply dict_get_set_ne. assumption.
  - rewrite decide_False by tauto. reflexivity.
Qed.

Lemma link_present u v r a x :
  is_Some (dict_get x a) -> is_Some (dict_get x (nx.link u v r a)).
Proof.
  intros Hx. apply dict_get_is_Some. rewrite keys_link. apply dict_get_is_Some. exact Hx.
Qed.

(** The references after both entries of the edge are set. *)
Lemma adj_ref_linked u v r a x y :
  is_Some (dict_get u a) -> is_Some (dict_get v a) ->
  nx.adj_ref (nx.link v u r (nx.link u v r a)) x y =
  if decide ((x = u /\ y = v) \/ (x = v /\ y = u)) then Some r else nx.adj_ref a x y.
Proof.
  intros Hu Hv.
  rewrite adj_ref_link by (apply link_present; assumption).
  rewrite adj_ref_link by assumption.
  destruct (decide (x = v /\ y = u)), (decide (x = u /\ y = v));
    destruct (decide _) as [H|H]; try reflexivity; tauto.
Qed.

Lemma inner_linked u v r a x nb :
  (forall z nbz, dict_get z a = Some nbz -> NoDup (dict_keys nbz)) ->
  dict_get x (nx.link u v r a) = Some nb -> NoDup (dict_keys nb).
Proof.
  intros Hin. destruct (dict_get u a) as [nbu|] eqn:Eu.
  - rewrite (dict_get_link u v r a x nbu Eu).
    destruct (decide (x = u)) as [->|Hne].
    + intros [= <-]. apply dict_set_NoDup. eauto.
    + eauto.
  - unfold nx.link. rewrite Eu. eauto.
Qed.

End Adjacency.

(** ** Well-formed graphs *)

Lemma has_node_is_Some g x :
  nx.has_node g x = true <-> is_Some (dict_get x (nx._adj g)).
Proof.
  unfold nx.has_node. destruct (dict_get x (nx._adj g)); split; eauto.
  - discriminate.
  - intros [? ?]; discriminate.
Qed.

Lemma has_edge_ref g u v :
  nx.has_edge g u v = true <-> is_Some (nx.edge_ref g u v).
Proof.
  unfold nx.has_edge, nx.edge_ref, nx.adj_ref.
  destruct (dict_get u (nx._adj g)) as [nb|].
  - destruct (dict_get v nb); split; eauto; try discriminate. intros [? ?]; discriminate.
  - split; [discriminate|]. intros [? ?]; discriminate.
Qed.

Lemma wf_empty : wf_graph nx.empty.
Proof.
  constructor; simpl; try discriminate.
  - apply NoDup_nil_2.
Qed.

Lemma wf_linked g u v r attrs' :
  wf_graph g ->
  (length (nx.attrs g) <= length attrs')%nat -> (r < length attrs')%nat ->
  wf_graph
    {| nx._adj := nx.link v u r (nx.link u v r
                    (nx.add_node_if_new v (nx.add_node_if_new u (nx._adj g))));
       nx.attrs := attrs' |}.
Proof.
  intros W Hlen Hr.
  set (a := nx.add_node_if_new v (nx.add_node_if_new u (nx._adj g))).
  assert (Hu : is_Some (dict_get u a)) by apply add_node_keeps, add_node_present.
  assert (Hv : is_Some (dict_get v a)) by apply add_node_present.
  assert (Href : forall x y, nx.adj_ref a x y = nx.adj_ref (nx._adj g) x y).
  { intros x y. unfold a. rewrite !adj_ref_add_node. reflexivity. }
  assert (Hkeep : forall x, is_Some (dict_get x (nx._adj g)) ->
                            is_Some (dict_get x (nx.link v u r (nx.link u v r a)))).
  { intros x Hx. apply link_present, link_present. unfold a.
    apply add_node_keeps, add_node_keeps. exact Hx. }
  assert (Hinner : forall z nbz, dict_get z a = Some nbz -> NoDup (dict_keys nbz)).
  { intros z nbz. unfold a. rewrite !dict_get_add_node.
    destruct (dict_get z (nx._adj g)) as [nb|] eqn:Ez.
    - intros [= <-]. apply (wf_inner W _ _ Ez).
    - destruct (String.eqb z u); [intros [= <-]; apply NoDup_nil_2|].
      destruct (String.eqb z v); [intros [= <-]; apply NoDup_nil_2|discriminate]. }
  constructor; unfold nx.nodes, nx.edge_ref, nx.has_node; simpl.
  - rewrite !keys_link. unfold a. apply add_node_NoDup, add_node_NoDup, (wf_nodes W).
  - intros x nb Hx. eapply inner_linked; [|exact Hx].
    intros z nbz Hz. eapply inner_linked; [|exact Hz]. exact Hinner.
  - intros x y r'. rewrite !adj_ref_linked, !Href by assumption.
    destruct (decide ((x = u /\ y = v) \/ (x = v /\ y = u))) as [H|H].
    + intros [= <-]. rewrite decide_True by tauto. reflexivity.
    + intros Hxy. rewrite decide_False by tauto. apply (wf_sym W _ _ _ Hxy).
  - intros x y r'. rewrite adj_ref_linked, Href by assumption.
    destruct (decide _) as [H|H]; [intros [= <-]; assumption|].
    intros Hxy. pose proof (wf_live W _ _ _ Hxy). lia.
  - intros x y r'. rewrite adj_ref_linked, Href by assumption.
    destruct (decide _) as [H|H].
    + intros _. assert (Hy : is_Some (dict_get y (nx.link v u r (nx.link u v r a)))).
      { apply link_present, link_present. destruct H as [[_ ->]|[_ ->]]; assumption. }
      destruct Hy as [nb ->]. reflexivity.
    + intros Hxy. pose proof (wf_node W _ _ _ Hxy) as Hy.
      apply has_node_is_Some, Hkeep in Hy. destruct Hy as [nb ->]. reflexivity.
Qed.

Lemma wf_add_edge g u v d : wf_graph g -> wf_graph (nx.add_edge g u v d).
Proof.
  intros W. unfold nx.add_edge.
  destruct (nx.edge_ref _ u v) as [r|] eqn:E.
  - apply wf_linked; [assumption|rewrite length_insert; lia|].
    rewrite length_insert. unfold nx.edge_ref in E. simpl in E.
    rewrite !adj_ref_add_node in E. apply (wf_live W _ _ _ E).
  - apply wf_linked; [assumption|rewrite length_app; lia|].
    rewrite length_app. simpl. lia.
Qed.

Lemma set_edge_data_Ok g u v d :
  wf_graph g -> nx.has_edge g u v = true ->
  exists r, nx.edge_ref g u v = Some r /\ (r < length (nx.attrs g))%nat /\
    nx.set_edge_data g u v d =
    Ok {| nx._adj := nx._adj g; nx.attrs := <[r := d]> (nx.attrs g) |}.
Proof.
  intros W He. apply has_edge_ref in He as [r Hr].
  pose proof (wf_live W _ _ _ Hr) as Hl.
  exists r. split; [assumption|]. split; [assumption|].
  unfold nx.set_edge_data. rewrite Hr. rewrite decide_True by assumption. reflexivity.
Qed.

Lemma edge_data_Ok g u v :
  wf_graph g -> nx.has_edge g u v = true ->
  exists r d, nx.edge_ref g u v = Some r /\ nx.attrs g !! r = Some d /\
              nx.edge_data g u v = Ok d.
Proof.
  intros W He. apply has_edge_ref in He as [r Hr].
  pose proof (wf_live W _ _ _ Hr) as Hl.
  destruct (lookup_lt_is_Some_2 _ _ Hl) as [d Hd].
  exists r, d. split; [assumption|]. split; [assumption|].
  unfold nx.edge_data. rewrite Hr, Hd. reflexivity.
Qed.

Lemma wf_same_adj g attrs' :
  wf_graph g -> length attrs' = length (nx.attrs g) ->
  wf_graph {| nx._adj := nx._adj g; nx.attrs := attrs' |}.
Proof.
  intros W Hl. constructor; unfold nx.nodes, nx.edge_ref, nx.has_node; simpl.
  - apply (wf_nodes W).
  - apply (wf_inner W).
  - apply (wf_sym W).
  - intros u v r H. rewrite Hl. apply (wf_live W _ _ _ H).
  - apply (wf_node W).
Qed.

(** ** The analyzers that can arise *)

Lemma bump_weight_Ok g u v w :
  wf_graph g -> nx.has_edge g u v = true ->
  exists r d, nx.edge_ref g u v = Some r /\ nx.attrs g !! r = Some d /\
    bump_weight g u v w =
    Ok {| nx._adj := nx._adj g;
          nx.attrs := <[r := {| nx.weight := nx.weight d + w; nx.types := nx.types d |}]>
                        (nx.attrs g) |}.
Proof.
  intros W He. destruct (edge_data_Ok g u v W He) as (r & d & Hr & Hd & Hdata).
  exists r, d. split; [assumption|]. split; [assumption|].
  unfold bump_weight. rewrite Hdata. simpl.
  destruct (set_edge_data_Ok g u v
              {| nx.weight := nx.weight d + w; nx.types := nx.types d |} W He)
    as (r' & Hr' & _ & ->).
  congruence.
Qed.

Lemma add_type_Ok g u v ct :
  wf_graph g -> nx.has_edge g u v = true ->
  exists r d, nx.edge_ref g u v = Some r /\ nx.attrs g !! r = Some d /\
    add_type g u v ct =
    Ok {| nx._adj := nx._adj g;
          nx.attrs := <[r := {| nx.weight := nx.weight d; nx.types := nx.types d ∪ {[ct]} |}]>
                        (nx.attrs g) |}.
Proof.
  intros W He. destruct (edge_data_Ok g u v W He) as (r & d & Hr & Hd & Hdata).
  exists r, d. split; [assumption|]. split; [assumption|].
  unfold add_type. rewrite Hdata. simpl.
  destruct (set_edge_data_Ok g u v
              {| nx.weight := nx.weight d; nx.types := nx.types d ∪ {[ct]} |} W He)
    as (r' & Hr' & _ & ->).
  congruence.
Qed.

(** On a well-formed graph [add_connection] takes one of three courses. *)
Lemma add_connection_cases self source target ct w :
  wf_graph (graph self) ->
  add_connection self source target ct w =
  if negb (is_initialized self) then (Ok tt, self)
  else match nx.edge_ref (graph self) source target with
       | Some r =>
           match nx.attrs (graph self) !! r with
           | Some d =>
               (Ok tt,
                with_graph self
                  {| nx._adj := nx._adj (graph self);
                     nx.attrs :=
                       <[r := {| nx.weight := nx.weight d + w;
                                 nx.types := nx.types d ∪ {[ct]} |}]>
                         (nx.attrs (graph self)) |})
           | None => (Ok tt, self)
           end
       | None =>
           (Ok tt,
            with_graph self
              (nx.add_edge (graph self) source target
                 {| nx.weight := w; nx.types := {[ct]} |}))
       end.
Proof.
  intros W. unfold add_connection.
  destruct (is_initialized self); simpl; [|reflexivity].
  destruct (nx.has_edge (graph self) source target) eqn:He.
  - destruct (bump_weight_Ok _ _ _ w W He) as (r & d & Hr & Hd & ->).
    rewrite Hr, Hd.
    set (g1 := {| nx._adj := _; nx.attrs := _ |}).
    assert (W1 : wf_graph g1) by (apply wf_same_adj; [assumption|apply length_insert]).
    assert (He1 : nx.has_edge g1 source target = true) by exact He.
    destruct (add_type_Ok g1 _ _ ct W1 He1) as (r' & d' & Hr' & Hd' & ->).
    assert (r' = r) as -> by (unfold nx.edge_ref in *; simpl in *; congruence).
    unfold g1 in Hd'. simpl in Hd'.
    rewrite list_lookup_insert_eq in Hd' by (apply (wf_live W _ _ _ Hr)).
    injection Hd' as <-. simpl.
    unfold g1. simpl. rewrite list_insert_insert_eq. reflexivity.
  - assert (Hn : nx.edge_ref (graph self) source target = None).
    { destruct (nx.edge_ref (graph self) source target) eqn:E; [|reflexivity].
      assert (nx.has_edge (graph self) source target = true)
        by (apply has_edge_ref; eauto). congruence. }
    rewrite Hn. reflexivity.
Qed.

Lemma reachable_wf self : reachable self -> wf_graph (graph self).
Proof.
  induction 1 as [|self _ IH|self s t ct w _ IH|self _ IH]; simpl.
  - apply wf_empty.
  - exact IH.
  - rewrite (add_connection_cases _ _ _ _ _ IH).
    destruct (is_initialized self); simpl; [|exact IH].
    destruct (nx.edge_ref (graph self) s t) as [r|] eqn:Er.
    + destruct (nx.attrs (graph self) !! r); simpl; [|exact IH].
      apply wf_same_adj; [assumption|apply length_insert].
    + simpl. apply wf_add_edge. exact IH.
  - apply wf_empty.
Qed.

Lemma reachable_idle self :
  reachable self -> is_initialized self = false -> graph self = nx.empty.
Proof.
  induction 1 as [|self _ IH|self s t ct w H IH|self _ IH]; simpl; auto.
  - discriminate.
  - unfold add_connection. destruct (is_initialized self) eqn:E; simpl; [|auto].
    destruct (nx.has_edge _ _ _); [|simpl; congruence].
    destruct (bump_weight _ _ _ _); simpl; try congruence.
    destruct (add_type _ _ _ _); simpl; congruence.
Qed.

(** ** Neighbour lists of a graph *)

Lemma neighbors_elem g v w c :
  (w, c) ∈ nx.neighbors g v <->
  exists nb r, dict_get v (nx._adj g) = Some nb /\ (w, r) ∈ nb /\
               c = match nx.attrs g !! r with Some d => nx.weight d | None => 1 end.
Proof.
  unfold nx.neighbors. destruct (dict_get v (nx._adj g)) as [nb|].
  - rewrite list_elem_of_fmap. split.
    + intros ([w' r] & [= -> ->] & Hin). simpl. exists nb, r. auto.
    + intros (nb' & r & [= <-] & Hin & ->). exists (w, r). auto.
  - split; [intros H; inversion H|]. intros (nb & r & H & _). discriminate.
Qed.

Lemma neighbors_ref g v w c :
  wf_graph g ->
  ((w, c) ∈ nx.neighbors g v <->
   exists r d, nx.edge_ref g v w = Some r /\ nx.attrs g !! r = Some d /\ c = nx.weight d).
Proof.
  intros W. rewrite neighbors_elem. unfold nx.edge_ref, nx.adj_ref. split.
  - intros (nb & r & Hnb & Hin & ->).
    assert (Hr : dict_get w nb = Some r)
      by (apply dict_get_NoDup_In; [apply (wf_inner W _ _ Hnb)|assumption]).
    assert (Hl : (r < length (nx.attrs g))%nat).
    { apply (wf_live W v w). unfold nx.edge_ref, nx.adj_ref. rewrite Hnb. exact Hr. }
    destruct (lookup_lt_is_Some_2 _ _ Hl) as [d Hd].
    exists r, d. rewrite Hnb, Hd. auto.
  - intros (r & d & Hr & Hd & ->).
    destruct (dict_get v (nx._adj g)) as [nb|] eqn:Hnb; [|discriminate].
    exists nb, r. rewrite Hd. split; [reflexivity|]. split; [|reflexivity].
    apply dict_get_In. exact Hr.
Qed.

Lemma neighbors_sym g :
  wf_graph g -> forall v w c, (w, c) ∈ nx.neighbors g v -> (v, c) ∈ nx.neighbors g w.
Proof.
  intros W v w c. rewrite !neighbors_ref by assumption.
  intros (r & d & Hr & Hd & ->). exists r, d. split; [apply (wf_sym W _ _ _ Hr)|auto].
Qed.

Lemma neighbors_outside g v : v ∉ nx.nodes g -> nx.neighbors g v = [].
Proof.
  intros H. apply dict_get_None in H. unfold nx.neighbors. rewrite H. reflexivity.
Qed.

Lemma neighbors_names g v w c : (w, c) ∈ nx.neighbors g v -> w ∈ nx.names g.
Proof.
  rewrite neighbors_elem. intros (nb & r & Hnb & Hin & _).
  apply dict_get_In in Hnb.
  unfold nx.names. apply list_elem_of_In, in_concat. exists (v :: map fst nb). split.
  - apply in_map_iff. exists (v, nb). split; [reflexivity|]. apply list_elem_of_In. exact Hnb.
  - right. apply list_elem_of_In. apply list_elem_of_fmap. exists (w, r). auto.
Qed.

Lemma size_difference_le (X Y : gset string) : (size (X ∖ Y) <= size X)%nat.
Proof.
  apply subseteq_size. intros x Hx. apply elem_of_difference in Hx as [Hx _]. exact Hx.
Qed.

Lemma size_list_to_set_le (l : list string) :
  (size (list_to_set l : gset string) <= length l)%nat.
Proof.
  induction l as [|x l IH].
  - rewrite list_to_set_nil, size_empty. simpl. lia.
  - rewrite list_to_set_cons, size_union_alt, size_singleton. simpl.
    pose proof (size_difference_le (list_to_set l) {[x]}). lia.
Qed.

(** ** The two searches on a graph *)

(** [nx.has_path] answers whether a walk exists, and always answers. *)
Lemma has_path_correct g s t :
  wf_graph g -> nx.has_node g s = true -> nx.has_node g t = true ->
  (nx.has_path g s t = Ok true /\ connected (nx.neighbors g) s t) \/
  (nx.has_path g s t = Ok false /\ ~ connected (nx.neighbors g) s t).
Proof.
  intros W Hs Ht. unfold nx.has_path, nx.bidirectional_shortest_path.
  rewrite Hs, Ht. simpl. unfold nx._bidirectional_pred_succ.
  destruct (decide (t = s)) as [->|Hne].
  - left. split; [reflexivity|apply connected_refl].
  - assert (Hst : s <> t) by congruence.
    pose proof (bfs_init_inv (nx.neighbors g) s t Hst) as B.
    pose proof (pred_succ_loop_correct (nx.neighbors g) s t (neighbors_sym g W)
                  (nx.bfs_fuel g) _ _ _ _ B) as Hc.
    pose proof (pred_succ_loop_ends (nx.neighbors g) s t (neighbors_sym g W)
                  (list_to_set (nx.names g))) as He.
    specialize (He (fun v w c H => proj2 (elem_of_list_to_set _ _) (neighbors_names g v w c H))).
    specialize (He (nx.bfs_fuel g) _ _ _ _ B).
    destruct (nx.pred_succ_loop (nx.neighbors g) (nx.bfs_fuel g) {[s]} {[t]} [s] [t])
      as [[]|e|].
    + left. auto.
    + destruct Hc as [-> Hc]. right. auto.
    + exfalso. apply He; [|reflexivity].
      unfold bfs_measure, nx.bfs_fuel.
      pose proof (size_list_to_set_le (nx.names g)) as Hsz.
      pose proof (size_difference_le (list_to_set (nx.names g)) {[s]}).
      pose proof (size_difference_le (list_to_set (nx.names g)) {[t]}). lia.
Qed.

Lemma room_empty nbrs ns :
  room nbrs ns ∅ = sum_list_with (fun v => length (nbrs v)) ns.
Proof.
  unfold room. f_equal. induction ns as [|x ns IH]; [reflexivity|].
  rewrite filter_cons_True by apply lookup_empty. f_equal. exact IH.
Qed.

(** [bidirectional_dijkstra] always answers. *)
Lemma bidirectional_dijkstra_ends g s t : nx.bidirectional_dijkstra g s t <> Diverge.
Proof.
  unfold nx.bidirectional_dijkstra, nx.bidirectional_dijkstra_from.
  destruct (negb (nx.has_node g s) || negb (nx.has_node g t)); [discriminate|].
  destruct (decide (s = t)); [discriminate|].
  apply (dijkstra_loop_ends (nx.neighbors g) (nx.nodes g) (neighbors_outside g)).
  unfold dijkstra_measure, nx.dijkstra_init, nx.dijkstra_fuel, nx.degree_sum. simpl.
  rewrite room_empty. lia.
Qed.

(** With weights that are not negative it returns a cheapest walk when
    there is a walk, and raises [NetworkXNoPath] when there is none. *)
Lemma bidirectional_dijkstra_correct g s t :
  wf_graph g -> nonneg_weights g ->
  nx.has_node g s = true -> nx.has_node g t = true ->
  match nx.bidirectional_dijkstra g s t with
  | Ok (fd, p) =>
      walk_within (nx.neighbors g) s p t fd /\
      forall steps, steps_from (nx.neighbors g) s steps -> walk_end s steps = t ->
                    fd <= walk_cost steps
  | Raise e => e = NetworkXNoPath /\ ~ connected (nx.neighbors g) s t
  | Diverge => False
  end.
Proof.
  intros W Hnn Hs Ht.
  pose proof (bidirectional_dijkstra_ends g s t) as Hend.
  unfold nx.bidirectional_dijkstra, nx.bidirectional_dijkstra_from in *.
  rewrite Hs, Ht in *. simpl in *.
  destruct (decide (s = t)) as [->|Hne].
  - split; [apply walk_within_start|].
    intros steps Hsteps _. eapply walk_cost_nonneg; eauto.
  - pose proof (dijkstra_loop_correct (nx.neighbors g) Hnn (neighbors_sym g W) s t
                  (nx.dijkstra_fuel g) true _ Hne
                  (init_inv (nx.neighbors g) s t Hne)) as Hc.
    destruct (nx.dijkstra_loop _ _ _ _) as [[fd p]|e|]; auto.
Qed.

(** ** Paths of a graph and walks over its neighbour lists *)

Lemma py_sum_from (ws : list (string * Q)) (a : Q) :
  fold_left Qplus (map snd ws) a == a + walk_cost ws.
Proof.
  revert a. induction ws as [|[v c] ws IH]; intros a; simpl.
  - unfold walk_cost. simpl. ring.
  - rewrite IH. unfold walk_cost. simpl. ring.
Qed.

Lemma py_sum_cost (ws : list (string * Q)) : py_sum (map snd ws) == walk_cost ws.
Proof. unfold py_sum. rewrite py_sum_from. ring. Qed.

Lemma joins_walk u steps : joins (walk_nodes u steps) u (walk_end u steps).
Proof.
  split; [reflexivity|]. unfold walk_nodes.
  revert u. induction steps as [|[v c] steps IH]; intros u; simpl; [reflexivity|].
  rewrite <- (IH v). reflexivity.
Qed.

Section PathsAndWalks.

Variable g : nx.Graph.
Hypothesis W : wf_graph g.

Lemma neighbor_edge u v c :
  (v, c) ∈ nx.neighbors g u ->
  exists d, nx.edge_data g u v = Ok d /\ nx.weight d = c /\
            nx.has_edge g u v = true /\ nx.has_node g v = true.
Proof.
  intros H. apply (neighbors_ref g u v c W) in H as (r & d & Hr & Hd & ->).
  exists d. split; [unfold nx.edge_data; rewrite Hr, Hd; reflexivity|].
  split; [reflexivity|]. split; [apply has_edge_ref; eauto|apply (wf_node W _ _ _ Hr)].
Qed.

Lemma edge_neighbor u v :
  nx.has_edge g u v = true ->
  exists d, nx.edge_data g u v = Ok d /\ (v, nx.weight d) ∈ nx.neighbors g u.
Proof.
  intros H. destruct (edge_data_Ok g u v W H) as (r & d & Hr & Hd & Hdata).
  exists d. split; [assumption|]. apply (neighbors_ref g u v _ W). eauto.
Qed.

Lemma edge_weights_walk u steps :
  steps_from (nx.neighbors g) u steps ->
  edge_weights g (walk_nodes u steps) = Ok (map snd steps).
Proof.
  unfold walk_nodes. revert u. induction steps as [|[v c] steps IH]; intros u; simpl.
  - reflexivity.
  - intros [Hv Hs]. destruct (neighbor_edge u v c Hv) as (d & -> & <- & _). simpl.
    specialize (IH v Hs). simpl in IH. rewrite IH. reflexivity.
Qed.

Lemma path_of_walk u steps :
  nx.has_node g u = true -> steps_from (nx.neighbors g) u steps ->
  is_path g (walk_nodes u steps) /\
  path_weight g (walk_nodes u steps) == walk_cost steps.
Proof.
  unfold walk_nodes. revert u. induction steps as [|[v c] steps IH]; intros u Hu; simpl.
  - intros _. split; [assumption|]. unfold walk_cost. simpl. reflexivity.
  - intros [Hv Hs]. destruct (neighbor_edge u v c Hv) as (d & Hd & <- & He & Hn).
    destruct (IH v Hn Hs) as [IH1 IH2]. simpl in IH1, IH2.
    split; [split; assumption|].
    unfold edge_weight. rewrite Hd. simpl. rewrite IH2. unfold walk_cost. simpl. reflexivity.
Qed.

Lemma walk_of_path p :
  is_path g p -> forall u v, joins p u v ->
  exists steps, steps_from (nx.neighbors g) u steps /\ walk_nodes u steps = p /\
                walk_end u steps = v /\ walk_cost steps == path_weight g p.
Proof.
  induction p as [|x p IH]; simpl; [contradiction|].
  destruct p as [|y p].
  - intros _ u v [[= <-] [= <-]]. exists []. simpl. repeat split.
  - intros [He Hp] u v [[= <-] Hlast].
    destruct (edge_neighbor x y He) as (d & Hd & Hn).
    destruct (IH Hp y v) as (steps & Hs & Hnodes & Hend & Hcost).
    { split; [reflexivity|exact Hlast]. }
    exists ((y, nx.weight d) :: steps). simpl. split; [auto|]. split; [|split].
    + unfold walk_nodes in *. simpl. f_equal. exact Hnodes.
    + exact Hend.
    + unfold edge_weight. rewrite Hd. simpl.
      unfold walk_cost in *. simpl. rewrite Hcost. reflexivity.
Qed.

Lemma path_ends p u v :
  is_path g p -> joins p u v -> nx.has_node g u = true /\ nx.has_node g v = true.
Proof.
  intros Hp Hj. destruct (walk_of_path p Hp u v Hj) as (steps & Hs & <- & <- & _).
  clear Hj. assert (Hu : nx.has_node g u = true).
  { unfold walk_nodes in Hp. destruct steps as [|[y c] steps]; simpl in Hp; [assumption|].
    destruct Hp as [He _]. apply has_edge_ref in He as [r Hr].
    apply has_node_is_Some. unfold nx.edge_ref, nx.adj_ref in Hr.
    destruct (dict_get u (nx._adj g)); [eauto|discriminate]. }
  split; [assumption|]. clear Hp.
  revert u Hu Hs. induction steps as [|[y c] steps IH]; intros u Hu; simpl; [auto|].
  intros [Hy Hs]. apply (IH y); [|assumption].
  destruct (neighbor_edge u y c Hy) as (_ & _ & _ & _ & H). exact H.
Qed.

Lemma has_route_connected u v :
  has_route g u v <-> nx.has_node g u = true /\ connected (nx.neighbors g) u v.
Proof.
  split.
  - intros (p & Hp & Hj). split; [apply (path_ends p u v Hp Hj)|].
    destruct (walk_of_path p Hp u v Hj) as (steps & Hs & _ & He & _).
    exists steps. auto.
  - intros (Hu & steps & Hs & <-). exists (walk_nodes u steps).
    split; [apply (path_of_walk u steps Hu Hs)|apply joins_walk].
Qed.

End PathsAndWalks.

Lemma edge_weights_not_Diverge g p : edge_weights g p <> Diverge.
Proof.
  induction p as [|u p IH]; [discriminate|].
  destruct p as [|v p]; [discriminate|].
  change (edge_weights g (u :: v :: p))
    with (let* d := nx.edge_data g u v in
          let* ws := edge_weights g (v :: p) in Ok (nx.weight d :: ws)).
  unfold nx.edge_data.
  destruct (nx.edge_ref g u v); cbn [res_bind]; [|discriminate].
  destruct (nx.attrs g !! _); cbn [res_bind]; [|discriminate].
  destruct (edge_weights g (v :: p)); cbn [res_bind]; [discriminate|discriminate|exact IH].
Qed.

(** * The claims *)

(** ** Signal fusion *)

Lemma Fuse_unfold a l c r :
  Fuse a l c r ==
  Qmin 1 ((3 # 10) * a + classificationContribution l c + (3 # 10) * risk_score r).
Proof.
  unfold Fuse, _calculate_threat_score. cbn [anomaly_detection threat_classification graph_analysis].
  rewrite py_min_spec.
  apply Q.min_compat; [reflexivity|].
  destruct l; simpl; ring.
Qed.

(** C2, as the code has it.  For every anomaly score, label, confidence
    and graph risk, the fused score is [min(1, 0.3 * anomalyScore +
    classificationContribution + 0.3 * graphRisk)], the contribution
    being [confidence * 0.4] for malicious, [confidence * 0.5 * 0.4] for
    suspicious and 0 for benign (the ranges of the inputs are not
    needed).  On Python's floats [Fuse(0.9, {malicious, 0.8}, 0.0)] is
    0.5900000000000001, the binary64 value next above 0.59. *)
Theorem C2_fuse_formula :
  (forall (anomalyScore : Q) (label : Label) (confidence : Q) (r : LateralMovement),
      Fuse anomalyScore label confidence r ==
      Qmin 1 ((3 # 10) * anomalyScore
              + classificationContribution label confidence
              + (3 # 10) * risk_score r)) /\
  binary64.Fuse 0.9 malicious 0.8 0.0 = 0.5900000000000001%float /\
  binary64.Fuse 0.9 malicious 0.8 0.0 = PrimFloat.next_up 0.59.
Proof.
  split; [intros; apply Fuse_unfold|].
  split; vm_compute; reflexivity.
Qed.

(** C2 as the specification states it fails in its scenario: the code
    computes [0.0 + 0.9 * 0.3 + 0.8 * 0.4 + 0.0 * 0.3] on floats, which
    is not the float 0.59 but larger; 0.59 is the value of the formula
    in exact arithmetic only. *)
Lemma C2_counterexample :
  binary64.Fuse 0.9 malicious 0.8 0.0 <> 0.59%float /\
  PrimFloat.ltb 0.59 (binary64.Fuse 0.9 malicious 0.8 0.0) = true /\
  Fuse (9 # 10) malicious (8 # 10) no_movement == 59 # 100.
Proof.
  split; [|split].
  - intros H.
    assert (E : PrimFloat.eqb (binary64.Fuse 0.9 malicious 0.8 0.0) 0.59 = true)
      by (rewrite H; reflexivity).
    vm_compute in E. discriminate.
  - vm_compute. reflexivity.
  - rewrite Fuse_unfold. simpl. rewrite Q.min_r by lra. lra.
Qed.

(** C7. With inputs in [0, 1], raising the anomaly score, the confidence
    (for a fixed label) or the graph risk alone never lowers the fused
    score, and the fused score lies in [0, 1]. *)
Theorem C7_fuse_monotone (a : Q) (l : Label) (c : Q) (r : LateralMovement) :
  0 <= a <= 1 -> 0 <= c <= 1 -> 0 <= risk_score r <= 1 ->
  (forall a', a <= a' -> a' <= 1 -> Fuse a l c r <= Fuse a' l c r) /\
  (forall c', c <= c' -> c' <= 1 -> Fuse a l c r <= Fuse a l c' r) /\
  (forall r', risk_score r <= risk_score r' -> risk_score r' <= 1 ->
              Fuse a l c r <= Fuse a l c r') /\
  0 <= Fuse a l c r <= 1.
Proof.
  intros Ha Hc Hr.
  assert (Hmono : forall x y, x <= y -> Qmin 1 x <= Qmin 1 y).
  { intros x y Hxy. apply Q.min_le_compat_l. exact Hxy. }
  repeat split.
  - intros a' Haa' _. rewrite !Fuse_unfold. apply Hmono. lra.
  - intros c' Hcc' _. rewrite !Fuse_unfold. apply Hmono.
    destruct l; simpl; lra.
  - intros r' Hrr' _. rewrite !Fuse_unfold. apply Hmono. lra.
  - rewrite Fuse_unfold. apply Q.min_glb; [lra|].
    destruct l; simpl; lra.
  - rewrite Fuse_unfold. apply Q.le_min_l.
Qed.

Lemma C7_fuse_monotone_witness :
  Fuse (1 # 2) suspicious (1 # 2) no_movement
  <= Fuse (9 # 10) suspicious (1 # 2) no_movement.
Proof.
  refine (proj1 (C7_fuse_monotone (1 # 2) suspicious (1 # 2) no_movement _ _ _)
            (9 # 10) _ _); simpl; lra.
Defined.

(** ** Observations *)

(** C10. Before [initialize] has run, [add_connection] returns normally,
    raises nothing and leaves the analyzer, graph included, as it was. *)
Theorem C10_add_connection_before_initialize
  (self : GraphAnalyzer) (source target connection_type : string) (weight : Q) :
  is_initialized self = false ->
  add_connection self source target connection_type weight = (Ok tt, self).
Proof. intros H. unfold add_connection. rewrite H. reflexivity. Qed.

Lemma C10_add_connection_before_initialize_witness :
  add_connection __init__ "A" "B" "login" 1 = (Ok tt, __init__).
Proof.
  apply (C10_add_connection_before_initialize __init__ "A" "B" "login" 1).
  reflexivity.
Defined.

Lemma reachable_started : reachable started.
Proof. apply reach_initialize, reach_init. Qed.

Lemma reachable_observe l self : reachable self -> reachable (observe l self).
Proof.
  revert self. induction l as [|[[[s t] c] w] l IH]; intros self H; simpl; [exact H|].
  apply IH. apply reach_add. exact H.
Qed.

Lemma edge_weight_ref g u v :
  edge_weight g u v =
  match nx.edge_ref g u v with
  | Some r => nx.weight <$> (nx.attrs g !! r)
  | None => None
  end.
Proof.
  unfold edge_weight, nx.edge_data. destruct (nx.edge_ref g u v); [|reflexivity].
  destruct (nx.attrs g !! _); reflexivity.
Qed.

Lemma edge_ref_same_adj g attrs' x y :
  nx.edge_ref {| nx._adj := nx._adj g; nx.attrs := attrs' |} x y = nx.edge_ref g x y.
Proof. reflexivity. Qed.

(** The nodes after [add_edge]: the old ones, then the new endpoints. *)
Lemma nodes_add_edge g u v d :
  nx.nodes (nx.add_edge g u v d) =
  nx.nodes g ++ (if nx.has_node g u then [] else [u])
             ++ (if nx.has_node g v || String.eqb v u then [] else [v]).
Proof.
  unfold nx.add_edge, nx.nodes.
  assert (Hk : dict_keys (nx.add_node_if_new v (nx.add_node_if_new u (nx._adj g))) =
               dict_keys (nx._adj g) ++ (if nx.has_node g u then [] else [u])
                 ++ (if nx.has_node g v || String.eqb v u then [] else [v])).
  { rewrite keys_add_node, dict_get_add_node, keys_add_node. unfold nx.has_node.
    destruct (dict_get u (nx._adj g)), (dict_get v (nx._adj g)); simpl;
      rewrite ?app_nil_r; try reflexivity.
    - destruct (String.eqb v u); simpl; rewrite ?app_nil_r; reflexivity.
    - destruct (String.eqb v u); simpl; rewrite ?app_nil_r, <- ?app_assoc; reflexivity. }
  destruct (nx.edge_ref _ u v); simpl; rewrite !keys_link; exact Hk.
Qed.

(** The references and attribute dictionaries after [add_edge] of a new edge. *)
Lemma add_edge_new g u v d :
  nx.edge_ref g u v = None ->
  nx.attrs (nx.add_edge g u v d) = nx.attrs g ++ [d] /\
  forall x y, nx.edge_ref (nx.add_edge g u v d) x y =
              if decide ((x = u /\ y = v) \/ (x = v /\ y = u))
              then Some (length (nx.attrs g)) else nx.edge_ref g x y.
Proof.
  intros Hn. unfold nx.add_edge, nx.edge_ref in *. simpl.
  rewrite !adj_ref_add_node, Hn. simpl. split; [reflexivity|].
  intros x y. rewrite adj_ref_linked, !adj_ref_add_node;
    [reflexivity|apply add_node_keeps, add_node_present|apply add_node_present].
Qed.

(** What an observation does once [initialize] has run. *)
Lemma add_connection_started self a b ct w :
  reachable self -> is_initialized self = true ->
  let after := add_connection self a b ct w in
  after.1 = Ok tt /\
  is_initialized after.2 = true /\
  nx.nodes (graph after.2) =
    nx.nodes (graph self) ++ (if nx.has_node (graph self) a then [] else [a])
      ++ (if nx.has_node (graph self) b || String.eqb b a then [] else [b]) /\
  edge_weight (graph after.2) a b =
    Some (match edge_weight (graph self) a b with
          | Some w0 => w0 + w
          | None => w
          end) /\
  edge_weight (graph after.2) b a = edge_weight (graph after.2) a b /\
  length (filter (fun e : string * Q => e.1 = b) (nx.neighbors (graph after.2) a)) = 1%nat.
Proof.
  intros R Hi. pose proof (reachable_wf self R) as W.
  assert (W' : wf_graph (graph (add_connection self a b ct w).2))
    by (apply reachable_wf, reach_add, R).
  assert (Hcount : forall g, wf_graph g -> is_Some (nx.edge_ref g a b) ->
            length (filter (fun e : string * Q => e.1 = b) (nx.neighbors g a)) = 1%nat).
  { intros g Wg [r Hr]. unfold nx.edge_ref, nx.adj_ref in Hr.
    unfold nx.neighbors. destruct (dict_get a (nx._adj g)) as [nb|] eqn:Ea; [|discriminate].
    rewrite <- (dict_get_once b r nb (wf_inner Wg _ _ Ea) Hr).
    clear. induction nb as [|[k x] nb IH]; [reflexivity|]. simpl.
    rewrite !filter_cons. simpl. destruct (decide (k = b)); simpl; rewrite IH; reflexivity. }
  cbv zeta. rewrite (add_connection_cases self a b ct w W) in *. rewrite Hi in *. simpl negb in *.
  cbn iota in *.
  destruct (nx.edge_ref (graph self) a b) as [r|] eqn:Er.
  - pose proof (wf_live W _ _ _ Er) as Hl.
    destruct (lookup_lt_is_Some_2 _ _ Hl) as [d Hd]. rewrite Hd in *. simpl in *.
    split; [reflexivity|]. split; [assumption|].
    assert (Ha : nx.has_node (graph self) a = true).
    { apply has_node_is_Some. unfold nx.edge_ref, nx.adj_ref in Er.
      destruct (dict_get a (nx._adj (graph self))); [eauto|discriminate]. }
    pose proof (wf_node W _ _ _ Er) as Hb.
    split; [unfold nx.nodes; simpl; rewrite Ha, Hb; simpl; rewrite app_nil_r; reflexivity|].
    rewrite !edge_weight_ref, !edge_ref_same_adj.
    rewrite (wf_sym W _ _ _ Er), Er, Hd. simpl.
    rewrite list_lookup_insert_eq by assumption. simpl.
    split; [reflexivity|]. split; [reflexivity|].
    apply Hcount; [assumption|]. rewrite edge_ref_same_adj. eauto.
  - simpl in *. split; [reflexivity|]. split; [assumption|].
    destruct (add_edge_new (graph self) a b {| nx.weight := w; nx.types := {[ct]} |} Er)
      as [Hattrs Hrefs].
    split; [apply nodes_add_edge|].
    assert (Hnone : edge_weight (graph self) a b = None)
      by (rewrite edge_weight_ref, Er; reflexivity).
    rewrite Hnone, !edge_weight_ref, !Hrefs, Hattrs.
    rewrite !decide_True by tauto.
    rewrite lookup_app_r by lia. rewrite Nat.sub_diag. simpl.
    split; [reflexivity|]. split; [reflexivity|].
    apply Hcount; [assumption|]. rewrite Hrefs, decide_True by tauto. eauto.
Qed.

(** C4, as the code has it.  [add_connection] does not look at the asset
    IDs and never fails: once [initialize] has run, every call, whether
    an ID is empty or not, returns normally, appends to the nodes the
    endpoints that are new, and leaves the edge with its former weight
    plus [weight], or with [weight] when there was no edge. *)
Theorem C4_add_connection_adds
  (self : GraphAnalyzer) (assetA assetB connectionType : string) (weightDelta : Q) :
  reachable self -> is_initialized self = true ->
  let after := add_connection self assetA assetB connectionType weightDelta in
  after.1 = Ok tt /\
  nx.nodes (graph after.2) =
    nx.nodes (graph self)
      ++ (if nx.has_node (graph self) assetA then [] else [assetA])
      ++ (if nx.has_node (graph self) assetB || String.eqb assetB assetA
          then [] else [assetB]) /\
  edge_weight (graph after.2) assetA assetB =
    Some (match edge_weight (graph self) assetA assetB with
          | Some w0 => w0 + weightDelta
          | None => weightDelta
          end) /\
  edge_weight (graph after.2) assetB assetA = edge_weight (graph after.2) assetA assetB.
Proof.
  intros R Hi.
  destruct (add_connection_started self assetA assetB connectionType weightDelta R Hi)
    as (H1 & _ & H2 & H3 & H4 & _).
  cbv zeta. auto.
Qed.

Lemma C4_add_connection_adds_witness :
  (add_connection started "" "B" "login" 1).1 = Ok tt /\
  nx.nodes (graph (add_connection started "" "B" "login" 1).2) = [""; "B"] /\
  edge_weight (graph (add_connection started "" "B" "login" 1).2) "" "B" = Some 1 /\
  edge_weight (graph (add_connection started "" "B" "login" 1).2) "B" "" =
  edge_weight (graph (add_connection started "" "B" "login" 1).2) "" "B".
Proof.
  exact (C4_add_connection_adds started "" "B" "login" 1 reachable_started eq_refl).
Defined.

(** C4 as the specification states it fails: a call with an empty ID
    returns normally and changes the graph. *)
Lemma C4_counterexample :
  (add_connection started "" "B" "login" 1).1 = Ok tt /\
  nx.has_node (graph started) "" = false /\
  nx.has_node (graph (add_connection started "" "B" "login" 1).2) "" = true /\
  edge_weight (graph (add_connection started "" "B" "login" 1).2) "" "B" = Some 1.
Proof. vm_compute. repeat split. Qed.

(** C9, as the code has it.  Once [initialize] has run, observing the
    same connection twice on a graph without an edge between [a] and [b]
    leaves one edge between them of weight [2 * w], seen from both ends,
    and one entry for [b] among the neighbours of [a]. *)
Theorem C9_observed_twice (self : GraphAnalyzer) (a b t : string) (w : Q) :
  reachable self -> is_initialized self = true ->
  nx.has_edge (graph self) a b = false ->
  let once := (add_connection self a b t w).2 in
  let twice := (add_connection once a b t w).2 in
  (exists q, edge_weight (graph twice) a b = Some q /\ q == 2 * w) /\
  edge_weight (graph twice) b a = edge_weight (graph twice) a b /\
  length (filter (fun e : string * Q => e.1 = b) (nx.neighbors (graph twice) a)) = 1%nat.
Proof.
  intros R Hi He. cbv zeta.
  destruct (add_connection_started self a b t w R Hi) as (_ & Hi1 & _ & Hw1 & _ & _).
  assert (Hnone : edge_weight (graph self) a b = None).
  { rewrite edge_weight_ref. destruct (nx.edge_ref (graph self) a b) eqn:E; [|reflexivity].
    assert (nx.has_edge (graph self) a b = true) by (apply has_edge_ref; eauto). congruence. }
  rewrite Hnone in Hw1.
  destruct (add_connection_started (add_connection self a b t w).2 a b t w
              (reach_add _ _ _ _ _ R) Hi1) as (_ & _ & _ & Hw2 & Hsym & Hcount).
  rewrite Hw1 in Hw2. split; [|split; assumption].
  exists (w + w). split; [assumption|ring].
Qed.

Lemma C9_observed_twice_witness :
  (exists q,
      edge_weight
        (graph (add_connection (add_connection started "A" "B" "login" 3).2
                  "A" "B" "login" 3).2) "A" "B" = Some q /\ q == 2 * 3) /\
  edge_weight
    (graph (add_connection (add_connection started "A" "B" "login" 3).2
              "A" "B" "login" 3).2) "B" "A" =
  edge_weight
    (graph (add_connection (add_connection started "A" "B" "login" 3).2
              "A" "B" "login" 3).2) "A" "B" /\
  length (filter (fun e : string * Q => e.1 = "B")
            (nx.neighbors
               (graph (add_connection (add_connection started "A" "B" "login" 3).2
                         "A" "B" "login" 3).2) "A")) = 1%nat.
Proof.
  exact (C9_observed_twice started "A" "B" "login" 3 reachable_started eq_refl eq_refl).
Defined.

(** C9 as the specification states it fails before [initialize]: both
    observations are dropped, and there is no edge at all. *)
Lemma C9_counterexample :
  nx.has_edge (graph __init__) "A" "B" = false /\
  edge_weight
    (graph (add_connection (add_connection __init__ "A" "B" "login" 3).2
              "A" "B" "login" 3).2) "A" "B" = None /\
  nx.neighbors
    (graph (add_connection (add_connection __init__ "A" "B" "login" 3).2
              "A" "B" "login" 3).2) "A" = [].
Proof. vm_compute. repeat split. Qed.

(** ** Scoring a pair *)

(** C8. [detect_lateral_movement(a, a)] answers with risk 0, for an asset
    of the graph as for any other name. *)
Theorem C8_score_of_self (self : GraphAnalyzer) (a : string) :
  exists r, detect_lateral_movement self a a = Ok r /\ risk_score r == 0.
Proof.
  unfold detect_lateral_movement.
  destruct (is_initialized self); simpl; [|exists no_movement; split; reflexivity].
  destruct (nx.has_node (graph self) a) eqn:Ha; simpl;
    [|exists no_movement; split; reflexivity].
  unfold score_path, nx.has_path, nx.bidirectional_shortest_path.
  rewrite Ha. simpl. unfold nx._bidirectional_pred_succ.
  rewrite decide_True by reflexivity. simpl.
  unfold nx.shortest_path, nx.bidirectional_dijkstra, nx.bidirectional_dijkstra_from.
  rewrite Ha. simpl. rewrite decide_True by reflexivity. simpl.
  eexists. split; [reflexivity|]. simpl.
  rewrite py_min_spec. unfold py_sum. simpl. rewrite Q.min_r; [reflexivity|].
  unfold Qle. simpl. lia.
Qed.

Lemma reachable_node_initialized self x :
  reachable self -> nx.has_node (graph self) x = true -> is_initialized self = true.
Proof.
  intros R Hx. destruct (is_initialized self) eqn:E; [reflexivity|].
  rewrite (reachable_idle self R E) in Hx. discriminate.
Qed.

(** The answer for a pair that a walk joins: the walk that
    [nx.shortest_path] picks is a cheapest one, and the answer is computed
    from it. *)
Lemma detect_connected self s t :
  reachable self -> nonneg_weights (graph self) ->
  nx.has_node (graph self) s = true -> nx.has_node (graph self) t = true ->
  connected (nx.neighbors (graph self)) s t ->
  exists steps,
    steps_from (nx.neighbors (graph self)) s steps /\ walk_end s steps = t /\
    (forall steps', steps_from (nx.neighbors (graph self)) s steps' ->
                    walk_end s steps' = t -> walk_cost steps <= walk_cost steps') /\
    nx.shortest_path (graph self) s t = Ok (walk_nodes s steps) /\
    detect_lateral_movement self s t =
    Ok {| risk_score :=
            py_min 1 (inject_Z (Z.of_nat (length (walk_nodes s steps)) - 1)
                      * py_sum (map snd steps) / 10);
          path := walk_nodes s steps;
          path_length := Some (Z.of_nat (length (walk_nodes s steps)) - 1)%Z;
          is_suspicious :=
            Qltb (7 # 10)
              (py_min 1 (inject_Z (Z.of_nat (length (walk_nodes s steps)) - 1)
                         * py_sum (map snd steps) / 10));
          total_weight := Some (py_sum (map snd steps)) |}.
Proof.
  intros R Hnn Hs Ht Hc. pose proof (reachable_wf self R) as W.
  unfold detect_lateral_movement.
  rewrite (reachable_node_initialized self s R Hs), Hs, Ht. simpl.
  unfold score_path.
  destruct (has_path_correct (graph self) s t W Hs Ht) as [[-> _]|[_ Hn]]; [|contradiction].
  simpl. unfold nx.shortest_path.
  pose proof (bidirectional_dijkstra_correct (graph self) s t W Hnn Hs Ht) as Hd.
  destruct (nx.bidirectional_dijkstra (graph self) s t) as [[fd p]|e|];
    [|destruct Hd; contradiction|contradiction].
  destruct Hd as [(steps & Hsteps & -> & Hend & Hcost) Hleast].
  cbn [res_bind snd]. rewrite (edge_weights_walk (graph self) W s steps Hsteps).
  cbn [res_bind].
  exists steps. repeat split; auto.
  intros steps' Hs' He'. specialize (Hleast steps' Hs' He'). lra.
Qed.


Lemma nonneg_from_attrs g :
  Forall (fun d => 0 <= nx.weight d) (nx.attrs g) -> nonneg_weights g.
Proof.
  intros Hall v w c H. apply neighbors_elem in H as (nb & r & _ & _ & ->).
  destruct (nx.attrs g !! r) as [d|] eqn:E; [|lra].
  rewrite Forall_forall in Hall. apply Hall. eapply list_elem_of_lookup_2. exact E.
Qed.

Lemma whole_nonneg g : whole_weights g -> nonneg_weights g.
Proof.
  intros (bound & _ & H) v w c Hc.
  destruct (H v w c Hc) as (n & [Hn _] & ->).
  change 0 with (inject_Z 0). rewrite <- Zle_Qle. exact Hn.
Qed.

Lemma whole_from_attrs g (bound : Z) :
  (1 <= bound)%Z ->
  (Z.of_nat (length (nx.nodes g)) * bound <= 2 ^ 52)%Z ->
  forallb (fun d => let q := Qred (nx.weight d) in
                    Pos.eqb (Qden q) 1 && Z.leb 0 (Qnum q) && Z.leb (Qnum q) bound)
    (nx.attrs g) = true ->
  whole_weights g.
Proof.
  intros Hb Hsize Hall. exists bound. split; [exact Hsize|].
  intros v w c H. apply neighbors_elem in H as (nb & r & _ & _ & ->).
  destruct (nx.attrs g !! r) as [d|] eqn:E.
  - rewrite forallb_forall in Hall.
    assert (Hd : In d (nx.attrs g)).
    { apply list_elem_of_In. eapply list_elem_of_lookup_2. exact E. }
    specialize (Hall d Hd). cbv zeta in Hall.
    apply andb_prop in Hall as [Hall H3]. apply andb_prop in Hall as [H1 H2].
    apply Pos.eqb_eq in H1. apply Z.leb_le in H2, H3.
    exists (Qnum (Qred (nx.weight d))). split; [lia|].
    rewrite <- (Qred_correct (nx.weight d)) at 1.
    destruct (Qred (nx.weight d)) as [n p]. simpl in *. subst p. reflexivity.
  - exists 1%Z. split; [lia|reflexivity].
Qed.

Lemma chain_abc_whole : whole_weights (graph chain_abc).
Proof.
  apply (whole_from_attrs _ 3); [lia|vm_compute; discriminate|].
  vm_compute. reflexivity.
Qed.

Lemma chain_abc_ready :
  reachable chain_abc /\ nonneg_weights (graph chain_abc) /\
  is_path (graph chain_abc) ["A"; "B"; "C"] /\ joins ["A"; "B"; "C"] "A" "C".
Proof.
  split; [apply reachable_observe, reachable_started|].
  split; [apply nonneg_from_attrs; vm_compute; repeat constructor; discriminate|].
  vm_compute. repeat split.
Qed.



(** ** The cost that the shortest path minimises *)

(** C3, as the code has it.  [detect_lateral_movement] asks
    [nx.shortest_path] for the path of least total ['weight']: for a pair
    that a path joins, on a graph whose weights are whole numbers, not
    negative, that floats add without rounding ([whole_weights]), the
    path it reports has a sum of edge weights no larger than that of any
    path between the two assets, so of two candidate paths the one of
    lower cumulative weight is preferred. *)
Theorem C3_selected_path_has_least_weight
  (self : GraphAnalyzer) (source target : string) :
  reachable self -> whole_weights (graph self) ->
  nx.has_node (graph self) source = true ->
  nx.has_node (graph self) target = true ->
  has_route (graph self) source target ->
  exists r,
    detect_lateral_movement self source target = Ok r /\
    nx.shortest_path (graph self) source target = Ok (path r) /\
    is_path (graph self) (path r) /\ joins (path r) source target /\
    forall p, is_path (graph self) p -> joins p source target ->
              path_weight (graph self) (path r) <= path_weight (graph self) p.
Proof.
  intros R Hnn Hs Ht Hr. pose proof (reachable_wf self R) as W.
  apply whole_nonneg in Hnn.
  apply (has_route_connected (graph self) W) in Hr as [_ Hc].
  destruct (detect_connected self source target R Hnn Hs Ht Hc)
    as (steps & Hsteps & Hend & Hleast & Hsp & ->).
  eexists. split; [reflexivity|]. simpl.
  destruct (path_of_walk (graph self) W source steps Hs Hsteps) as [Hp Hw].
  split; [assumption|]. split; [assumption|].
  split; [rewrite <- Hend; apply joins_walk|].
  intros p Hpp Hj.
  destruct (walk_of_path (graph self) W p Hpp source target Hj)
    as (steps' & Hs' & _ & He' & Hcost').
  specialize (Hleast steps' Hs' He'). rewrite Hw, <- Hcost'. exact Hleast.
Qed.

Lemma triangle_ready :
  reachable triangle /\ nonneg_weights (graph triangle) /\
  is_path (graph triangle) ["A"; "C"] /\ joins ["A"; "C"] "A" "C".
Proof.
  split; [apply reachable_observe, reachable_started|].
  split; [apply nonneg_from_attrs; vm_compute; repeat constructor; discriminate|].
  vm_compute. repeat split.
Qed.

Lemma triangle_whole : whole_weights (graph triangle).
Proof.
  apply (whole_from_attrs _ 5); [lia|vm_compute; discriminate|].
  vm_compute. reflexivity.
Qed.

Lemma C3_selected_path_has_least_weight_witness :
  exists r,
    detect_lateral_movement triangle "A" "C" = Ok r /\
    nx.shortest_path (graph triangle) "A" "C" = Ok (path r) /\
    is_path (graph triangle) (path r) /\ joins (path r) "A" "C" /\
    forall p, is_path (graph triangle) p -> joins p "A" "C" ->
              path_weight (graph triangle) (path r) <= path_weight (graph triangle) p.
Proof.
  apply (C3_selected_path_has_least_weight triangle "A" "C").
  - apply triangle_ready.
  - apply triangle_whole.
  - reflexivity.
  - reflexivity.
  - exists ["A"; "C"]. split; apply triangle_ready.
Defined.

(** C3 as the specification states it fails: with the edges A-B (1),
    B-C (1) and A-C (5) the reported path is [A, B, C], of cumulative
    weight 2, although the direct path [A, C], of cumulative weight 5,
    has the smaller sum of [1 / (1 + weight)]. *)
Lemma C3_counterexample :
  exists r,
    detect_lateral_movement triangle "A" "C" = Ok r /\
    path r = ["A"; "B"; "C"] /\
    is_path (graph triangle) ["A"; "C"] /\ joins ["A"; "C"] "A" "C" /\
    inverse_cost (graph triangle) ["A"; "C"] < inverse_cost (graph triangle) (path r) /\
    path_weight (graph triangle) (path r) < path_weight (graph triangle) ["A"; "C"].
Proof.
  eexists. split; [vm_compute; reflexivity|]. vm_compute. repeat split.
Qed.

(** ** [sorted(..., reverse=True)] and the double loop over the nodes *)

Section SortedReverse.

Context {A : Type}.
Variable key : A -> Q.

Lemma insert_desc_perm x l : insert_desc key x l ≡ₚ x :: l.
Proof.
  induction l as [|y l IH]; simpl; [reflexivity|].
  destruct (Qltb (key x) (key y)); [|reflexivity].
  rewrite IH. apply perm_swap.
Qed.

Lemma sorted_reverse_perm l : sorted_reverse key l ≡ₚ l.
Proof.
  induction l as [|x l IH]; simpl; [reflexivity|].
  rewrite insert_desc_perm, IH. reflexivity.
Qed.

Lemma insert_desc_sorted x l :
  StronglySorted (fun a b => key b <= key a) l ->
  StronglySorted (fun a b => key b <= key a) (insert_desc key x l).
Proof.
  induction 1 as [|y l Hs IH Hall]; simpl.
  - constructor; constructor.
  - destruct (Qltb (key x) (key y)) eqn:E.
    + apply Qltb_lt in E. constructor; [assumption|].
      rewrite insert_desc_perm. constructor; [lra|assumption].
    + apply Qltb_ge in E. constructor; [constructor; assumption|].
      constructor; [assumption|].
      eapply Forall_impl; [exact Hall|]. simpl. intros z Hz. lra.
Qed.

Lemma sorted_reverse_sorted l :
  StronglySorted (fun a b => key b <= key a) (sorted_reverse key l).
Proof.
  induction l as [|x l IH]; simpl; [constructor|].
  apply insert_desc_sorted. exact IH.
Qed.

Lemma strongly_sorted_lookup (R : A -> A -> Prop) l :
  StronglySorted R l ->
  forall i j x y, (i < j)%nat -> l !! i = Some x -> l !! j = Some y -> R x y.
Proof.
  induction 1 as [|a l Hs IH Hall]; intros i j x y Hij Hi Hj.
  - rewrite lookup_nil in Hi. discriminate.
  - destruct j as [|j]; [lia|]. simpl in Hj. destruct i as [|i]; simpl in Hi.
    + injection Hi as <-. rewrite Forall_forall in Hall. apply Hall.
      eapply list_elem_of_lookup_2. exact Hj.
    + apply (IH i j); [lia|assumption|assumption].
Qed.

(** Entries with equal keys keep their order. *)
Lemma insert_desc_stable q x l :
  filter (fun a => Qeq_bool (key a) q = true) (insert_desc key x l) =
  filter (fun a => Qeq_bool (key a) q = true) (x :: l).
Proof.
  induction l as [|y l IH]; simpl; [reflexivity|].
  destruct (Qltb (key x) (key y)) eqn:E; [|reflexivity].
  apply Qltb_lt in E.
  rewrite (filter_cons _ y), IH, !(filter_cons _ x), (filter_cons _ y).
  destruct (decide (Qeq_bool (key y) q = true)) as [Hy|Hy]; [|reflexivity].
  destruct (decide (Qeq_bool (key x) q = true)) as [Hx|Hx]; [|reflexivity].
  apply Qeq_bool_iff in Hx, Hy. lra.
Qed.

Lemma sorted_reverse_stable q l :
  filter (fun a => Qeq_bool (key a) q = true) (sorted_reverse key l) =
  filter (fun a => Qeq_bool (key a) q = true) l.
Proof.
  induction l as [|x l IH]; simpl; [reflexivity|].
  rewrite insert_desc_stable, !(filter_cons _ x), IH. reflexivity.
Qed.

End SortedReverse.

Section Pairs.

Context {A : Type}.

Lemma elem_of_pairs (l : list A) a b :
  (a, b) ∈ pairs l <->
  exists i j, (i < j)%nat /\ l !! i = Some a /\ l !! j = Some b.
Proof.
  induction l as [|x l IH]; simpl.
  - split; [intros H; inversion H|]. intros (i & j & _ & Hi & _).
    rewrite lookup_nil in Hi. discriminate.
  - rewrite elem_of_app, list_elem_of_fmap, IH. split.
    + intros [(y & [= -> ->] & Hin)|(i & j & Hij & Hi & Hj)].
      * apply list_elem_of_lookup in Hin as [j Hj]. exists 0%nat, (S j).
        split; [lia|]. split; [reflexivity|exact Hj].
      * exists (S i), (S j). split; [lia|]. split; assumption.
    + intros (i & j & Hij & Hi & Hj). destruct j as [|j]; [lia|]. simpl in Hj.
      destruct i as [|i]; simpl in Hi.
      * injection Hi as <-. left. exists b. split; [reflexivity|].
        eapply list_elem_of_lookup_2. exact Hj.
      * right. exists i, j. split; [lia|]. split; assumption.
Qed.

Lemma pairs_NoDup (l : list A) : NoDup l -> NoDup (pairs l).
Proof.
  induction 1 as [|x l Hx Hnd IH]; simpl; [constructor|].
  apply NoDup_app. split; [|split].
  - apply NoDup_fmap_2; [|assumption]. intros y z [= ->]. reflexivity.
  - intros [a b] Hin Hin'. apply list_elem_of_fmap in Hin as (y & [= -> ->] & Hy).
    apply elem_of_pairs in Hin' as (i & j & _ & Hi & _).
    apply Hx. eapply list_elem_of_lookup_2. exact Hi.
  - assumption.
Qed.

Lemma pairs_distinct (l : list A) a b :
  NoDup l -> (a, b) ∈ pairs l -> a <> b /\ (b, a) ∉ pairs l.
Proof.
  intros Hnd Hin. apply elem_of_pairs in Hin as (i & j & Hij & Hi & Hj). split.
  - intros <-. pose proof (NoDup_lookup l i j a Hnd Hi Hj). lia.
  - intros Hin'. apply elem_of_pairs in Hin' as (i' & j' & Hij' & Hi' & Hj').
    pose proof (NoDup_lookup l i j' a Hnd Hi Hj').
    pose proof (NoDup_lookup l j i' b Hnd Hj Hi'). lia.
Qed.

Lemma pairs_cover (l : list A) a b :
  a ∈ l -> b ∈ l -> a <> b -> (a, b) ∈ pairs l \/ (b, a) ∈ pairs l.
Proof.
  intros Ha Hb Hne.
  apply list_elem_of_lookup in Ha as [i Hi]. apply list_elem_of_lookup in Hb as [j Hj].
  destruct (Nat.lt_trichotomy i j) as [H|[->|H]].
  - left. apply elem_of_pairs. eauto.
  - congruence.
  - right. apply elem_of_pairs. eauto.
Qed.

End Pairs.

(** ** Attack paths *)

(** On an analyzer that can arise, [detect_lateral_movement] always
    answers, and never with a risk above 1. *)
Lemma detect_total self s t :
  reachable self ->
  exists r, detect_lateral_movement self s t = Ok r /\ risk_score r <= 1.
Proof.
  intros R. pose proof (reachable_wf self R) as W.
  assert (Hzero : exists r, Ok no_movement = Ok r /\ risk_score r <= 1).
  { exists no_movement. split; [reflexivity|]. simpl. lra. }
  unfold detect_lateral_movement.
  destruct (is_initialized self); simpl; [|exact Hzero].
  destruct (nx.has_node (graph self) s) eqn:Hs; simpl; [|exact Hzero].
  destruct (nx.has_node (graph self) t) eqn:Ht; simpl; [|exact Hzero].
  unfold score_path.
  destruct (has_path_correct (graph self) s t W Hs Ht) as [[-> _]|[-> _]];
    cbn [res_bind]; [|exact Hzero].
  unfold nx.shortest_path.
  pose proof (bidirectional_dijkstra_ends (graph self) s t) as Hd.
  destruct (nx.bidirectional_dijkstra (graph self) s t) as [[fd p]|e|];
    cbn [res_bind snd]; [|exact Hzero|contradiction].
  pose proof (edge_weights_not_Diverge (graph self) p) as He.
  destruct (edge_weights (graph self) p) as [ws|e|]; cbn [res_bind];
    [|exact Hzero|contradiction].
  eexists. split; [reflexivity|]. simpl. apply py_min_le_l.
Qed.

Lemma detect_Score self s t :
  reachable self -> detect_lateral_movement self s t = Ok (Score self s t).
Proof.
  intros R. destruct (detect_total self s t R) as (r & Hr & _).
  unfold Score. rewrite Hr. reflexivity.
Qed.

Lemma Score_le_1 self s t : reachable self -> risk_score (Score self s t) <= 1.
Proof.
  intros R. destruct (detect_total self s t R) as (r & Hr & Hle).
  unfold Score. rewrite Hr. exact Hle.
Qed.

Lemma collect_above self thr ps :
  reachable self ->
  collect self thr ps =
  Ok (filter (fun x => Qltb thr (risk x) = true) (map (scored self) ps)).
Proof.
  intros R. induction ps as [|[s t] ps IH]; simpl; [reflexivity|].
  rewrite (detect_Score self s t R), IH. cbn [res_bind].
  destruct (Qltb thr (risk_score (Score self s t))) eqn:E.
  - rewrite filter_cons_True by exact E. reflexivity.
  - rewrite filter_cons_False; [reflexivity|].
    unfold risk, scored. simpl. rewrite E. discriminate.
Qed.

Lemma get_attack_paths_sorted self thr :
  reachable self ->
  get_attack_paths self thr = Ok (sorted_reverse risk (above self thr)).
Proof.
  intros R. unfold get_attack_paths, above.
  destruct (is_initialized self) eqn:E; simpl.
  - rewrite (collect_above self thr _ R). reflexivity.
  - rewrite (reachable_idle self R E). reflexivity.
Qed.

Lemma above_empty self thr : reachable self -> 1 <= thr -> above self thr = [].
Proof.
  intros R Hthr. unfold above.
  induction (pairs (nx.nodes (graph self))) as [|[s t] ps IH]; simpl; [reflexivity|].
  rewrite filter_cons_False; [exact IH|].
  unfold risk, scored. simpl. pose proof (Score_le_1 self s t R) as Hle.
  intros H. apply Qltb_lt in H. lra.
Qed.

(** C6, as the code has it.  [get_attack_paths] returns one entry for
    each pair [(nodes[i], nodes[j])], [i < j], of known assets whose risk
    is above the threshold, and no other; every unordered pair of
    distinct assets is such a pair exactly once.  The entries are in
    descending order of risk, and entries of equal risk stay in the order
    of the double loop, that is in the order in which the assets entered
    the graph.  A threshold of 1 or more, 1.1 for one, gives the empty
    list. *)
Theorem C6_attack_paths_ranked :
  (forall (self : GraphAnalyzer) (riskThreshold : Q),
      reachable self ->
      exists l,
        get_attack_paths self riskThreshold = Ok l /\
        (forall s t, detect_lateral_movement self s t = Ok (Score self s t)) /\
        l ≡ₚ above self riskThreshold /\
        descending l /\
        ties_as_in (above self riskThreshold) l /\
        NoDup (pairs (nx.nodes (graph self))) /\
        (forall a b, (a, b) ∈ pairs (nx.nodes (graph self)) ->
                     a <> b /\ (b, a) ∉ pairs (nx.nodes (graph self))) /\
        (forall a b, a ∈ nx.nodes (graph self) -> b ∈ nx.nodes (graph self) -> a <> b ->
                     (a, b) ∈ pairs (nx.nodes (graph self)) \/
                     (b, a) ∈ pairs (nx.nodes (graph self))) /\
        (1 <= riskThreshold -> l = [])) /\
  (forall self : GraphAnalyzer,
      reachable self -> get_attack_paths self (11 # 10) = Ok []).
Proof.
  split.
  - intros self thr R. pose proof (reachable_wf self R) as W.
    exists (sorted_reverse risk (above self thr)).
    split; [apply get_attack_paths_sorted, R|].
    split; [intros s t; apply detect_Score, R|].
    split; [apply sorted_reverse_perm|].
    split; [|split; [|split; [|split; [|split]]]].
    + intros i j x y Hij Hi Hj.
      apply (strongly_sorted_lookup _ _ (sorted_reverse_sorted risk (above self thr))
               i j x y Hij Hi Hj).
    + intros q. apply sorted_reverse_stable.
    + apply pairs_NoDup, (wf_nodes W).
    + intros a b. apply pairs_distinct, (wf_nodes W).
    + apply pairs_cover.
    + intros Hthr. rewrite (above_empty self thr R Hthr). reflexivity.
  - intros self R. rewrite (get_attack_paths_sorted self _ R).
    rewrite (above_empty self (11 # 10) R); [reflexivity|lra].
Qed.

Lemma C6_attack_paths_ranked_witness :
  get_attack_paths two_links (11 # 10) = Ok [].
Proof.
  apply (proj2 C6_attack_paths_ranked two_links).
  apply reachable_observe, reachable_started.
Defined.

(** C6 as the specification states it fails: with C-D observed before
    A-B, both of risk 1, (C, D) is listed before (A, B). *)
Lemma C6_counterexample :
  exists l,
    get_attack_paths two_links (1 # 2) = Ok l /\
    map (fun x => (source x, target x, risk x)) l = [("C", "D", 1); ("A", "B", 1)] /\
    ~ ranked_by_name l.
Proof.
  eexists. split; [vm_compute; reflexivity|]. split; [reflexivity|].
  intros H. specialize (H 0%nat _ _ eq_refl eq_refl). vm_compute in H.
  destruct H as [H|[_ H]]; discriminate.
Qed.

(** ** Revision and cache *)

Lemma Qplus_0_r_eq (w : Q) : w + 0 = w.
Proof. destruct w as [n d]. unfold Qplus. simpl. f_equal; lia. Qed.

(** An observation of weight 0 and of a type already recorded, on an edge
    that exists, leaves the analyzer as it was. *)
Lemma add_connection_idle self a b t d :
  reachable self -> nx.edge_data (graph self) a b = Ok d -> t ∈ nx.types d ->
  (add_connection self a b t 0).2 = self.
Proof.
  intros R Hd Ht. pose proof (reachable_wf self R) as W.
  rewrite (add_connection_cases self a b t 0 W).
  destruct (is_initialized self) eqn:Hi; simpl; [|reflexivity].
  unfold nx.edge_data in Hd.
  destruct (nx.edge_ref (graph self) a b) as [r|]; [|discriminate].
  destruct (nx.attrs (graph self) !! r) as [d'|] eqn:Er; [|discriminate].
  injection Hd as ->. simpl.
  assert (Hsame : {| nx.weight := nx.weight d + 0; nx.types := nx.types d ∪ {[t]} |} = d).
  { destruct d as [w ty]. simpl in *. rewrite Qplus_0_r_eq. f_equal.
    rewrite (comm_L (∪)). apply subseteq_union_1_L. apply singleton_subseteq_l. exact Ht. }
  rewrite Hsame, (list_insert_id _ _ _ Er).
  destruct self as [[adj attrs] i]. simpl in *. subst i. reflexivity.
Qed.

Section ViewCache.

Variable View : Type.
Variable Db : Type.
Variable build_view : Db -> option string -> string -> View.

Lemma view_hit now db rl tr client v expiry :
  client !! attack_paths_key rl tr = Some (v, expiry) -> (now < expiry)%nat ->
  get_attack_paths_view View Db build_view now db rl tr client = (v, client).
Proof.
  intros Hc Hlt. unfold get_attack_paths_view, get_cached_data. rewrite Hc.
  apply Nat.ltb_lt in Hlt. rewrite Hlt. reflexivity.
Qed.

Lemma view_miss now db rl tr client :
  get_cached_data View (attack_paths_key rl tr) now client = None ->
  get_attack_paths_view View Db build_view now db rl tr client =
  (build_view db rl tr,
   <[attack_paths_key rl tr := (build_view db rl tr, (now + 300)%nat)]> client).
Proof.
  intros Hc. unfold get_attack_paths_view. rewrite Hc. reflexivity.
Qed.

(** C5, as the code has it.  The analyzer keeps no revision counter: an
    observation can leave it exactly as it was.  The only cache is the
    one of the attack-path view; its key is made of [risk_level] and
    [time_range], and an entry lives for 300 seconds: a view computed on
    a miss is served again, unchanged, to every call with the same key
    made before the 300 seconds are over, whatever the database holds by
    then, and is computed afresh from then on. *)
Theorem C5_cached_view_is_served_until_it_expires :
  (forall (self : GraphAnalyzer) (a b t : string) (d : nx.EdgeData),
      reachable self -> nx.edge_data (graph self) a b = Ok d -> t ∈ nx.types d ->
      (add_connection self a b t 0).2 = self) /\
  (forall (now later : nat) (db db' : Db) (risk_level : option string)
          (time_range : string) (client : gmap string (View * nat)),
      get_cached_data View (attack_paths_key risk_level time_range) now client = None ->
      let first := get_attack_paths_view View Db build_view
                     now db risk_level time_range client in
      let second := get_attack_paths_view View Db build_view
                      later db' risk_level time_range first.2 in
      first.1 = build_view db risk_level time_range /\
      second.1 = if (later <? now + 300)%nat
                 then build_view db risk_level time_range
                 else build_view db' risk_level time_range).
Proof.
  split; [intros; eapply add_connection_idle; eauto|].
  intros now later db db' rl tr client Hmiss. cbv zeta.
  rewrite (view_miss now db rl tr client Hmiss). simpl. split; [reflexivity|].
  destruct (later <? now + 300)%nat eqn:E.
  - apply Nat.ltb_lt in E.
    erewrite view_hit; [reflexivity|apply lookup_insert_eq|exact E].
  - unfold get_attack_paths_view, get_cached_data.
    rewrite lookup_insert_eq, E. reflexivity.
Qed.

End ViewCache.

Lemma one_link_ready :
  reachable one_link /\
  nx.edge_data (graph one_link) "A" "B" =
    Ok {| nx.weight := 1; nx.types := {["login"]} |} /\
  "login" ∈ ({["login"]} : gset string).
Proof.
  split; [apply reachable_observe, reachable_started|].
  split; [vm_compute; reflexivity|]. apply elem_of_singleton. reflexivity.
Qed.

Lemma C5_cached_view_is_served_until_it_expires_witness :
  (add_connection one_link "A" "B" "login" 0).2 = one_link.
Proof.
  apply (proj1 (C5_cached_view_is_served_until_it_expires nat unit (fun _ _ _ => 0%nat))
           one_link "A" "B" "login" {| nx.weight := 1; nx.types := {["login"]} |});
    apply one_link_ready.
Defined.

(** C5 as the specification states it fails: the observation below
    leaves the analyzer unchanged, so nothing that is read from the
    analyzer has grown with it. *)
Lemma C5_counterexample :
  reachable one_link /\ is_initialized one_link = true /\
  (add_connection one_link "A" "B" "login" 0).2 = one_link /\
  ~ (exists revision : GraphAnalyzer -> nat,
        forall self s t c w,
          reachable self -> is_initialized self = true ->
          (revision self < revision (add_connection self s t c w).2)%nat).
Proof.
  assert (H : (add_connection one_link "A" "B" "login" 0).2 = one_link)
    by (eapply add_connection_idle; apply one_link_ready).
  split; [apply one_link_ready|]. split; [reflexivity|]. split; [exact H|].
  intros (revision & Hrev).
  specialize (Hrev one_link "A" "B" "login" 0 (proj1 one_link_ready) eq_refl).
  rewrite H in Hrev. lia.
Qed.

(** * Further properties *)

(** ** Sequences of observations *)

Lemma apart_empty : apart nx.empty.
Proof. intros u v x y r H. discriminate. Qed.

Lemma apart_add_edge_new g u v d :
  wf_graph g -> apart g -> nx.edge_ref g u v = None -> apart (nx.add_edge g u v d).
Proof.
  intros W A Hn. destruct (add_edge_new g u v d Hn) as [_ Hrefs].
  intros a b x y r. rewrite !Hrefs.
  destruct (decide ((a = u /\ b = v) \/ (a = v /\ b = u))) as [Hab|Hab];
    destruct (decide ((x = u /\ y = v) \/ (x = v /\ y = u))) as [Hxy|Hxy].
  - intros _ _. destruct Hab as [[-> ->]|[-> ->]], Hxy as [[-> ->]|[-> ->]]; tauto.
  - intros [= <-] Hr. pose proof (wf_live W _ _ _ Hr). lia.
  - intros Hr [= <-]. pose proof (wf_live W _ _ _ Hr). lia.
  - apply A.
Qed.

Lemma reachable_apart self : reachable self -> apart (graph self).
Proof.
  induction 1 as [|self _ IH|self s t ct w R IH|self _ IH]; simpl.
  - apply apart_empty.
  - exact IH.
  - pose proof (reachable_wf self R) as W.
    rewrite (add_connection_cases _ _ _ _ _ W).
    destruct (is_initialized self); simpl; [|exact IH].
    destruct (nx.edge_ref (graph self) s t) as [r|] eqn:Er.
    + destruct (nx.attrs (graph self) !! r); simpl; exact IH.
    + simpl. apply apart_add_edge_new; assumption.
  - apply apart_empty.
Qed.

(** One observation changes the attribute dictionary of the edge it names
    and of no other. *)
Lemma add_connection_edge_data self s t ct w x y :
  reachable self -> is_initialized self = true ->
  nx.edge_data (graph (add_connection self s t ct w).2) x y =
  if decide ((x = s /\ y = t) \/ (x = t /\ y = s))
  then Ok (observed_once (nx.edge_data (graph self) s t) ct w)
  else nx.edge_data (graph self) x y.
Proof.
  intros R Hi. pose proof (reachable_wf self R) as W.
  pose proof (reachable_apart self R) as A.
  rewrite (add_connection_cases _ _ _ _ _ W), Hi. simpl negb. cbn iota.
  destruct (nx.edge_ref (graph self) s t) as [r|] eqn:Er.
  - pose proof (wf_live W _ _ _ Er) as Hl.
    destruct (lookup_lt_is_Some_2 _ _ Hl) as [d Hd]. rewrite Hd. simpl.
    unfold nx.edge_data at 1. rewrite edge_ref_same_adj. simpl.
    assert (Hst : nx.edge_data (graph self) s t = Ok d)
      by (unfold nx.edge_data; rewrite Er, Hd; reflexivity).
    rewrite Hst. simpl.
    destruct (decide ((x = s /\ y = t) \/ (x = t /\ y = s))) as [Hxy|Hxy].
    + assert (Hr : nx.edge_ref (graph self) x y = Some r).
      { destruct Hxy as [[-> ->]|[-> ->]]; [assumption|apply (wf_sym W _ _ _ Er)]. }
      rewrite Hr, list_lookup_insert_eq by assumption. reflexivity.
    + unfold nx.edge_data. destruct (nx.edge_ref (graph self) x y) as [r'|] eqn:Er';
        [|reflexivity].
      rewrite list_lookup_insert_ne; [reflexivity|].
      intros <-. apply Hxy. apply (A s t x y r Er Er').
  - simpl.
    destruct (add_edge_new (graph self) s t {| nx.weight := w; nx.types := {[ct]} |} Er)
      as [Hattrs Hrefs].
    assert (Hst : nx.edge_data (graph self) s t = Raise KeyError)
      by (unfold nx.edge_data; rewrite Er; reflexivity).
    rewrite Hst. simpl.
    unfold nx.edge_data at 1. rewrite Hrefs, Hattrs.
    destruct (decide ((x = s /\ y = t) \/ (x = t /\ y = s))) as [Hxy|Hxy].
    + rewrite lookup_app_r by lia. rewrite Nat.sub_diag. reflexivity.
    + unfold nx.edge_data. destruct (nx.edge_ref (graph self) x y) as [r'|] eqn:Er';
        [|reflexivity].
      rewrite lookup_app_l by (apply (wf_live W _ _ _ Er')). reflexivity.
Qed.

Lemma between_decide a b s t ct w :
  between a b (s, t, ct, w) = true <-> (a = s /\ b = t) \/ (a = t /\ b = s).
Proof.
  unfold between. simpl. rewrite orb_true_iff, !andb_true_iff, !String.eqb_eq.
  split; intros [[-> ->]|[-> ->]]; auto.
Qed.

Lemma observe_initialized l self :
  reachable self -> is_initialized self = true -> is_initialized (observe l self) = true.
Proof.
  revert self. induction l as [|[[[s t] ct] w] l IH]; intros self R Hi; simpl; [exact Hi|].
  apply IH; [apply reach_add, R|].
  apply (add_connection_started self s t ct w R Hi).
Qed.

(** The attribute dictionary of the edge between [a] and [b] after the
    observations [l]: only those that join [a] and [b] count, one after
    the other. *)
Lemma observe_edge_data l self a b :
  reachable self -> is_initialized self = true ->
  nx.edge_data (graph (observe l self)) a b =
  fold_left (fun acc (o : string * string * string * Q) =>
               if between a b o then Ok (observed_once acc o.1.2 o.2) else acc)
    l (nx.edge_data (graph self) a b).
Proof.
  revert self. induction l as [|[[[s t] ct] w] l IH]; intros self R Hi; simpl; [reflexivity|].
  pose proof (add_connection_started self s t ct w R Hi) as (_ & Hi' & _).
  rewrite (IH _ (reach_add _ s t ct w R) Hi'). f_equal.
  rewrite (add_connection_edge_data self s t ct w a b R Hi).
  pose proof (between_decide a b s t ct w) as Hb.
  destruct (decide ((a = s /\ b = t) \/ (a = t /\ b = s))) as [H|H].
  - rewrite (proj2 Hb H).
    assert (Hsame : nx.edge_data (graph self) s t = nx.edge_data (graph self) a b).
    { pose proof (reachable_wf self R) as W.
      destruct H as [[-> ->]|[-> ->]]; [reflexivity|].
      unfold nx.edge_data. destruct (nx.edge_ref (graph self) s t) as [r|] eqn:Er.
      - rewrite (wf_sym W _ _ _ Er). reflexivity.
      - destruct (nx.edge_ref (graph self) t s) as [r|] eqn:Er'; [|reflexivity].
        rewrite (wf_sym W _ _ _ Er') in Er. discriminate. }
    rewrite Hsame. reflexivity.
  - clear Hb. destruct (between a b (s, t, ct, w)) eqn:E; [|reflexivity].
    apply between_decide in E. contradiction.
Qed.

(** What the fold of [observe_edge_data] amounts to. *)
Lemma observed_fold a b l (acc : res nx.EdgeData) :
  let after :=
    fold_left (fun acc (o : string * string * string * Q) =>
                 if between a b o then Ok (observed_once acc o.1.2 o.2) else acc) l acc in
  match after with
  | Ok d =>
      nx.weight d ==
        match acc with Ok d0 => nx.weight d0 | _ => 0 end + py_sum (weights_between a b l) /\
      nx.types d =
        match acc with Ok d0 => nx.types d0 | _ => ∅ end ∪ types_between a b l /\
      ((exists d0, acc = Ok d0) \/ existsb (between a b) l = true)
  | _ => after = acc /\ existsb (between a b) l = false
  end.
Proof.
  cbv zeta. unfold weights_between, types_between.
  revert acc. induction l as [|o l IH]; intros acc; simpl.
  - destruct acc as [d0|e|].
    + split; [unfold py_sum; simpl; ring|].
      split; [rewrite (right_id_L ∅ (∪)); reflexivity|eauto].
    + auto.
    + auto.
  - destruct (between a b o) eqn:E; simpl.
    + rewrite filter_cons_True by exact E. simpl.
      specialize (IH (Ok (observed_once acc o.1.2 o.2))).
      destruct (fold_left _ l _) as [d|e|].
      * destruct IH as (Hw & Ht & _). split; [|split; [|right; reflexivity]].
        -- rewrite Hw. unfold py_sum. simpl.
           generalize (map snd (filter (fun o0 => between a b o0 = true) l)).
           intros ws.
           assert (Hs : forall q, fold_left Qplus ws q == q + fold_left Qplus ws 0).
           { clear. induction ws as [|x ws IH]; intros q; simpl; [ring|].
             rewrite (IH (q + x)), (IH (0 + x)). ring. }
           rewrite (Hs (0 + o.2)). destruct acc as [d0|e|]; simpl; ring.
        -- rewrite Ht. destruct acc as [d0|e|]; simpl.
           ++ rewrite <- (assoc_L (∪)). reflexivity.
           ++ rewrite (left_id_L ∅ (∪)). reflexivity.
           ++ rewrite (left_id_L ∅ (∪)). reflexivity.
      * destruct IH as [IH _]. discriminate.
      * destruct IH as [IH _]. discriminate.
    + rewrite filter_cons_False by (rewrite E; discriminate). apply IH.
Qed.

Lemma edge_weight_data g u v :
  edge_weight g u v =
  match nx.edge_data g u v with Ok d => Some (nx.weight d) | _ => None end.
Proof. reflexivity. Qed.

Lemma has_edge_data g u v :
  wf_graph g -> nx.has_edge g u v = true <-> exists d, nx.edge_data g u v = Ok d.
Proof.
  intros W. split.
  - intros H. destruct (edge_data_Ok g u v W H) as (r & d & _ & _ & Hd). eauto.
  - intros [d Hd]. apply has_edge_ref. unfold nx.edge_data in Hd.
    destruct (nx.edge_ref g u v); [eauto|discriminate].
Qed.

Lemma has_edge_no_data g u v :
  wf_graph g -> nx.has_edge g u v = false -> nx.edge_data g u v = Raise KeyError.
Proof.
  intros W H. unfold nx.edge_data. destruct (nx.edge_ref g u v) as [r|] eqn:E; [|reflexivity].
  assert (nx.has_edge g u v = true) by (apply has_edge_ref; eauto). congruence.
Qed.

(** The weight that the fold of [observe_edge_data] leaves. *)
Lemma observed_fold_weight a b l (acc : res nx.EdgeData) :
  let weight_of (r : res nx.EdgeData) :=
    match r with Ok d => Some (nx.weight d) | _ => None end in
  weight_of
    (fold_left (fun acc (o : string * string * string * Q) =>
                  if between a b o then Ok (observed_once acc o.1.2 o.2) else acc) l acc)
  = accumulated (weight_of acc) (weights_between a b l).
Proof.
  cbv zeta. unfold weights_between.
  revert acc. induction l as [|o l IH]; intros acc.
  - simpl. destruct acc; reflexivity.
  - cbn [fold_left]. destruct (between a b o) eqn:E.
    + rewrite filter_cons_True by exact E. rewrite IH.
      destruct acc as [d0|e|]; reflexivity.
    + rewrite filter_cons_False by (rewrite E; discriminate). apply IH.
Qed.

(** X1.  After any observations the edge between two assets has, as its
    weight, what it had before with the weights observed between the two
    added to it one after the other, in the order of the calls (for a new
    edge: the weight of the first call with those of the later calls
    added to it); observations of other pairs do not change it. *)
Theorem observed_weights_add_up
  (self : GraphAnalyzer) (l : list (string * string * string * Q)) (a b : string) :
  reachable self -> is_initialized self = true ->
  let after := graph (observe l self) in
  nx.has_edge after a b = nx.has_edge (graph self) a b || existsb (between a b) l /\
  (nx.has_edge after a b = true <-> is_Some (edge_weight after a b)) /\
  edge_weight after a b
  = accumulated (edge_weight (graph self) a b) (weights_between a b l).
Proof.
  intros R Hi. cbv zeta.
  pose proof (reachable_wf self R) as W.
  pose proof (reachable_wf _ (reachable_observe l self R)) as W'.
  pose proof (observe_edge_data l self a b R Hi) as Hd.
  pose proof (observed_fold a b l (nx.edge_data (graph self) a b)) as Hf.
  pose proof (observed_fold_weight a b l (nx.edge_data (graph self) a b)) as Hw.
  cbv zeta in Hf, Hw. rewrite <- Hd in Hf, Hw. rewrite !edge_weight_data.
  split; [|split; [|exact Hw]].
  - destruct (nx.edge_data (graph (observe l self)) a b) as [d|e|] eqn:E.
    + assert (He : nx.has_edge (graph (observe l self)) a b = true)
        by (apply has_edge_data; eauto).
      destruct Hf as (_ & _ & Hor). rewrite He.
      symmetry. apply orb_true_iff. destruct Hor as [[d0 Hd0]|Hx]; [left|right; exact Hx].
      apply has_edge_data; eauto.
    + assert (He : nx.has_edge (graph (observe l self)) a b = false).
      { destruct (nx.has_edge _ a b) eqn:He; [|reflexivity].
        apply has_edge_data in He as [d Hd']; [congruence|assumption]. }
      destruct Hf as [Hacc Hx]. rewrite He, Hx.
      destruct (nx.has_edge (graph self) a b) eqn:He0; [|reflexivity].
      apply has_edge_data in He0 as [d Hd']; [congruence|assumption].
    + assert (He : nx.has_edge (graph (observe l self)) a b = false).
      { destruct (nx.has_edge _ a b) eqn:He; [|reflexivity].
        apply has_edge_data in He as [d Hd']; [congruence|assumption]. }
      destruct Hf as [Hacc Hx]. rewrite He, Hx.
      destruct (nx.has_edge (graph self) a b) eqn:He0; [|reflexivity].
      apply has_edge_data in He0 as [d Hd']; [congruence|assumption].
  - rewrite (has_edge_data _ a b W').
    destruct (nx.edge_data (graph (observe l self)) a b) as [d|e|].
    + split; eauto.
    + split; [intros [d Hd']; discriminate|intros [x Hx]; discriminate].
    + split; [intros [d Hd']; discriminate|intros [x Hx]; discriminate].
Qed.

Lemma observed_weights_add_up_witness :
  let l := [("A", "B", "login", 1 # 10); ("C", "A", "ssh", 1);
            ("B", "A", "rdp", 2 # 10); ("A", "B", "login", 3 # 10)] in
  let after := graph (observe l started) in
  nx.has_edge after "A" "B" = nx.has_edge (graph started) "A" "B"
                              || existsb (between "A" "B") l /\
  (nx.has_edge after "A" "B" = true <-> is_Some (edge_weight after "A" "B")) /\
  edge_weight after "A" "B"
  = accumulated (edge_weight (graph started) "A" "B") (weights_between "A" "B" l).
Proof.
  exact (observed_weights_add_up started
           [("A", "B", "login", 1 # 10); ("C", "A", "ssh", 1);
            ("B", "A", "rdp", 2 # 10); ("A", "B", "login", 3 # 10)]
           "A" "B" reachable_started eq_refl).
Defined.

(** X2.  The types of an edge are the connection types that were observed
    between its two assets. *)
Theorem observed_types_gather
  (self : GraphAnalyzer) (l : list (string * string * string * Q)) (a b : string) :
  reachable self -> is_initialized self = true ->
  nx.has_edge (graph (observe l self)) a b = true ->
  edge_types (graph (observe l self)) a b =
  Some (default ∅ (edge_types (graph self) a b) ∪ types_between a b l).
Proof.
  intros R Hi He.
  pose proof (reachable_wf _ (reachable_observe l self R)) as W'.
  pose proof (observe_edge_data l self a b R Hi) as Hd.
  pose proof (observed_fold a b l (nx.edge_data (graph self) a b)) as Hf.
  cbv zeta in Hf. rewrite <- Hd in Hf. unfold edge_types.
  apply has_edge_data in He as [d Hd']; [|assumption].
  rewrite Hd' in *. destruct Hf as (_ & -> & _).
  destruct (nx.edge_data (graph self) a b); reflexivity.
Qed.

Lemma observed_types_gather_witness :
  edge_types
    (graph (observe [("A", "B", "login", 3); ("C", "A", "ssh", 1); ("B", "A", "rdp", 2)]
              started)) "A" "B" =
  Some (default ∅ (edge_types (graph started) "A" "B")
        ∪ types_between "A" "B"
            [("A", "B", "login", 3); ("C", "A", "ssh", 1); ("B", "A", "rdp", 2)]).
Proof.
  exact (observed_types_gather started
           [("A", "B", "login", 3); ("C", "A", "ssh", 1); ("B", "A", "rdp", 2)]
           "A" "B" reachable_started eq_refl eq_refl).
Defined.

(** ** The order in which assets enter the graph *)

Lemma filter_ne_comm (x y : string) (l : list string) :
  filter (fun z => z <> x) (filter (fun z => z <> y) l) =
  filter (fun z => z <> y) (filter (fun z => z <> x) l).
Proof.
  induction l as [|z l IH]; [reflexivity|].
  rewrite !(filter_cons _ z).
  destruct (decide (z <> y)), (decide (z <> x));
    rewrite ?filter_cons_True, ?filter_cons_False by tauto; rewrite ?IH; reflexivity.
Qed.

Lemma filter_ne_idemp (x : string) (l : list string) :
  filter (fun z => z <> x) (filter (fun z => z <> x) l) = filter (fun z => z <> x) l.
Proof.
  induction l as [|z l IH]; [reflexivity|].
  rewrite !(filter_cons _ z). destruct (decide (z <> x)).
  - rewrite filter_cons_True by assumption. rewrite IH. reflexivity.
  - exact IH.
Qed.

Lemma first_mentions_drop (x : string) (l1 l2 : list string) :
  filter (fun z => z <> x) (first_mentions (l1 ++ x :: l2)) =
  filter (fun z => z <> x) (first_mentions (l1 ++ l2)).
Proof.
  induction l1 as [|p l1 IH]; simpl.
  - rewrite filter_cons_False by tauto. apply filter_ne_idemp.
  - rewrite !(filter_cons _ p). rewrite !(filter_ne_comm x p), IH. reflexivity.
Qed.

(** A name that was mentioned before adds nothing. *)
Lemma first_mentions_again (x : string) (l1 l2 : list string) :
  x ∈ l1 -> first_mentions (l1 ++ x :: l2) = first_mentions (l1 ++ l2).
Proof.
  induction l1 as [|p l1 IH]; simpl; intros Hin.
  - apply elem_of_nil in Hin. contradiction.
  - f_equal. destruct (decide (x = p)) as [->|Hne].
    + apply first_mentions_drop.
    + apply elem_of_cons in Hin as [?|Hin]; [contradiction|]. rewrite IH by assumption.
      reflexivity.
Qed.

Lemma first_mentions_NoDup (l : list string) : NoDup l -> first_mentions l = l.
Proof.
  induction 1 as [|x l Hx Hnd IH]; simpl; [reflexivity|].
  rewrite IH. f_equal. clear IH Hnd. induction l as [|y l IH]; [reflexivity|].
  rewrite filter_cons_True.
  - f_equal. apply IH. intros H. apply Hx. right. exact H.
  - intros ->. apply Hx. left.
Qed.

Lemma has_node_elem g x : nx.has_node g x = true <-> x ∈ nx.nodes g.
Proof.
  rewrite has_node_is_Some. unfold nx.nodes. apply dict_get_is_Some.
Qed.

Lemma observe_nodes l self :
  reachable self -> is_initialized self = true ->
  nx.nodes (graph (observe l self)) =
  first_mentions (nx.nodes (graph self) ++ endpoints l).
Proof.
  revert self. induction l as [|[[[s t] ct] w] l IH]; intros self R Hi; simpl.
  - unfold endpoints. simpl. rewrite app_nil_r. symmetry.
    apply first_mentions_NoDup, (wf_nodes (reachable_wf self R)).
  - pose proof (add_connection_started self s t ct w R Hi) as (_ & Hi' & Hn & _).
    rewrite (IH _ (reach_add _ s t ct w R) Hi'), Hn. clear IH Hn.
    change (endpoints ((s, t, ct, w) :: l)) with (s :: t :: endpoints l).
    destruct (nx.has_node (graph self) s) eqn:Hs; simpl.
    + apply has_node_elem in Hs.
      rewrite (first_mentions_again s _ (t :: endpoints l) Hs).
      destruct (nx.has_node (graph self) t) eqn:Ht; simpl.
      * rewrite app_nil_r. apply has_node_elem in Ht.
        rewrite (first_mentions_again t _ _ Ht). reflexivity.
      * destruct (String.eqb_spec t s) as [->|Hne].
        -- apply has_node_elem in Hs. congruence.
        -- rewrite <- app_assoc. reflexivity.
    + destruct (nx.has_node (graph self) t) eqn:Ht; simpl.
      * apply has_node_elem in Ht.
        replace (nx.nodes (graph self) ++ s :: t :: endpoints l)
          with ((nx.nodes (graph self) ++ [s]) ++ t :: endpoints l)
          by (rewrite <- app_assoc; reflexivity).
        rewrite (first_mentions_again t (nx.nodes (graph self) ++ [s]) (endpoints l))
          by (apply elem_of_app; left; exact Ht).
        reflexivity.
      * destruct (String.eqb_spec t s) as [->|Hne]; simpl.
        -- replace (nx.nodes (graph self) ++ s :: s :: endpoints l)
             with ((nx.nodes (graph self) ++ [s]) ++ s :: endpoints l)
             by (rewrite <- app_assoc; reflexivity).
           rewrite (first_mentions_again s (nx.nodes (graph self) ++ [s]) (endpoints l))
             by (apply elem_of_app; right; left).
           reflexivity.
        -- rewrite <- !app_assoc. reflexivity.
Qed.

(** X3.  The assets of the graph are the assets that observations named,
    in the order of their first mention. *)
Theorem assets_in_order_of_first_mention (l : list (string * string * string * Q)) :
  nx.nodes (graph (observe l started)) = first_mentions (endpoints l) /\
  forall x, nx.has_node (graph (observe l started)) x = true <-> x ∈ endpoints l.
Proof.
  assert (H : nx.nodes (graph (observe l started)) = first_mentions (endpoints l))
    by apply (observe_nodes l started reachable_started eq_refl).
  split; [exact H|].
  intros x. rewrite has_node_elem, H. clear H.
  induction (endpoints l) as [|y e IH]; simpl.
  - reflexivity.
  - rewrite !elem_of_cons, list_elem_of_filter, IH.
    destruct (decide (x = y)); tauto.
Qed.

(** ** Every answer of [detect_lateral_movement] *)

Lemma walk_nodes_length u (steps : list (string * Q)) :
  (Z.of_nat (length (walk_nodes u steps)) - 1)%Z = Z.of_nat (length steps).
Proof. unfold walk_nodes. simpl. rewrite length_map. lia. Qed.

(** X4.  [detect_lateral_movement] always answers; the risk is never above
    1 and the flag says whether it is above 0.7. *)
Theorem detect_always_answers (self : GraphAnalyzer) (source target : string) :
  reachable self ->
  exists r, detect_lateral_movement self source target = Ok r /\
            risk_score r <= 1 /\
            (is_suspicious r = true <-> 7 # 10 < risk_score r).
Proof.
  intros R. pose proof (reachable_wf self R) as W.
  assert (Hzero : exists r, Ok no_movement = Ok r /\ risk_score r <= 1 /\
                            (is_suspicious r = true <-> 7 # 10 < risk_score r)).
  { exists no_movement. split; [reflexivity|]. simpl. split; [lra|].
    split; [discriminate|lra]. }
  unfold detect_lateral_movement.
  destruct (is_initialized self); simpl; [|exact Hzero].
  destruct (nx.has_node (graph self) source) eqn:Hs; simpl; [|exact Hzero].
  destruct (nx.has_node (graph self) target) eqn:Ht; simpl; [|exact Hzero].
  unfold score_path.
  destruct (has_path_correct (graph self) source target W Hs Ht) as [[-> _]|[-> _]];
    cbn [res_bind]; [|exact Hzero].
  unfold nx.shortest_path.
  pose proof (bidirectional_dijkstra_ends (graph self) source target) as Hd.
  destruct (nx.bidirectional_dijkstra (graph self) source target) as [[fd p]|e|];
    cbn [res_bind snd]; [|exact Hzero|contradiction].
  pose proof (edge_weights_not_Diverge (graph self) p) as He.
  destruct (edge_weights (graph self) p) as [ws|e|]; cbn [res_bind];
    [|exact Hzero|contradiction].
  eexists. split; [reflexivity|]. simpl. split; [apply py_min_le_l|apply Qltb_lt].
Qed.

Lemma detect_always_answers_witness :
  exists r, detect_lateral_movement chain_abc "A" "C" = Ok r /\
            risk_score r <= 1 /\
            (is_suspicious r = true <-> 7 # 10 < risk_score r).
Proof.
  apply (detect_always_answers chain_abc "A" "C").
  apply reachable_observe, reachable_started.
Defined.

Lemma has_route_dec g s t :
  wf_graph g -> has_route g s t \/ ~ has_route g s t.
Proof.
  intros W. destruct (nx.has_node g s) eqn:Hs.
  - destruct (nx.has_node g t) eqn:Ht.
    + destruct (has_path_correct g s t W Hs Ht) as [[_ Hc]|[_ Hc]].
      * left. apply (has_route_connected g W). auto.
      * right. intros H. apply (has_route_connected g W) in H as [_ H]. contradiction.
    + right. intros (p & Hp & Hj).
      destruct (path_ends g W p s t Hp Hj) as [_ H]. congruence.
  - right. intros H. apply (has_route_connected g W) in H as [H _]. congruence.
Qed.

Lemma no_route_no_movement self s t :
  reachable self -> ~ has_route (graph self) s t ->
  detect_lateral_movement self s t = Ok no_movement.
Proof.
  intros R Hno. pose proof (reachable_wf self R) as W.
  unfold detect_lateral_movement.
  destruct (is_initialized self); simpl; [|reflexivity].
  destruct (nx.has_node (graph self) s) eqn:Hs; simpl; [|reflexivity].
  destruct (nx.has_node (graph self) t) eqn:Ht; simpl; [|reflexivity].
  unfold score_path.
  destruct (has_path_correct (graph self) s t W Hs Ht) as [[_ Hc]|[-> _]];
    [|reflexivity].
  exfalso. apply Hno. apply (has_route_connected (graph self) W). auto.
Qed.

(** X5.  Where no path joins the two assets, or one of them is not in the
    graph, the answer is the one of risk 0 with the empty path. *)
Theorem detect_without_route (self : GraphAnalyzer) (source target : string) :
  reachable self -> ~ has_route (graph self) source target ->
  detect_lateral_movement self source target = Ok no_movement.
Proof. apply no_route_no_movement. Qed.

Lemma two_links_apart : ~ has_route (graph two_links) "A" "C".
Proof.
  intros H. apply (has_route_connected (graph two_links)) in H as [_ Hc].
  - assert (Hinv : forall steps u, u = "A" \/ u = "B" ->
              steps_from (nx.neighbors (graph two_links)) u steps ->
              walk_end u steps = "A" \/ walk_end u steps = "B").
    { induction steps as [|[v c] steps IH]; intros u Hu; simpl; [auto|].
      intros [Hv Hs]. apply (IH v); [|exact Hs].
      destruct Hu as [-> | ->].
      + change (nx.neighbors (graph two_links) "A") with [("B", 10)] in Hv.
        apply list_elem_of_singleton in Hv. injection Hv as H1 H2. auto.
      + change (nx.neighbors (graph two_links) "B") with [("A", 10)] in Hv.
        apply list_elem_of_singleton in Hv. injection Hv as H1 H2. auto. }
    destruct Hc as (steps & Hs & He).
    destruct (Hinv steps "A" (or_introl eq_refl) Hs) as [H|H]; rewrite He in H; discriminate.
  - apply reachable_wf, reachable_observe, reachable_started.
Qed.

Lemma detect_without_route_witness :
  detect_lateral_movement two_links "A" "C" = Ok no_movement.
Proof.
  apply (detect_without_route two_links "A" "C").
  - apply reachable_observe, reachable_started.
  - exact two_links_apart.
Defined.

(** X6.  With weights that are not negative the risk is not negative, and
    the answer carries a path exactly when one joins the two assets. *)
Theorem detect_risk_not_negative (self : GraphAnalyzer) (source target : string) :
  reachable self -> nonneg_weights (graph self) ->
  exists r, detect_lateral_movement self source target = Ok r /\
            0 <= risk_score r /\
            (path r <> [] <-> has_route (graph self) source target).
Proof.
  intros R Hnn. pose proof (reachable_wf self R) as W.
  destruct (has_route_dec (graph self) source target W) as [Hr|Hr].
  - pose proof Hr as Hr'.
    apply (has_route_connected (graph self) W) in Hr' as [Hs Hc].
    assert (Ht : nx.has_node (graph self) target = true).
    { destruct Hr as (p & Hp & Hj). apply (path_ends (graph self) W p _ _ Hp Hj). }
    destruct (detect_connected self source target R Hnn Hs Ht Hc)
      as (steps & Hsteps & _ & _ & _ & ->).
    eexists. split; [reflexivity|]. cbn [risk_score path].
    split; [|split; [auto|unfold walk_nodes; discriminate]].
    rewrite py_min_spec. apply Q.min_glb; [lra|].
    rewrite walk_nodes_length, py_sum_cost.
    pose proof (walk_cost_nonneg _ Hnn source steps Hsteps) as Hc0.
    assert (0 <= inject_Z (Z.of_nat (length steps))).
    { change 0 with (inject_Z 0). rewrite <- Zle_Qle. lia. }
    unfold Qdiv. apply Qmult_le_0_compat; [apply Qmult_le_0_compat; assumption|].
    unfold Qle. simpl. lia.
  - rewrite (no_route_no_movement self source target R Hr).
    exists no_movement. split; [reflexivity|]. simpl. split; [lra|].
    split; [congruence|contradiction].
Qed.

Lemma detect_risk_not_negative_witness :
  exists r, detect_lateral_movement chain_abc "A" "C" = Ok r /\
            0 <= risk_score r /\
            (path r <> [] <-> has_route (graph chain_abc) "A" "C").
Proof.
  apply (detect_risk_not_negative chain_abc "A" "C"); apply chain_abc_ready.
Defined.

(** X7.  On a graph whose weights are whole numbers that floats add
    without rounding ([whole_weights]), the total weight reported for a
    pair does not depend on which of the two assets is taken as the
    source. *)
Theorem total_weight_symmetric (self : GraphAnalyzer) (a b : string) :
  reachable self -> whole_weights (graph self) ->
  has_route (graph self) a b ->
  exists r r' q q',
    detect_lateral_movement self a b = Ok r /\
    detect_lateral_movement self b a = Ok r' /\
    total_weight r = Some q /\ total_weight r' = Some q' /\ q == q'.
Proof.
  intros R Hnn Hr. pose proof (reachable_wf self R) as W.
  apply whole_nonneg in Hnn.
  pose proof Hr as Hr'.
  apply (has_route_connected (graph self) W) in Hr' as [Ha Hc].
  assert (Hb : nx.has_node (graph self) b = true).
  { destruct Hr as (p & Hp & Hj). apply (path_ends (graph self) W p _ _ Hp Hj). }
  pose proof (connected_sym _ (neighbors_sym (graph self) W) a b Hc) as Hc'.
  destruct (detect_connected self a b R Hnn Ha Hb Hc)
    as (steps & Hsteps & Hend & Hleast & _ & ->).
  destruct (detect_connected self b a R Hnn Hb Ha Hc')
    as (steps' & Hsteps' & Hend' & Hleast' & _ & ->).
  eexists _, _, _, _. split; [reflexivity|]. split; [reflexivity|].
  split; [reflexivity|]. split; [reflexivity|].
  rewrite !py_sum_cost.
  destruct (rev_steps_spec _ (neighbors_sym (graph self) W) a steps Hsteps)
    as (I1 & I2 & I3 & _).
  destruct (rev_steps_spec _ (neighbors_sym (graph self) W) b steps' Hsteps')
    as (J1 & J2 & J3 & _).
  rewrite Hend in I1, I2. rewrite Hend' in J1, J2.
  pose proof (Hleast _ J1 J2). pose proof (Hleast' _ I1 I2). lra.
Qed.

Lemma total_weight_symmetric_witness :
  exists r r' q q',
    detect_lateral_movement chain_abc "A" "C" = Ok r /\
    detect_lateral_movement chain_abc "C" "A" = Ok r' /\
    total_weight r = Some q /\ total_weight r' = Some q' /\ q == q'.
Proof.
  apply (total_weight_symmetric chain_abc "A" "C").
  - apply chain_abc_ready.
  - apply chain_abc_whole.
  - exists ["A"; "B"; "C"]. split; apply chain_abc_ready.
Defined.

(** ** Thresholds of [get_attack_paths] *)

Section SortedFilter.

Context {A : Type}.
Variable key : A -> Q.
Variable P : A -> Prop.
Context `{!forall x, Decision (P x)}.

Lemma insert_desc_filter_in x l :
  StronglySorted (fun a b => key b <= key a) l -> P x ->
  filter P (insert_desc key x l) = insert_desc key x (filter P l).
Proof.
  intros Hs Hx. induction Hs as [|y l Hs IH Hall]; simpl.
  - rewrite filter_cons_True by assumption. reflexivity.
  - destruct (Qltb (key x) (key y)) eqn:E.
    + rewrite !(filter_cons _ y), IH. destruct (decide (P y)); [|reflexivity].
      simpl. rewrite E. reflexivity.
    + rewrite filter_cons_True by assumption. rewrite (filter_cons _ y).
      destruct (decide (P y)); simpl; [rewrite E; reflexivity|].
      apply Qltb_ge in E. clear IH Hs.
      induction l as [|z l IH]; [reflexivity|].
      apply Forall_cons in Hall as [Hz Hall]. rewrite (filter_cons _ z).
      destruct (decide (P z)); [|apply IH, Hall]. simpl.
      assert (Qltb (key x) (key z) = false) as -> by (apply Qltb_ge; lra).
      reflexivity.
Qed.

Lemma insert_desc_filter_out x l :
  ~ P x -> filter P (insert_desc key x l) = filter P l.
Proof.
  intros Hx. induction l as [|y l IH]; simpl.
  - rewrite filter_cons_False by assumption. reflexivity.
  - destruct (Qltb (key x) (key y)).
    + rewrite !(filter_cons _ y), IH. reflexivity.
    + rewrite filter_cons_False by assumption. reflexivity.
Qed.

(** A stable sort and a filter can be done in either order. *)
Lemma sorted_reverse_filter l :
  filter P (sorted_reverse key l) = sorted_reverse key (filter P l).
Proof.
  induction l as [|x l IH]; simpl; [reflexivity|].
  rewrite (filter_cons _ x). destruct (decide (P x)) as [Hx|Hx].
  - rewrite insert_desc_filter_in by (apply sorted_reverse_sorted || assumption).
    simpl. rewrite IH. reflexivity.
  - rewrite insert_desc_filter_out by assumption. exact IH.
Qed.

End SortedFilter.

(** The entries above a bound stand first in a list in descending order. *)
Lemma filter_above_prefix {A : Type} (key : A -> Q) (q : Q) (l : list A) :
  StronglySorted (fun a b => key b <= key a) l ->
  filter (fun x => Qltb q (key x) = true) l `prefix_of` l.
Proof.
  induction 1 as [|y l Hs IH Hall]; [reflexivity|].
  rewrite filter_cons. destruct (decide (Qltb q (key y) = true)) as [Hy|Hy].
  - apply prefix_cons, IH.
  - replace (filter _ l) with (@nil A); [apply prefix_nil|].
    symmetry. clear IH Hs. induction l as [|z l IH]; [reflexivity|].
    apply Forall_cons in Hall as [Hz Hall]. rewrite filter_cons_False; [apply IH, Hall|].
    intros Hq. apply Hy. apply Qltb_lt in Hq. apply Qltb_lt. lra.
Qed.

(** X8.  The answer for a higher threshold is the front part of the answer
    for a lower one. *)
Theorem higher_threshold_gives_prefix (self : GraphAnalyzer) (low high : Q) :
  reachable self -> low <= high ->
  exists l_low l_high,
    get_attack_paths self low = Ok l_low /\
    get_attack_paths self high = Ok l_high /\
    l_high = filter (fun x => Qltb high (risk x) = true) l_low /\
    l_high `prefix_of` l_low.
Proof.
  intros R Hle. exists (sorted_reverse risk (above self low)).
  exists (sorted_reverse risk (above self high)).
  split; [apply get_attack_paths_sorted, R|].
  split; [apply get_attack_paths_sorted, R|].
  assert (H : sorted_reverse risk (above self high) =
              filter (fun x => Qltb high (risk x) = true)
                (sorted_reverse risk (above self low))).
  { rewrite sorted_reverse_filter. f_equal. unfold above.
    rewrite list_filter_filter. apply list_filter_iff. intros x.
    rewrite !Qltb_lt. split; [|tauto]. intros H. split; [assumption|lra]. }
  split; [exact H|]. rewrite H. apply filter_above_prefix, sorted_reverse_sorted.
Qed.

Lemma higher_threshold_gives_prefix_witness :
  exists l_low l_high,
    get_attack_paths chain_abc (1 # 2) = Ok l_low /\
    get_attack_paths chain_abc (9 # 10) = Ok l_high /\
    l_high = filter (fun x => Qltb (9 # 10) (risk x) = true) l_low /\
    l_high `prefix_of` l_low.
Proof.
  apply (higher_threshold_gives_prefix chain_abc (1 # 2) (9 # 10)).
  - apply chain_abc_ready.
  - unfold Qle. simpl. lia.
Defined.

(** ** Roles and permissions *)

Lemma permissions_of_role (r : string) :
  default [] (dict_get r security.ROLE_PERMISSIONS) =
  if String.eqb r "admin" then
    ["read:all"; "write:all"; "delete:all"; "train:models";
     "manage:users"; "manage:system"; "export:reports"]
  else if String.eqb r "analyst" then
    ["read:alerts"; "write:alerts"; "read:reports"; "export:reports";
     "read:metrics"; "read:visualizations"]
  else if String.eqb r "viewer" then
    ["read:alerts"; "read:reports"; "read:metrics"; "read:visualizations"]
  else [].
Proof.
  unfold security.ROLE_PERMISSIONS. cbn [dict_get].
  destruct (String.eqb r "admin"); [reflexivity|].
  destruct (String.eqb r "analyst"); [reflexivity|].
  destruct (String.eqb r "viewer"); reflexivity.
Qed.

Lemma nobody_passes_write_events (user : security.User) :
  security.require_permission "write:events" user =
  Raises (HTTPException 403 "Permission 'write:events' required").
Proof.
  unfold security.require_permission, security.has_permission.
  rewrite permissions_of_role.
  destruct (String.eqb (security.role user) "admin"); [reflexivity|].
  destruct (String.eqb (security.role user) "analyst"); [reflexivity|].
  destruct (String.eqb (security.role user) "viewer"); reflexivity.
Qed.

(** X9.  No user, whatever the role, passes the permission check of the
    endpoint that creates events: the permissions of a role are compared
    literally, and no role lists [write:events]. *)
Theorem nobody_may_write_events (user : security.User) :
  security.require_permission "write:events" user =
  Raises (HTTPException 403 "Permission 'write:events' required").
Proof. apply nobody_passes_write_events. Qed.

(** X10.  The permission that the endpoints changing alerts ask for is
    held by analysts alone; an administrator is turned away, since
    [write:all] is not read as a wildcard. *)
Theorem only_analysts_may_write_alerts (user : security.User) :
  (exists u, security.require_permission "write:alerts" user = Returns u)
  <-> security.role user = "analyst".
Proof.
  unfold security.require_permission, security.has_permission.
  rewrite permissions_of_role.
  destruct (String.eqb_spec (security.role user) "admin") as [E|E].
  { rewrite E. split; [intros [u H]; discriminate|discriminate]. }
  destruct (String.eqb_spec (security.role user) "analyst") as [E'|E'].
  { split; [auto|]. intros _. eexists. reflexivity. }
  split; [|contradiction].
  destruct (String.eqb (security.role user) "viewer"); intros [u H]; discriminate.
Qed.

(** X11.  Whatever a viewer may do an analyst may do; the role of
    administrator is no such upper bound. *)
Theorem analysts_may_do_what_viewers_may :
  (forall (viewer analyst : security.User) (permission : string),
      security.role viewer = "viewer" -> security.role analyst = "analyst" ->
      security.has_permission viewer permission = true ->
      security.has_permission analyst permission = true) /\
  (forall admin : security.User,
      security.role admin = "admin" ->
      security.has_permission admin "read:alerts" = false).
Proof.
  unfold security.has_permission. split.
  - intros v a p Hv Ha. rewrite !permissions_of_role, Hv, Ha. simpl.
    rewrite !bool_decide_eq_true, !elem_of_cons. tauto.
  - intros a Ha. rewrite permissions_of_role, Ha. reflexivity.
Qed.

Lemma analysts_may_do_what_viewers_may_witness :
  security.has_permission
    {| security.id := "2"; security.username := "ann"; security.email := "ann@securityai.com";
       security.role := "analyst"; security.is_active := true;
       security.created_at := 0; security.last_login := None |} "read:alerts" = true.
Proof.
  apply (proj1 analysts_may_do_what_viewers_may
           {| security.id := "1"; security.username := "vic";
              security.email := "vic@securityai.com";
              security.role := "viewer"; security.is_active := true;
              security.created_at := 0; security.last_login := None |}
           {| security.id := "2"; security.username := "ann";
              security.email := "ann@securityai.com";
              security.role := "analyst"; security.is_active := true;
              security.created_at := 0; security.last_login := None |}
           "read:alerts"); reflexivity.
Defined.

(** ** The request limiter *)

Section RateLimiterFacts.

Import RateLimiterMiddleware.

Lemma recent_recent (ws ws' : Q) (l : list Q) :
  ws' <= ws -> recent ws (recent ws' l) = recent ws l.
Proof.
  intros Hle. unfold recent. rewrite list_filter_filter. apply list_filter_iff.
  intros x. rewrite !Qltb_lt. split; [tauto|]. intros H. split; [assumption|lra].
Qed.

Lemma recent_length (ws : Q) (l : list Q) : (length (recent ws l) <= length l)%nat.
Proof. apply length_filter. Qed.

Lemma requests_of_insert_eq requests cl l :
  requests_of (<[cl := l]> requests) cl = l.
Proof. unfold requests_of. rewrite lookup_insert_eq. reflexivity. Qed.

Lemma requests_of_insert_ne requests cl cl' l :
  cl <> cl' -> requests_of (<[cl := l]> requests) cl' = requests_of requests cl'.
Proof. intros H. unfold requests_of. rewrite lookup_insert_ne by assumption. reflexivity. Qed.

Lemma requests_of_cleanup t requests cl :
  requests_of (cleanup_old_requests t requests) cl =
  recent (t - 60) (requests_of requests cl).
Proof.
  unfold requests_of, cleanup_old_requests. rewrite lookup_omap.
  destruct (requests !! cl) as [times|]; simpl; [|reflexivity].
  destruct (recent (t - 60) times); reflexivity.
Qed.

Lemma keeps_later now now' requests history :
  now <= now' -> keeps now requests history -> keeps now' requests history.
Proof. intros Hle K cl ws Hws. apply K. lra. Qed.

Lemma keeps_pruned now t requests history cl :
  now <= t -> keeps now requests history ->
  keeps t (<[cl := recent (t - 60) (requests_of requests cl)]> requests) history.
Proof.
  intros Hle K cl' ws Hws. destruct (decide (cl = cl')) as [<-|Hne].
  - rewrite requests_of_insert_eq, recent_recent by assumption. apply K. lra.
  - rewrite requests_of_insert_ne by assumption. apply K. lra.
Qed.

Lemma keeps_added now t requests history cl :
  now <= t -> keeps now requests history ->
  keeps t (_add_request t cl requests) (history ++ [(cl, t)]).
Proof.
  intros Hle K cl' ws Hws. unfold _add_request, young.
  rewrite filter_app, map_app. destruct (decide (cl = cl')) as [<-|Hne].
  - rewrite requests_of_insert_eq. unfold recent at 1. rewrite filter_app.
    fold (recent ws (requests_of requests cl)). rewrite (K cl ws) by lra.
    f_equal. rewrite !filter_cons, !filter_nil. simpl.
    destruct (Qltb ws t) eqn:E.
    + rewrite !decide_True by auto. reflexivity.
    + rewrite !decide_False; [reflexivity|intros [_ H]; discriminate|discriminate].
  - rewrite requests_of_insert_ne by assumption. rewrite (K cl' ws) by lra.
    rewrite filter_cons, filter_nil. simpl. rewrite decide_False by tauto.
    rewrite app_nil_r. reflexivity.
Qed.

Lemma keeps_cleanup now t requests history :
  now <= t -> keeps now requests history ->
  keeps t (cleanup_old_requests t requests) history.
Proof.
  intros Hle K cl ws Hws. rewrite requests_of_cleanup, recent_recent by assumption.
  apply K. lra.
Qed.

Lemma run_sliding_window limit events :
  forall now requests history,
    clock_from now (readings events) -> keeps now requests history ->
    (run limit events requests).1 = sliding_window limit events history.
Proof.
  induction events as [|[cl c a|t] events IH]; intros now requests history Hclock K.
  - reflexivity.
  - simpl in Hclock. destruct Hclock as (Hc & Ha & Hclock).
    cbn [run sliding_window]. unfold check_and_record, _is_allowed.
    set (st1 := <[cl := recent (c - 60) (requests_of requests cl)]> requests).
    assert (Hlen : length (requests_of st1 cl) = length (young cl (c - 60) history)).
    { unfold st1. rewrite requests_of_insert_eq, (K cl (c - 60)) by lra.
      apply length_map. }
    assert (K1 : keeps c st1 history) by (apply (keeps_pruned now); assumption).
    rewrite Hlen. fold (young cl (c - 60) history).
    destruct (bool_decide _) eqn:E; simpl.
    + specialize (IH a (_add_request a cl st1) (history ++ [(cl, a)]) Hclock).
      destruct (run limit events _) as [rest st]. simpl in *. f_equal. apply IH.
      apply (keeps_added c); assumption.
    + specialize (IH a st1 history Hclock).
      destruct (run limit events _) as [rest st]. simpl in *. f_equal. apply IH.
      apply (keeps_later c); assumption.
  - simpl in Hclock. destruct Hclock as (Ht & Hclock). cbn [run sliding_window].
    apply (IH t); [assumption|]. apply (keeps_cleanup now); assumption.
Qed.

Lemma keeps_empty now : keeps now ∅ [].
Proof. intros cl ws _. unfold requests_of. rewrite lookup_empty. reflexivity. Qed.

Lemma bounded_check_and_record limit c a cl requests :
  bounded limit requests -> bounded limit (check_and_record limit c a cl requests).2.
Proof.
  intros B cl'. unfold check_and_record, _is_allowed. rewrite requests_of_insert_eq.
  pose proof (recent_length (c - 60) (requests_of requests cl)) as Hl.
  destruct (bool_decide _) eqn:E; simpl.
  - apply bool_decide_eq_true in E. unfold _add_request.
    destruct (decide (cl = cl')) as [<-|Hne].
    + rewrite !requests_of_insert_eq, length_app. simpl. lia.
    + rewrite !requests_of_insert_ne by assumption. apply B.
  - destruct (decide (cl = cl')) as [<-|Hne].
    + rewrite requests_of_insert_eq. specialize (B cl). lia.
    + rewrite requests_of_insert_ne by assumption. apply B.
Qed.

Lemma bounded_run limit events :
  forall requests, bounded limit requests -> bounded limit (run limit events requests).2.
Proof.
  induction events as [|[cl c a|t] events IH]; intros requests B; simpl.
  - exact B.
  - pose proof (bounded_check_and_record limit c a cl requests B) as B'.
    destruct (check_and_record limit c a cl requests) as [allowed st]. simpl in B'.
    specialize (IH st B'). destruct (run limit events st). exact IH.
  - apply IH. intros cl. rewrite requests_of_cleanup.
    pose proof (recent_length (t - 60) (requests_of requests cl)). specialize (B cl). lia.
Qed.

End RateLimiterFacts.

(** X12.  While the clock does not run backwards, the limiter lets through
    exactly the requests that a limiter keeping the whole history would:
    those before which fewer than the limit of the client's accepted
    requests are younger than 60 seconds.  What it forgets at each check,
    and the cleanup task, change nothing. *)
Theorem limiter_is_a_sliding_window
  (RATE_LIMIT_PER_MINUTE : Z) (start : Q) (events : list RateLimiterMiddleware.event) :
  clock_from start (readings events) ->
  (RateLimiterMiddleware.run RATE_LIMIT_PER_MINUTE events ∅).1 =
  sliding_window RATE_LIMIT_PER_MINUTE events [].
Proof.
  intros Hclock. apply (run_sliding_window _ _ start); [assumption|apply keeps_empty].
Qed.

Lemma limiter_is_a_sliding_window_witness :
  (RateLimiterMiddleware.run 2
     [RateLimiterMiddleware.Request "ip:10.0.0.1" 0 0;
      RateLimiterMiddleware.Request "ip:10.0.0.1" 10 10;
      RateLimiterMiddleware.Request "ip:10.0.0.1" 20 20;
      RateLimiterMiddleware.Cleanup 61;
      RateLimiterMiddleware.Request "ip:10.0.0.1" 61 61] ∅).1 =
  sliding_window 2
     [RateLimiterMiddleware.Request "ip:10.0.0.1" 0 0;
      RateLimiterMiddleware.Request "ip:10.0.0.1" 10 10;
      RateLimiterMiddleware.Request "ip:10.0.0.1" 20 20;
      RateLimiterMiddleware.Cleanup 61;
      RateLimiterMiddleware.Request "ip:10.0.0.1" 61 61] [].
Proof.
  apply (limiter_is_a_sliding_window 2 0).
  simpl. unfold Qle. simpl. repeat split; lia.
Defined.

(** X13.  With a limit that is not negative, the header
    [X-RateLimit-Remaining] is never negative, whatever preceded. *)
Theorem remaining_is_not_negative
  (RATE_LIMIT_PER_MINUTE : Z) (events : list RateLimiterMiddleware.event)
  (client_id : string) :
  (0 <= RATE_LIMIT_PER_MINUTE)%Z ->
  (0 <= RateLimiterMiddleware.remaining RATE_LIMIT_PER_MINUTE client_id
          (RateLimiterMiddleware.run RATE_LIMIT_PER_MINUTE events ∅).2)%Z.
Proof.
  intros Hl. unfold RateLimiterMiddleware.remaining.
  assert (B : bounded RATE_LIMIT_PER_MINUTE ∅).
  { intros cl. unfold RateLimiterMiddleware.requests_of. rewrite lookup_empty. simpl. lia. }
  pose proof (bounded_run RATE_LIMIT_PER_MINUTE events ∅ B client_id). lia.
Qed.

Lemma remaining_is_not_negative_witness :
  (0 <= RateLimiterMiddleware.remaining 100 "ip:10.0.0.1"
          (RateLimiterMiddleware.run 100
             [RateLimiterMiddleware.Request "ip:10.0.0.1" 0 0] ∅).2)%Z.
Proof.
  apply (remaining_is_not_negative 100
           [RateLimiterMiddleware.Request "ip:10.0.0.1" 0 0] "ip:10.0.0.1").
  lia.
Defined.

(** ** The Redis helpers *)

Section RedisFacts.

Variable View : Type.
Variable matches : string -> string -> bool.

Lemma elem_of_redis_keys pattern now client k :
  k ∈ redis_keys View matches pattern now client <->
  exists data expiry, client !! k = Some (data, expiry) /\
                      matches pattern k = true /\ (now < expiry)%nat.
Proof.
  unfold redis_keys. rewrite list_elem_of_fmap. split.
  - intros ([k' [d e]] & -> & Hin). apply list_elem_of_filter in Hin as [[Hm Hl] Hin].
    apply elem_of_map_to_list in Hin. simpl in *. eauto.
  - intros (d & e & Hk & Hm & Hl). exists (k, (d, e)). split; [reflexivity|].
    apply list_elem_of_filter. split; [auto|]. apply elem_of_map_to_list. exact Hk.
Qed.

Lemma invalidate_cache_delete pattern now client :
  invalidate_cache View matches pattern now client =
  redis_delete View (redis_keys View matches pattern now client) client.
Proof.
  unfold invalidate_cache. destruct (redis_keys View matches pattern now client); reflexivity.
Qed.

(** X14.  After [invalidate_cache], nothing is read under a key that
    matches the pattern, and what is read under the others is as
    before. *)
Theorem invalidated_keys_read_nothing
  (pattern key : string) (now later : nat) (client : gmap string (View * nat)) :
  (now <= later)%nat ->
  get_cached_data View key later (invalidate_cache View matches pattern now client) =
  if matches pattern key then None else get_cached_data View key later client.
Proof.
  intros Hle. rewrite invalidate_cache_delete. unfold get_cached_data, redis_delete.
  destruct (decide (key ∈ redis_keys View matches pattern now client)) as [Hin|Hout].
  - rewrite lookup_foldr_delete by assumption.
    apply elem_of_redis_keys in Hin as (d & e & _ & -> & _). reflexivity.
  - rewrite lookup_foldr_delete_not_elem_of by assumption.
    destruct (client !! key) as [[d e]|] eqn:E; [|destruct (matches pattern key); reflexivity].
    destruct (matches pattern key) eqn:Hm; [|reflexivity].
    destruct (later <? e)%nat eqn:Hl; [|reflexivity].
    apply Nat.ltb_lt in Hl. exfalso. apply Hout. apply elem_of_redis_keys.
    exists d, e. split; [assumption|]. split; [assumption|lia].
Qed.

End RedisFacts.

Lemma invalidated_keys_read_nothing_witness :
  get_cached_data nat "alerts:100" 20
    (invalidate_cache nat (fun p k => String.prefix "alerts:" k) "alerts:*" 10
       (cache_data nat "alerts:100" 7%nat 300 0 ∅)) =
  if String.prefix "alerts:" "alerts:100" then None
  else get_cached_data nat "alerts:100" 20 (cache_data nat "alerts:100" 7%nat 300 0 ∅).
Proof.
  apply (invalidated_keys_read_nothing nat (fun p k => String.prefix "alerts:" k)
           "alerts:*" "alerts:100" 10 20). lia.
Defined.

(** ** The cache of the alert lists *)

Section AlertsCache.

Variable View : Type.
Variable Db : Type.
Variable build_alerts :
  Db -> Z -> option string -> option string -> option string -> option string -> View.

Lemma alerts_key_not_star limit severity status category asset_id :
  alerts_key limit severity status category asset_id <> "alerts:*".
Proof.
  unfold alerts_key. intros H. simpl in H. injection H as H.
  destruct (pretty limit) as [|c rest]; simpl in H; [discriminate|].
  injection H as _ H. destruct rest; discriminate.
Qed.

Lemma alerts_miss now db limit severity status category asset_id client :
  get_cached_data View (alerts_key limit severity status category asset_id) now client
    = None ->
  get_alerts View Db build_alerts now db limit severity status category asset_id client =
  (build_alerts db limit severity status category asset_id,
   <[alerts_key limit severity status category asset_id :=
       (build_alerts db limit severity status category asset_id, (now + 300)%nat)]>
     client).
Proof. intros Hc. unfold get_alerts. rewrite Hc. reflexivity. Qed.

(** X15.  The step that is meant to invalidate the cached alert lists
    removes none of them: a list cached before a change of the alerts is
    served again, for the same filters, until its 300 seconds are
    over. *)
Theorem alert_lists_outlive_their_invalidation
  (now later : nat) (db db' : Db) (limit : Z)
  (severity status category asset_id : option string)
  (client : gmap string (View * nat)) :
  get_cached_data View (alerts_key limit severity status category asset_id) now client
    = None ->
  (later < now + 300)%nat ->
  let first := get_alerts View Db build_alerts now db limit severity status category
                 asset_id client in
  let second := get_alerts View Db build_alerts later db' limit severity status category
                  asset_id (delete_alerts_star View first.2) in
  first.1 = build_alerts db limit severity status category asset_id /\
  second.1 = first.1.
Proof.
  intros Hmiss Hlt. cbv zeta. rewrite (alerts_miss _ _ _ _ _ _ _ _ Hmiss). simpl.
  split; [reflexivity|]. unfold get_alerts, get_cached_data, delete_alerts_star, redis_delete.
  simpl. rewrite lookup_delete_ne by (apply not_eq_sym, alerts_key_not_star).
  rewrite lookup_insert_eq. apply Nat.ltb_lt in Hlt. rewrite Hlt. reflexivity.
Qed.

End AlertsCache.

Lemma alert_lists_outlive_their_invalidation_witness :
  (get_alerts nat nat (fun db _ _ _ _ _ => db) 0 1%nat 100 None None None None ∅).1 = 1%nat /\
  (get_alerts nat nat (fun db _ _ _ _ _ => db) 10 2%nat 100 None None None None
     (delete_alerts_star nat
        (get_alerts nat nat (fun db _ _ _ _ _ => db) 0 1%nat 100 None None None None ∅).2)).1 =
  (get_alerts nat nat (fun db _ _ _ _ _ => db) 0 1%nat 100 None None None None ∅).1.
Proof.
  apply (alert_lists_outlive_their_invalidation nat nat (fun db _ _ _ _ _ => db)
           0 10 1%nat 2%nat 100 None None None None ∅).
  - reflexivity.
  - lia.
Defined.

(** ** The pipeline *)

Lemma predict_without_model_anomaly (self : AnomalyDetector.t) (data : Event) :
  AnomalyDetector.model self = None ->
  AnomalyDetector.predict self data = AnomalyDetector.no_prediction.
Proof.
  intros H. unfold AnomalyDetector.predict, AnomalyDetector.decision. rewrite H.
  destruct (AnomalyDetector.is_trained self); reflexivity.
Qed.

Lemma predict_without_model_classifier (self : ThreatClassifier.t) (data : Event) :
  ThreatClassifier.model self = None ->
  ThreatClassifier.predict self data = ThreatClassifier.no_prediction.
Proof.
  intros H. unfold ThreatClassifier.predict. rewrite H.
  destruct (ThreatClassifier.is_trained self); reflexivity.
Qed.

Lemma parse_without_model (re : Text) (self : LogParser.t) (log_message : Value) :
  LogParser.model self = None ->
  LogParser.parse_log re self log_message = LogParser.nothing_parsed.
Proof.
  intros H. unfold LogParser.parse_log. rewrite H.
  destruct (LogParser.is_loaded self); [|reflexivity]. simpl.
  destruct log_message as [s| |]; try reflexivity.
  destruct (LogParser.tokenizer self) as [tokenize|]; [|reflexivity].
  simpl. destruct (tokenize s); reflexivity.
Qed.

Lemma graph_result_total (self : MLPipeline.t) (a b : Value) :
  reachable (MLPipeline.graph_analyzer self) ->
  exists r, MLPipeline.graph_result self a b = Ok r /\ risk_score r <= 1.
Proof.
  intros R. unfold MLPipeline.graph_result.
  assert (Hzero : exists r, Ok no_movement = Ok r /\ risk_score r <= 1).
  { exists no_movement. split; [reflexivity|]. simpl. lra. }
  destruct a as [s| |]; try exact Hzero. destruct b as [t| |]; try exact Hzero.
  apply detect_total, R.
Qed.

(** X16.  After [cleanup] the pipeline still takes itself for initialized
    and answers every event, with no anomaly, the label benign, nothing
    parsed from the log and an overall threat score of 0. *)
Theorem after_cleanup_every_event_scores_zero
  (re : Text) (self : MLPipeline.t) (event_data : Event) :
  MLPipeline.is_initialized self = true ->
  exists r,
    MLPipeline.analyze_event re (MLPipeline.cleanup self) event_data
      = Ok (MLPipeline.Analyzed r) /\
    MLPipeline.anomaly_detection r = AnomalyDetector.no_prediction /\
    MLPipeline.threat_classification r = ThreatClassifier.no_prediction /\
    (forall parsed, MLPipeline.log_parsing r = Some parsed ->
                    parsed = LogParser.nothing_parsed) /\
    (forall g, MLPipeline.graph_analysis r = Some g -> g = no_movement) /\
    MLPipeline.overall_threat_score r == 0.
Proof.
  intros Hi. unfold MLPipeline.analyze_event.
  assert (Hc : MLPipeline.is_initialized (MLPipeline.cleanup self) = true) by exact Hi.
  rewrite Hc. simpl negb. cbv iota.
  rewrite predict_without_model_anomaly by reflexivity.
  rewrite predict_without_model_classifier by reflexivity.
  assert (Hg : forall a b, MLPipeline.graph_result (MLPipeline.cleanup self) a b
                           = Ok no_movement).
  { intros a b. unfold MLPipeline.graph_result.
    destruct a as [s| |]; try reflexivity. destruct b as [t| |]; try reflexivity.
    unfold detect_lateral_movement. simpl.
    destruct (is_initialized (MLPipeline.graph_analyzer self)); reflexivity. }
  destruct (event_data !! "source_asset") as [a|];
    [destruct (event_data !! "target_asset") as [b|]|].
  - rewrite Hg. cbn [res_bind]. eexists. split; [reflexivity|]. simpl.
    split; [reflexivity|]. split; [reflexivity|]. split; [|split].
    + intros parsed. destruct (event_data !! "log_message"); [|discriminate].
      intros [= <-]. apply parse_without_model. reflexivity.
    + intros g [= <-]. reflexivity.
    + reflexivity.
  - eexists. split; [reflexivity|]. simpl.
    split; [reflexivity|]. split; [reflexivity|]. split; [|split].
    + intros parsed. destruct (event_data !! "log_message"); [|discriminate].
      intros [= <-]. apply parse_without_model. reflexivity.
    + discriminate.
    + reflexivity.
  - eexists. split; [reflexivity|]. simpl.
    split; [reflexivity|]. split; [reflexivity|]. split; [|split].
    + intros parsed. destruct (event_data !! "log_message"); [|discriminate].
      intros [= <-]. apply parse_without_model. reflexivity.
    + discriminate.
    + reflexivity.
Qed.

Lemma after_cleanup_every_event_scores_zero_witness :
  exists r,
    MLPipeline.analyze_event
      {| lower := fun s => s; findall_ip := fun _ => []; search_user := fun _ => None |}
      (MLPipeline.cleanup
         (MLPipeline.initialize (Returns (fun _ => Returns [])) (Returns (fun _ => Returns []))
            {| MLPipeline.anomaly_detector_joblib := None;
               MLPipeline.threat_classifier_joblib := None |} MLPipeline.__init__).2)
      {["source_asset" := Str "A"; "target_asset" := Str "B"]}
      = Ok (MLPipeline.Analyzed r) /\
    MLPipeline.anomaly_detection r = AnomalyDetector.no_prediction /\
    MLPipeline.threat_classification r = ThreatClassifier.no_prediction /\
    (forall parsed, MLPipeline.log_parsing r = Some parsed ->
                    parsed = LogParser.nothing_parsed) /\
    (forall g, MLPipeline.graph_analysis r = Some g -> g = no_movement) /\
    MLPipeline.overall_threat_score r == 0.
Proof.
  apply (after_cleanup_every_event_scores_zero
           {| lower := fun s => s; findall_ip := fun _ => []; search_user := fun _ => None |}).
  reflexivity.
Defined.

Lemma analyze_event_initialized (re : Text) (self : MLPipeline.t) (event_data : Event) :
  MLPipeline.is_initialized self = true ->
  reachable (MLPipeline.graph_analyzer self) ->
  exists graph,
    MLPipeline.analyze_event re self event_data =
    Ok (MLPipeline.Analyzed
          {| MLPipeline.anomaly_detection :=
               AnomalyDetector.predict (MLPipeline.anomaly_detector self) event_data;
             MLPipeline.threat_classification :=
               ThreatClassifier.predict (MLPipeline.threat_classifier self) event_data;
             MLPipeline.log_parsing :=
               LogParser.parse_log re (MLPipeline.log_parser self)
                 <$> event_data !! "log_message";
             MLPipeline.graph_analysis := graph;
             MLPipeline.overall_threat_score :=
               _calculate_threat_score
                 (MLPipeline.results_so_far
                    (AnomalyDetector.predict (MLPipeline.anomaly_detector self) event_data)
                    (ThreatClassifier.predict (MLPipeline.threat_classifier self) event_data)
                    graph) |}) /\
    (is_Some graph <->
     is_Some (event_data !! "source_asset") /\ is_Some (event_data !! "target_asset")) /\
    (forall g, graph = Some g -> risk_score g <= 1).
Proof.
  intros Hi R. unfold MLPipeline.analyze_event. rewrite Hi. simpl negb. cbv iota.
  destruct (event_data !! "source_asset") as [a|];
    [destruct (event_data !! "target_asset") as [b|]|].
  - destruct (graph_result_total self a b R) as (r & -> & Hr). cbn [res_bind].
    exists (Some r). split; [destruct (event_data !! "log_message"); reflexivity|].
    split; [split; eauto|]. intros g [= <-]. exact Hr.
  - exists None. split; [destruct (event_data !! "log_message"); reflexivity|].
    split; [|discriminate]. split; [intros [? ?]; discriminate|].
    intros [_ [? ?]]; discriminate.
  - exists None. split; [destruct (event_data !! "log_message"); reflexivity|].
    split; [|discriminate]. split; [intros [? ?]; discriminate|].
    intros [[? ?] _]; discriminate.
Qed.

(** X17.  Once the pipeline is initialized, [analyze_event] answers every
    event with an analysis and never with the error dictionary; the
    analysis holds a graph analysis exactly when the event names both
    assets, a log analysis exactly when it has a log message, and the
    overall threat score is at most 1. *)
Theorem initialized_pipeline_analyzes_every_event
  (re : Text) (self : MLPipeline.t) (event_data : Event) :
  MLPipeline.is_initialized self = true ->
  reachable (MLPipeline.graph_analyzer self) ->
  exists r,
    MLPipeline.analyze_event re self event_data = Ok (MLPipeline.Analyzed r) /\
    (is_Some (MLPipeline.graph_analysis r) <->
     is_Some (event_data !! "source_asset") /\ is_Some (event_data !! "target_asset")) /\
    (is_Some (MLPipeline.log_parsing r) <-> is_Some (event_data !! "log_message")) /\
    MLPipeline.overall_threat_score r <= 1.
Proof.
  intros Hi R.
  destruct (analyze_event_initialized re self event_data Hi R) as (graph & -> & Hg & _).
  eexists. split; [reflexivity|]. simpl. split; [exact Hg|].
  split; [apply fmap_is_Some|]. unfold _calculate_threat_score. apply py_min_le_l.
Qed.

Lemma initialized_pipeline_analyzes_every_event_witness :
  exists r,
    MLPipeline.analyze_event
      {| lower := fun s => s; findall_ip := fun _ => []; search_user := fun _ => None |}
      (MLPipeline.initialize (Returns (fun _ => Returns [])) (Returns (fun _ => Returns []))
         {| MLPipeline.anomaly_detector_joblib := None;
            MLPipeline.threat_classifier_joblib := None |} MLPipeline.__init__).2
      {["log_message" := Str "login failed"]}
      = Ok (MLPipeline.Analyzed r) /\
    (is_Some (MLPipeline.graph_analysis r) <->
     is_Some (({["log_message" := Str "login failed"]} : Event) !! "source_asset") /\
     is_Some (({["log_message" := Str "login failed"]} : Event) !! "target_asset")) /\
    (is_Some (MLPipeline.log_parsing r) <->
     is_Some (({["log_message" := Str "login failed"]} : Event) !! "log_message")) /\
    MLPipeline.overall_threat_score r <= 1.
Proof.
  apply (initialized_pipeline_analyzes_every_event
           {| lower := fun s => s; findall_ip := fun _ => []; search_user := fun _ => None |}).
  - reflexivity.
  - apply reach_initialize, reach_init.
Defined.

(** X18.  While neither model is trained, the overall threat score is
    three tenths of the risk of the graph analysis, and 0 for an event
    that does not name both assets; it is never above 0.3. *)
Theorem untrained_pipeline_scores_the_graph_alone
  (re : Text) (self : MLPipeline.t) (event_data : Event) :
  MLPipeline.is_initialized self = true ->
  reachable (MLPipeline.graph_analyzer self) ->
  AnomalyDetector.is_trained (MLPipeline.anomaly_detector self) = false ->
  ThreatClassifier.is_trained (MLPipeline.threat_classifier self) = false ->
  exists r,
    MLPipeline.analyze_event re self event_data = Ok (MLPipeline.Analyzed r) /\
    MLPipeline.overall_threat_score r ==
      (3 # 10) * match MLPipeline.graph_analysis r with
                 | Some g => risk_score g
                 | None => 0
                 end /\
    MLPipeline.overall_threat_score r <= 3 # 10.
Proof.
  intros Hi R Ha Hc.
  destruct (analyze_event_initialized re self event_data Hi R) as (graph & -> & _ & Hg).
  eexists. split; [reflexivity|]. simpl.
  unfold AnomalyDetector.predict, ThreatClassifier.predict. rewrite Ha, Hc. simpl.
  unfold _calculate_threat_score, MLPipeline.results_so_far. simpl.
  rewrite py_min_spec. destruct graph as [g|].
  - specialize (Hg g eq_refl). rewrite Q.min_r by lra. split; lra.
  - rewrite Q.min_r by lra. split; lra.
Qed.

Lemma untrained_pipeline_scores_the_graph_alone_witness :
  exists r,
    MLPipeline.analyze_event
      {| lower := fun s => s; findall_ip := fun _ => []; search_user := fun _ => None |}
      {| MLPipeline.anomaly_detector := AnomalyDetector.__init__;
         MLPipeline.threat_classifier := ThreatClassifier.__init__;
         MLPipeline.log_parser := LogParser.__init__;
         MLPipeline.graph_analyzer := chain_abc;
         MLPipeline.is_initialized := true |}
      {["source_asset" := Str "A"; "target_asset" := Str "C"]}
      = Ok (MLPipeline.Analyzed r) /\
    MLPipeline.overall_threat_score r ==
      (3 # 10) * match MLPipeline.graph_analysis r with
                 | Some g => risk_score g
                 | None => 0
                 end /\
    MLPipeline.overall_threat_score r <= 3 # 10.
Proof.
  apply (untrained_pipeline_scores_the_graph_alone
           {| lower := fun s => s; findall_ip := fun _ => []; search_user := fun _ => None |}).
  - reflexivity.
  - apply chain_abc_ready.
  - reflexivity.
  - reflexivity.
Defined.

(** ** The action that the log parser reports *)

Lemma prefix_spec (k t : string) :
  String.prefix k t = true <-> exists post, t = String.append k post.
Proof.
  revert t. induction k as [|c k IH]; intros t.
  - destruct t; simpl; (split; [eauto|reflexivity]).
  - destruct t as [|c' t]; simpl; [split; [discriminate|intros [post H]; discriminate]|].
    destruct (Ascii.ascii_dec c c') as [<-|Hne].
    + rewrite IH. split; intros [post H]; exists post.
      * rewrite H. reflexivity.
      * change (String c t = String c (String.append k post)) in H. congruence.
    + split; [discriminate|]. intros [post H].
      change (String c' t = String c (String.append k post)) in H. congruence.
Qed.

Lemma occurs_in_spec (k t : string) :
  occurs_in k t = true <->
  exists pre post, t = String.append pre (String.append k post).
Proof.
  induction t as [|c t IH].
  - change (occurs_in k "") with (String.prefix k "" || false).
    rewrite orb_false_r, prefix_spec. split.
    + intros [post H]. exists EmptyString, post. exact H.
    + intros (pre & post & H). destruct pre; [eauto|discriminate].
  - change (occurs_in k (String c t))
      with (String.prefix k (String c t) || occurs_in k t).
    rewrite orb_true_iff, IH, prefix_spec. split.
    + intros [[post H]|(pre & post & H)].
      * exists EmptyString, post. exact H.
      * exists (String c pre), post. rewrite H. reflexivity.
    + intros (pre & post & H). destruct pre as [|c' pre].
      * left. exists post. exact H.
      * right. exists pre, post.
        change (String c t = String c' (String.append pre (String.append k post))) in H.
        congruence.
Qed.

Lemma find_first {A : Type} (f : A -> bool) (l : list A) :
  match find f l with
  | Some x =>
      f x = true /\
      exists before after, l = before ++ x :: after /\
                           forall y, y ∈ before -> f y = false
  | None => forall y, y ∈ l -> f y = false
  end.
Proof.
  induction l as [|k l IH]; simpl.
  - intros y H. apply elem_of_nil in H. contradiction.
  - destruct (f k) eqn:E.
    + split; [exact E|]. exists [], l. split; [reflexivity|].
      intros y H. apply elem_of_nil in H. contradiction.
    + destruct (find f l) as [x|].
      * destruct IH as (Hx & before & after & -> & Hb). split; [exact Hx|].
        exists (k :: before), after. split; [reflexivity|].
        intros y H. apply elem_of_cons in H as [->|H]; [exact E|apply Hb, H].
      * intros y H. apply elem_of_cons in H as [->|H]; [exact E|apply IH, H].
Qed.

(** X19.  The action that [_extract_entities] reports is the first of
    login, logout, access, denied, blocked, failed, in this order, that
    occurs in the lowered message, and there is none when none of them
    occurs: a message in which login occurs is a login, whatever else it
    holds. *)
Theorem action_is_the_first_keyword_that_occurs (re : Text) (log_message : string) :
  let contains keyword :=
    exists pre post,
      lower re log_message = String.append pre (String.append keyword post) in
  match LogParser.action (LogParser._extract_entities re log_message) with
  | Some keyword =>
      contains keyword /\
      exists before after,
        LogParser.action_keywords = before ++ keyword :: after /\
        forall earlier, earlier ∈ before -> ~ contains earlier
  | None => forall keyword, keyword ∈ LogParser.action_keywords -> ~ contains keyword
  end.
Proof.
  cbv zeta.
  change (LogParser.action (LogParser._extract_entities re log_message))
    with (find (fun keyword => occurs_in keyword (lower re log_message))
            LogParser.action_keywords).
  pose proof (find_first (fun keyword => occurs_in keyword (lower re log_message))
                LogParser.action_keywords) as H.
  assert (Hno : forall k, occurs_in k (lower re log_message) = false ->
                ~ exists pre post,
                    lower re log_message = String.append pre (String.append k post)).
  { intros k E Hc. apply occurs_in_spec in Hc. congruence. }
  destruct (find _ LogParser.action_keywords) as [keyword|].
  - destruct H as (Hk & before & after & Hl & Hb).
    split; [apply occurs_in_spec, Hk|]. exists before, after. split; [exact Hl|].
    intros earlier He. apply Hno, Hb, He.
  - intros keyword Hin. apply Hno, H, Hin.
Qed.

(** ** Creating an event *)

Section CreateEventFacts.

Variable Client WriteApi Point : Type.

(** X20.  [create_event] never answers with a created event: no user
    passes its permission check, and for one who did its body would end
    in the answer 500, since [write_event_to_influxdb] raises in every
    case; the event is never handed to the pipeline. *)
Theorem create_event_always_fails
  (re : Text) (influxdb_client : option Client)
  (write_api : Client -> outcome WriteApi) (point : Event -> outcome Point)
  (timestamp : string) (user : security.User) (event_data : Event) :
  (forall data, exists e,
      write_event_to_influxdb Client WriteApi Point influxdb_client write_api point data
      = Raises e) /\
  create_event_body Client WriteApi Point re influxdb_client write_api point
    timestamp user event_data
  = Ok (Raises (HTTPException 500 "Failed to create event")) /\
  create_event Client WriteApi Point re influxdb_client write_api point
    timestamp user event_data
  = Ok (Raises (HTTPException 403 "Permission 'write:events' required")).
Proof.
  assert (H : forall data, exists e,
             write_event_to_influxdb Client WriteApi Point influxdb_client write_api
               point data = Raises e).
  { intros data. unfold write_event_to_influxdb, get_influxdb_client.
    destruct influxdb_client as [client|]; simpl; [|eauto].
    destruct (write_api client); simpl; [|eauto].
    destruct (point data); simpl; eauto. }
  split; [exact H|]. split.
  - unfold create_event_body. destruct (H (<["created_by" := Str (security.id user)]>
                                             (<["timestamp" := Str timestamp]> event_data)))
      as [e ->]. reflexivity.
  - unfold create_event. rewrite nobody_passes_write_events. reflexivity.
Qed.

End CreateEventFacts.

(** ** The network topology *)

Lemma elem_of_first_mentions (x : string) (l : list string) :
  x ∈ first_mentions l <-> x ∈ l.
Proof.
  induction l as [|y l IH]; simpl; [reflexivity|].
  rewrite !elem_of_cons, list_elem_of_filter, IH. destruct (decide (x = y)); tauto.
Qed.

Lemma first_mentions_snoc_new (x : string) (l : list string) :
  x ∉ l -> first_mentions (l ++ [x]) = first_mentions l ++ [x].
Proof.
  induction l as [|y l IH]; simpl; intros Hx; [reflexivity|].
  apply not_elem_of_cons in Hx as [Hne Hx]. rewrite IH by assumption.
  rewrite filter_app, filter_cons_True by assumption. reflexivity.
Qed.

Lemma first_mentions_snoc_old (x : string) (l : list string) :
  x ∈ l -> first_mentions (l ++ [x]) = first_mentions l.
Proof.
  intros Hx. rewrite (first_mentions_again x l [] Hx), app_nil_r. reflexivity.
Qed.

Lemma dict_get_keys {V : Type} (k : string) (d : list (string * V)) :
  dict_get k d = None <-> k ∉ dict_keys d.
Proof. apply dict_get_None. Qed.

Section TopologyFacts.

Variable title : string -> string.

Lemma assets_of_snoc key done asset :
  assets_of key (done ++ [asset]) =
  assets_of key done ++
  (if decide (topology.segment_key asset = key) then [asset] else []).
Proof.
  unfold assets_of. rewrite filter_app, filter_cons, filter_nil. reflexivity.
Qed.

Lemma placed_nil : placed title [] ([], 0%nat).
Proof.
  split; [reflexivity|]. split; [|reflexivity]. intros key s H. discriminate.
Qed.

Lemma placed_step done state asset :
  placed title done state ->
  placed title (done ++ [asset]) (network_topology.place title state asset).
Proof.
  destruct state as [segs high]. intros (Hkeys & Hsegs & Hhigh). simpl in *.
  set (k := topology.segment_key asset).
  (* the segment under [k] once the asset is appended *)
  set (opened := match dict_get k segs with
                 | Some _ => segs
                 | None => dict_set k (segment.opened_by title asset) segs
                 end).
  assert (Hopened : exists s0,
             dict_get k opened = Some s0 /\
             dict_keys opened = first_mentions (map topology.segment_key (done ++ [asset])) /\
             (forall k', k' <> k -> dict_get k' opened = dict_get k' segs) /\
             match dict_get k segs with
             | Some s => s0 = s
             | None => s0 = segment.opened_by title asset /\ assets_of k done = []
             end).
  { unfold opened. destruct (dict_get k segs) as [s|] eqn:E.
    - exists s. split; [exact E|]. split; [|split; [reflexivity|reflexivity]].
      rewrite map_app. simpl. fold k. rewrite first_mentions_snoc_old; [exact Hkeys|].
      apply elem_of_first_mentions. rewrite <- Hkeys. apply dict_get_is_Some. eauto.
    - exists (segment.opened_by title asset). split; [apply dict_get_set_eq|].
      assert (Hk : k ∉ map topology.segment_key done).
      { rewrite <- elem_of_first_mentions, <- Hkeys. apply dict_get_None, E. }
      split; [|split; [intros k' Hne; apply dict_get_set_ne, Hne|split; [reflexivity|]]].
      + rewrite dict_keys_set, E, Hkeys, map_app. simpl. fold k.
        rewrite first_mentions_snoc_new by assumption. reflexivity.
      + unfold assets_of. clear -Hk. induction done as [|a done IH]; [reflexivity|].
        simpl in Hk. apply not_elem_of_cons in Hk as [Hne Hk].
        rewrite filter_cons_False by congruence. apply IH, Hk. }
  destruct Hopened as (s0 & Hs0 & Hkeys' & Hother & Hwas).
  unfold network_topology.place. simpl. fold k. fold opened. rewrite Hs0.
  set (s1 := segment.append (member.from_asset asset) s0).
  set (appended := dict_set k s1 opened).
  assert (Hs1 : dict_get k appended = Some s1) by apply dict_get_set_eq.
  assert (Hkeys1 : dict_keys appended = dict_keys opened).
  { unfold appended. rewrite dict_keys_set, Hs0. reflexivity. }
  rewrite Hs1.
  (* what holds of the final segment [s2] under [k] *)
  assert (Hfinal : forall segs2 s2 high2,
             dict_get k segs2 = Some s2 ->
             dict_keys segs2 = dict_keys opened ->
             (forall k', k' <> k -> dict_get k' segs2 = dict_get k' segs) ->
             segment.assets s2 = segment.assets s1 ->
             segment.location s2 = segment.location s0 ->
             segment.type s2 = segment.type s0 ->
             segment.name s2 = segment.name s0 ->
             segment.risk_level s2 =
               (if topology.high_risk asset then "high" else segment.risk_level s0) ->
             high2 = (if topology.high_risk asset then S high else high) ->
             placed title (done ++ [asset]) (segs2, high2)).
  { intros segs2 s2 high2 H2 Hk2 Ho2 Ha2 Hl2 Ht2 Hn2 Hr2 Hh2.
    split; [simpl; rewrite Hk2; exact Hkeys'|]. split; simpl.
    - intros key s Hget. rewrite assets_of_snoc.
      destruct (decide (topology.segment_key asset = key)) as [Heq|Hne].
      + fold k in Heq. subst key. rewrite H2 in Hget. injection Hget as <-.
        destruct (dict_get k segs) as [s|] eqn:E.
        * subst s0. destruct (Hsegs k s E) as (Ha & Hr & first & rest & Hf & Hl & Ht & Hn).
          split; [rewrite Ha2, map_app; simpl; rewrite Ha; reflexivity|].
          split.
          -- rewrite Hr2, existsb_app, Hr. simpl. rewrite orb_false_r.
             destruct (existsb _ _), (topology.high_risk asset); reflexivity.
          -- exists first, (rest ++ [asset]). rewrite Hf. split; [reflexivity|].
             split; [congruence|]. split; [congruence|congruence].
        * destruct Hwas as [-> Hnone]. rewrite Hnone. simpl.
          split; [rewrite Ha2; reflexivity|]. split.
          -- rewrite Hr2, orb_false_r. simpl. destruct (topology.high_risk asset); reflexivity.
          -- exists asset, []. split; [reflexivity|]. split; [exact Hl2|].
             split; [exact Ht2|exact Hn2].
      + rewrite app_nil_r. apply Hsegs. rewrite <- Ho2 by (fold k in Hne; congruence).
        exact Hget.
    - rewrite Hh2, filter_app, length_app, filter_cons, filter_nil, <- Hhigh.
      destruct (topology.high_risk asset); simpl; lia. }
  destruct (topology.high_risk asset) eqn:Hr.
  - apply (Hfinal _ (segment.set_high s1)); try reflexivity.
    + apply dict_get_set_eq.
    + rewrite dict_keys_set, Hs1. exact Hkeys1.
    + intros k' Hne. unfold appended. rewrite !dict_get_set_ne by assumption.
      apply Hother, Hne.
  - apply (Hfinal _ s1); try reflexivity.
    + exact Hs1.
    + exact Hkeys1.
    + intros k' Hne. unfold appended. rewrite dict_get_set_ne by assumption.
      apply Hother, Hne.
Qed.

Lemma placed_fold rest done state :
  placed title done state ->
  placed title (done ++ rest) (fold_left (network_topology.place title) rest state).
Proof.
  revert done state. induction rest as [|asset rest IH]; intros done state H; simpl.
  - rewrite app_nil_r. exact H.
  - replace (done ++ asset :: rest) with ((done ++ [asset]) ++ rest)
      by (rewrite <- app_assoc; reflexivity).
    apply IH, placed_step, H.
Qed.

Lemma placed_all assets :
  placed title assets (fold_left (network_topology.place title) assets ([], 0%nat)).
Proof. apply (placed_fold assets []), placed_nil. Qed.

End TopologyFacts.

Lemma first_mentions_NoDup_keys (l : list string) : NoDup (first_mentions l).
Proof.
  induction l as [|x l IH]; simpl; [constructor|].
  constructor.
  - rewrite list_elem_of_filter. tauto.
  - apply NoDup_filter, IH.
Qed.

Lemma topology_segments title assets :
  NoDup (dict_keys (network_topology.segments
                      (network_topology.get_network_topology title assets))) /\
  forall key s,
    (key, s) ∈ network_topology.segments
                 (network_topology.get_network_topology title assets) <->
    dict_get key (network_topology.segments
                    (network_topology.get_network_topology title assets)) = Some s.
Proof.
  destruct (placed_all title assets) as (Hkeys & _ & _).
  assert (Hnd : NoDup (dict_keys (network_topology.segments
                         (network_topology.get_network_topology title assets)))).
  { simpl. rewrite Hkeys. apply first_mentions_NoDup_keys. }
  split; [exact Hnd|]. intros key s. split.
  - apply dict_get_NoDup_In, Hnd.
  - apply dict_get_In.
Qed.

(** X21.  Every segment of the topology lists, in the order fetched, the
    assets whose location and type make its key, and at least one; its
    risk level is high when one of them is of high or critical risk and
    low otherwise; every asset is in the segment of its key. *)
Theorem segments_hold_the_assets_of_their_key
  (title : string -> string) (assets : list topology.Asset) :
  let answer := network_topology.get_network_topology title assets in
  (forall key s,
      (key, s) ∈ network_topology.segments answer ->
      segment.assets s = map member.from_asset (assets_of key assets) /\
      assets_of key assets <> [] /\
      segment.risk_level s =
        (if existsb topology.high_risk (assets_of key assets) then "high" else "low")) /\
  (forall asset,
      asset ∈ assets ->
      exists s, (topology.segment_key asset, s) ∈ network_topology.segments answer) /\
  NoDup (dict_keys (network_topology.segments answer)).
Proof.
  cbv zeta. destruct (topology_segments title assets) as [Hnd Hin].
  destruct (placed_all title assets) as (Hkeys & Hsegs & _).
  split; [|split; [|exact Hnd]].
  - intros key s H. apply Hin in H. simpl in H.
    destruct (Hsegs key s H) as (Ha & Hr & first & rest & Hf & _).
    split; [exact Ha|]. split; [rewrite Hf; discriminate|exact Hr].
  - intros asset Ha.
    assert (Hk : topology.segment_key asset ∈
                 dict_keys (network_topology.segments
                              (network_topology.get_network_topology title assets))).
    { simpl. rewrite Hkeys. apply elem_of_first_mentions, list_elem_of_fmap. eauto. }
    apply dict_get_is_Some in Hk as [s Hs]. exists s. apply Hin, Hs.
Qed.

(** X22.  The summary of the topology counts the assets fetched, the
    different keys among them, and the assets of high or critical
    risk. *)
Theorem topology_summary_counts
  (title : string -> string) (assets : list topology.Asset) :
  let answer := network_topology.get_network_topology title assets in
  summary.total_assets (network_topology.summary answer) = length assets /\
  summary.segments (network_topology.summary answer) =
    length (first_mentions (map topology.segment_key assets)) /\
  summary.segments (network_topology.summary answer) =
    length (network_topology.segments answer) /\
  summary.high_risk_assets (network_topology.summary answer) =
    length (filter (fun asset => topology.high_risk asset = true) assets).
Proof.
  cbv zeta. destruct (placed_all title assets) as (Hkeys & _ & Hhigh). simpl.
  split; [reflexivity|]. split; [|split; [reflexivity|exact Hhigh]].
  rewrite <- Hkeys. unfold dict_keys. rewrite length_map. reflexivity.
Qed.

Lemma elem_of_connect segments from to type :
  (from, to, type) ∈ network_topology.connect segments <->
  type = "internal" /\ (from, to) ∈ pairs (dict_keys segments) /\
  exists sf st, dict_get from segments = Some sf /\ dict_get to segments = Some st /\
                segment.location sf = segment.location st.
Proof.
  unfold network_topology.connect. rewrite list_elem_of_omap. split.
  - intros ([f t] & Hin & H). simpl in H.
    destruct (dict_get f segments) as [sf|] eqn:Ef; [|discriminate].
    destruct (dict_get t segments) as [st|] eqn:Et; [|discriminate].
    destruct (decide (segment.location sf = segment.location st)); [|discriminate].
    injection H as <- <- <-. rewrite Ef, Et. eauto 10.
  - intros (-> & Hin & sf & st & Hf & Ht & Hl). exists (from, to). split; [exact Hin|].
    simpl. rewrite Hf, Ht, decide_True by assumption. reflexivity.
Qed.

(** X23.  The connections of the topology are the pairs of segments with
    equal locations, each pair once, from the segment created first to
    the one created later; no segment is connected to itself and no
    pair in both directions. *)
Theorem connections_join_segments_of_one_location
  (title : string -> string) (assets : list topology.Asset) :
  let answer := network_topology.get_network_topology title assets in
  (forall from to type,
      (from, to, type) ∈ network_topology.connections answer <->
      type = "internal" /\
      (from, to) ∈ pairs (dict_keys (network_topology.segments answer)) /\
      exists sf st,
        (from, sf) ∈ network_topology.segments answer /\
        (to, st) ∈ network_topology.segments answer /\
        segment.location sf = segment.location st) /\
  (forall from to type type',
      (from, to, type) ∈ network_topology.connections answer ->
      from <> to /\ (to, from, type') ∉ network_topology.connections answer).
Proof.
  cbv zeta. destruct (topology_segments title assets) as [Hnd Hin].
  assert (H1 : forall from to type,
      (from, to, type) ∈ network_topology.connections
                           (network_topology.get_network_topology title assets) <->
      type = "internal" /\
      (from, to) ∈ pairs (dict_keys (network_topology.segments
                                       (network_topology.get_network_topology title assets))) /\
      exists sf st,
        (from, sf) ∈ network_topology.segments
                       (network_topology.get_network_topology title assets) /\
        (to, st) ∈ network_topology.segments
                     (network_topology.get_network_topology title assets) /\
        segment.location sf = segment.location st).
  { intros from to type.
    change (network_topology.connections
              (network_topology.get_network_topology title assets))
      with (network_topology.connect
              (network_topology.segments
                 (network_topology.get_network_topology title assets))).
    rewrite elem_of_connect. split.
    - intros (-> & Hp & sf & st & Hf & Ht & Hl). split; [reflexivity|].
      split; [exact Hp|]. exists sf, st. rewrite !Hin. auto.
    - intros (-> & Hp & sf & st & Hf & Ht & Hl). split; [reflexivity|].
      split; [exact Hp|]. exists sf, st. rewrite <- !Hin. auto. }
  split; [exact H1|].
  intros from to type type' H. apply H1 in H as (_ & Hp & _).
  destruct (pairs_distinct _ from to Hnd Hp) as [Hne Hrev].
  split; [exact Hne|]. intros H'. apply H1 in H' as (_ & Hp' & _). contradiction.
Qed.

Lemma segments_hold_the_assets_of_their_key_witness :
  exists s,
    ("Paris_server", s) ∈ network_topology.segments
                            (network_topology.get_network_topology (fun t => t) four_assets) /\
    segment.assets s = map member.from_asset (assets_of "Paris_server" four_assets) /\
    assets_of "Paris_server" four_assets <> [] /\
    segment.risk_level s =
      (if existsb topology.high_risk (assets_of "Paris_server" four_assets)
       then "high" else "low").
Proof.
  assert (Hs : exists s,
             ("Paris_server", s) ∈ network_topology.segments
               (network_topology.get_network_topology (fun t => t) four_assets))
    by (eexists; apply dict_get_In; reflexivity).
  destruct Hs as [s Hs]. exists s. split; [exact Hs|].
  apply (proj1 (segments_hold_the_assets_of_their_key (fun t => t) four_assets) _ _ Hs).
Defined.

Lemma connections_join_segments_of_one_location_witness :
  "Paris_server" <> "Paris_laptop" /\
  ("Paris_laptop", "Paris_server", "internal")
    ∉ network_topology.connections
        (network_topology.get_network_topology (fun t => t) four_assets).
Proof.
  apply (proj2 (connections_join_segments_of_one_location (fun t => t) four_assets)
           "Paris_server" "Paris_laptop" "internal" "internal").
  apply (proj1 (connections_join_segments_of_one_location (fun t => t) four_assets)).
  split; [reflexivity|]. split; [vm_compute; left|].
  eexists _, _. split; [left|]. split; [right; left|]. reflexivity.
Defined.

(** ** The threat map *)

Lemma tally_snoc key keys k :
  tally key (keys ++ [k]) = (tally key keys + (if decide (k = key) then 1 else 0))%nat.
Proof.
  unfold tally. rewrite filter_app, length_app, filter_cons, filter_nil.
  destruct (decide (k = key)); reflexivity.
Qed.

Lemma tally_absent key keys : key ∉ keys -> tally key keys = 0%nat.
Proof.
  unfold tally. induction keys as [|k keys IH]; [reflexivity|].
  intros H. apply not_elem_of_cons in H as [Hne H].
  rewrite filter_cons_False by congruence. apply IH, H.
Qed.

Lemma tally_present key keys : key ∈ keys -> tally key keys <> 0%nat.
Proof.
  unfold tally. induction keys as [|k keys IH]; intros H.
  - apply elem_of_nil in H. contradiction.
  - destruct (decide (k = key)) as [->|Hne].
    + rewrite filter_cons_True by reflexivity. discriminate.
    + rewrite filter_cons_False by assumption. apply IH.
      apply elem_of_cons in H as [->|H]; [contradiction|exact H].
Qed.

(** What counting the keys [done] one by one has built. *)
Lemma counted_step done counts key :
  (dict_keys counts = first_mentions done /\
   forall k n, dict_get k counts = Some n <-> n = tally k done /\ n <> 0%nat) ->
  dict_keys (threat_map.count_up counts key) = first_mentions (done ++ [key]) /\
  forall k n, dict_get k (threat_map.count_up counts key) = Some n <->
              n = tally k (done ++ [key]) /\ n <> 0%nat.
Proof.
  intros [Hkeys Hget]. unfold threat_map.count_up. split.
  - rewrite dict_keys_set. destruct (dict_get key counts) as [n|] eqn:E.
    + rewrite first_mentions_snoc_old; [exact Hkeys|].
      apply elem_of_first_mentions. rewrite <- Hkeys. apply dict_get_is_Some. eauto.
    + rewrite first_mentions_snoc_new, Hkeys; [reflexivity|].
      rewrite <- elem_of_first_mentions, <- Hkeys. apply dict_get_None, E.
  - intros k n. rewrite tally_snoc. destruct (decide (key = k)) as [->|Hne].
    + rewrite dict_get_set_eq. destruct (dict_get k counts) as [m|] eqn:E; simpl.
      * apply Hget in E as [-> _]. split; [intros [= <-]; lia|]. intros [-> _]. f_equal. lia.
      * assert (Hk : tally k done = 0%nat).
        { apply tally_absent. rewrite <- elem_of_first_mentions, <- Hkeys.
          apply dict_get_None, E. }
        rewrite Hk. split; [intros [= <-]; lia|]. intros [-> _]. reflexivity.
    + rewrite dict_get_set_ne by congruence. rewrite Hget, Nat.add_0_r. reflexivity.
Qed.

Lemma counted_fold rest done counts :
  (dict_keys counts = first_mentions done /\
   forall k n, dict_get k counts = Some n <-> n = tally k done /\ n <> 0%nat) ->
  dict_keys (fold_left threat_map.count_up rest counts) = first_mentions (done ++ rest) /\
  forall k n, dict_get k (fold_left threat_map.count_up rest counts) = Some n <->
              n = tally k (done ++ rest) /\ n <> 0%nat.
Proof.
  revert done counts. induction rest as [|key rest IH]; intros done counts H; simpl.
  - rewrite app_nil_r. exact H.
  - replace (done ++ key :: rest) with ((done ++ [key]) ++ rest)
      by (rewrite <- app_assoc; reflexivity).
    apply IH, counted_step, H.
Qed.

(** The dictionary that counts [keys] from nothing. *)
Lemma counted keys :
  NoDup (dict_keys (fold_left threat_map.count_up keys [])) /\
  forall k n, (k, n) ∈ fold_left threat_map.count_up keys [] <->
              n = tally k keys /\ n <> 0%nat.
Proof.
  destruct (counted_fold keys [] []) as [Hkeys Hget].
  { split; [reflexivity|]. intros k n. simpl. split; [discriminate|].
    intros [-> H]. contradiction. }
  simpl in *. assert (Hnd : NoDup (dict_keys (fold_left threat_map.count_up keys [])))
    by (rewrite Hkeys; apply first_mentions_NoDup_keys).
  split; [exact Hnd|]. intros k n. rewrite <- Hget. split.
  - apply dict_get_NoDup_In, Hnd.
  - apply dict_get_In.
Qed.

Lemma threats_at_snoc location done threat :
  threats_at location (done ++ [threat]) =
  threats_at location done ++
  (if decide (or_unknown (threat_map.location threat) = location) then [threat] else []).
Proof. unfold threats_at. rewrite filter_app, filter_cons, filter_nil. reflexivity. Qed.

Lemma of_severity_snoc severity done threat :
  length (of_severity severity (done ++ [threat])) =
  (length (of_severity severity done)
   + (if decide (threat_map.severity threat = severity) then 1 else 0))%nat.
Proof.
  unfold of_severity. rewrite filter_app, length_app, filter_cons, filter_nil.
  destruct (decide _); reflexivity.
Qed.

Lemma counters_absent location done :
  location ∉ map (fun threat => or_unknown (threat_map.location threat)) done ->
  counters location done = threat_map.no_threats.
Proof.
  intros H. assert (Hnone : threats_at location done = []).
  { unfold threats_at. induction done as [|t done IH]; [reflexivity|].
    simpl in H. apply not_elem_of_cons in H as [Hne H].
    rewrite filter_cons_False by congruence. apply IH, H. }
  unfold counters. rewrite Hnone. reflexivity.
Qed.

(** The counters of the location of [threat] once it is counted. *)
Lemma counters_counted done threat :
  valid_severity (threat_map.severity threat) ->
  (do* counts := threat_map.increment "total"
                   (counters (or_unknown (threat_map.location threat)) done) in
   threat_map.increment (threat_map.severity threat) counts) =
  Returns (counters (or_unknown (threat_map.location threat)) (done ++ [threat])).
Proof.
  intros Hv. unfold counters. rewrite threats_at_snoc, decide_True by reflexivity.
  rewrite !of_severity_snoc, length_app. simpl length.
  unfold valid_severity in Hv. rewrite !elem_of_cons in Hv.
  destruct Hv as [H|[H|[H|[H|H]]]]; [| | | |apply elem_of_nil in H; contradiction];
    rewrite H; cbn; repeat f_equal;
    try (destruct (decide _) as [E|E];
         [try discriminate E|try (exfalso; apply E; reflexivity)]); lia.
Qed.

(** What the counting by location has built after the threats [done]. *)
Lemma count_location_step done locations threat :
  valid_severity (threat_map.severity threat) ->
  dict_keys locations =
    first_mentions (map (fun t => or_unknown (threat_map.location t)) done) ->
  (forall l counts, dict_get l locations = Some counts -> counts = counters l done) ->
  exists locations',
    threat_map.count_location locations threat = Returns locations' /\
    dict_keys locations' =
      first_mentions (map (fun t => or_unknown (threat_map.location t))
                        (done ++ [threat])) /\
    forall l counts, dict_get l locations' = Some counts ->
                     counts = counters l (done ++ [threat]).
Proof.
  intros Hv Hkeys Hget. unfold threat_map.count_location.
  set (loc := or_unknown (threat_map.location threat)).
  set (opened := match dict_get loc locations with
                 | Some _ => locations
                 | None => dict_set loc threat_map.no_threats locations
                 end).
  assert (Hopened : dict_get loc opened = Some (counters loc done) /\
                    dict_keys opened =
                      first_mentions (map (fun t => or_unknown (threat_map.location t))
                                        (done ++ [threat])) /\
                    forall l, l <> loc -> dict_get l opened = dict_get l locations).
  { unfold opened. rewrite map_app. simpl. fold loc.
    destruct (dict_get loc locations) as [c|] eqn:E.
    - split; [rewrite E; f_equal; apply Hget, E|]. split; [|reflexivity].
      rewrite first_mentions_snoc_old; [exact Hkeys|].
      apply elem_of_first_mentions. rewrite <- Hkeys. apply dict_get_is_Some. eauto.
    - assert (Hk : loc ∉ map (fun t => or_unknown (threat_map.location t)) done).
      { rewrite <- elem_of_first_mentions, <- Hkeys. apply dict_get_None, E. }
      split; [rewrite dict_get_set_eq, counters_absent by assumption; reflexivity|].
      split; [|intros l Hne; apply dict_get_set_ne, Hne].
      rewrite dict_keys_set, E, Hkeys, first_mentions_snoc_new by assumption.
      reflexivity. }
  destruct Hopened as (Hloc & Hkeys' & Hother). rewrite Hloc. cbn [outcome_bind].
  pose proof (counters_counted done threat Hv) as Hc. fold loc in Hc.
  destruct (threat_map.increment "total" (counters loc done)) as [c1|e] eqn:E1;
    [|discriminate]. cbn [outcome_bind] in *. rewrite Hc. cbn [outcome_bind].
  eexists. split; [reflexivity|]. split.
  - rewrite !dict_keys_set, dict_get_set_eq, Hloc. exact Hkeys'.
  - intros l counts. destruct (decide (l = loc)) as [->|Hne].
    + rewrite dict_get_set_eq. intros [= <-]. reflexivity.
    + rewrite !dict_get_set_ne, Hother by assumption. intros H.
      rewrite (Hget l counts H). unfold counters. rewrite threats_at_snoc.
      fold loc. rewrite decide_False by congruence. rewrite app_nil_r. reflexivity.
Qed.

Lemma process_counts rest :
  forall done locations categories sources,
    Forall (fun t => valid_severity (threat_map.severity t)) rest ->
    dict_keys locations =
      first_mentions (map (fun t => or_unknown (threat_map.location t)) done) ->
    (forall l counts, dict_get l locations = Some counts -> counts = counters l done) ->
    exists locations',
      threat_map.process rest (locations, categories, sources) =
      Returns (locations',
               fold_left threat_map.count_up
                 (map (fun t => or_unknown (threat_map.category t)) rest) categories,
               fold_left threat_map.count_up
                 (map (fun t => or_unknown (threat_map.source t)) rest) sources) /\
      dict_keys locations' =
        first_mentions (map (fun t => or_unknown (threat_map.location t))
                          (done ++ rest)) /\
      forall l counts, dict_get l locations' = Some counts ->
                       counts = counters l (done ++ rest).
Proof.
  induction rest as [|threat rest IH]; intros done locations categories sources Hv Hk Hg.
  - exists locations. rewrite app_nil_r. auto.
  - apply Forall_cons in Hv as [Hv Hrest]. simpl.
    destruct (count_location_step done locations threat Hv Hk Hg)
      as (locations1 & -> & Hk1 & Hg1). cbn [outcome_bind].
    destruct (IH (done ++ [threat]) locations1
                (threat_map.count_up categories (or_unknown (threat_map.category threat)))
                (threat_map.count_up sources (or_unknown (threat_map.source threat)))
                Hrest Hk1 Hg1) as (locations' & -> & Hk' & Hg').
    exists locations'. rewrite <- app_assoc in Hk', Hg'. auto.
Qed.

(** A severity that is no key of the counters ends the counting. *)
Lemma process_raises rest :
  forall state,
    Exists (fun t => threat_map.severity t ∉
                       ["total"; "critical"; "high"; "medium"; "low"]) rest ->
    Forall (fun counts => dict_keys counts.2 = dict_keys threat_map.no_threats) state.1.1 ->
    exists e, threat_map.process rest state = Raises e.
Proof.
  induction rest as [|threat rest IH]; intros [[locations categories] sources] Hex Hall.
  - inversion Hex.
  - simpl in *. destruct (threat_map.count_location locations threat) as [locations1|e] eqn:E;
      [|eauto]. cbn [outcome_bind].
    assert (Hbad : threat_map.severity threat ∈ ["total"; "critical"; "high"; "medium"; "low"]
                   /\ Forall (fun counts => dict_keys counts.2 = dict_keys threat_map.no_threats)
                        locations1).
    { unfold threat_map.count_location in E.
      set (loc := or_unknown (threat_map.location threat)) in *.
      set (opened := match dict_get loc locations with
                     | Some _ => locations
                     | None => dict_set loc threat_map.no_threats locations
                     end) in *.
      assert (Hop : Forall (fun counts => dict_keys counts.2 = dict_keys threat_map.no_threats)
                      opened).
      { unfold opened. destruct (dict_get loc locations); [exact Hall|].
        clear -Hall. induction locations as [|[k v] locations IH]; simpl.
        - constructor; [reflexivity|constructor].
        - apply Forall_cons in Hall as [Hv Hall].
          destruct (String.eqb loc k); constructor; auto. }
      assert (Hset : forall k v (d : list (string * list (string * nat))),
                 dict_keys v = dict_keys threat_map.no_threats ->
                 Forall (fun counts => dict_keys counts.2 = dict_keys threat_map.no_threats) d ->
                 Forall (fun counts => dict_keys counts.2 = dict_keys threat_map.no_threats)
                   (dict_set k v d)).
      { intros k v d Hv Hd. induction d as [|[k' v'] d IHd]; simpl.
        - constructor; [exact Hv|constructor].
        - apply Forall_cons in Hd as [Hv' Hd].
          destruct (String.eqb k k'); constructor; auto. }
      destruct (dict_get loc opened) as [c0|] eqn:E0; [|discriminate].
      assert (Hc0 : dict_keys c0 = dict_keys threat_map.no_threats).
      { apply dict_get_In in E0. rewrite Forall_forall in Hop. apply (Hop _ E0). }
      cbn [outcome_bind] in E. unfold threat_map.increment in E.
      destruct (dict_get "total" c0) as [n|] eqn:Et; [|discriminate].
      cbn [outcome_bind] in E.
      assert (Hc1 : dict_keys (dict_set "total" (S n) c0) = dict_keys threat_map.no_threats)
        by (rewrite dict_keys_set, Et; exact Hc0).
      destruct (dict_get (threat_map.severity threat) (dict_set "total" (S n) c0))
        as [m|] eqn:Es; [|discriminate].
      cbn [outcome_bind] in E. injection E as <-. split.
      - assert (Hin : threat_map.severity threat ∈ dict_keys (dict_set "total" (S n) c0))
          by (apply dict_get_is_Some; eauto).
        rewrite Hc1 in Hin. exact Hin.
      - apply Hset; [rewrite dict_keys_set, Es; exact Hc1|].
        apply Hset; [exact Hc1|exact Hop]. }
    destruct Hbad as [Hsev Hall1].
    apply Exists_cons in Hex as [Hex|Hex]; [contradiction|].
    apply (IH (locations1, _, _) Hex Hall1).
Qed.

(** *** The order of the timeline *)

Lemma string_lt_irrefl (s : string) : ~ OrderedTypeEx.String_as_OT.lt s s.
Proof. intros H. apply OrderedTypeEx.String_as_OT.lt_not_eq in H. apply H. reflexivity. Qed.

Lemma item_ltb_spec (a b : string * nat) :
  threat_map.item_ltb a b = true <->
  OrderedTypeEx.String_as_OT.lt a.1 b.1 \/ (a.1 = b.1 /\ (a.2 < b.2)%nat).
Proof.
  unfold threat_map.item_ltb.
  pose proof (OrderedTypeEx.String_as_OT.cmp_lt a.1 b.1) as Hlt.
  pose proof (OrderedTypeEx.String_as_OT.cmp_eq a.1 b.1) as Heq.
  unfold OrderedTypeEx.String_as_OT.cmp in *.
  destruct (String.compare a.1 b.1) eqn:E.
  - rewrite Nat.ltb_lt. split; [intros H; right; split; [apply Heq; reflexivity|exact H]|].
    intros [H|[_ H]]; [|exact H]. apply Hlt in H. discriminate.
  - split; [intros _; left; apply Hlt; reflexivity|reflexivity].
  - split; [discriminate|]. intros [H|[H _]]; [apply Hlt in H|apply Heq in H]; discriminate.
Qed.

(** [a] is not after [b]. *)
Lemma item_le_spec (a b : string * nat) :
  threat_map.item_ltb b a = false <->
  OrderedTypeEx.String_as_OT.lt a.1 b.1 \/ (a.1 = b.1 /\ (a.2 <= b.2)%nat).
Proof.
  unfold threat_map.item_ltb.
  pose proof (OrderedTypeEx.String_as_OT.cmp_lt a.1 b.1) as Hlt.
  pose proof (OrderedTypeEx.String_as_OT.cmp_lt b.1 a.1) as Hgt.
  pose proof (OrderedTypeEx.String_as_OT.cmp_eq b.1 a.1) as Heq.
  pose proof (OrderedTypeEx.String_as_OT.cmp_antisym a.1 b.1) as Hanti.
  unfold OrderedTypeEx.String_as_OT.cmp in *.
  destruct (String.compare b.1 a.1) eqn:E.
  - assert (Hab : b.1 = a.1) by (apply Heq; reflexivity).
    rewrite Nat.ltb_ge. split; [intros H; right; split; [congruence|exact H]|].
    intros [H|[_ H]]; [|exact H]. rewrite Hab in H. apply string_lt_irrefl in H.
    contradiction.
  - split; [discriminate|]. assert (Hba : OrderedTypeEx.String_as_OT.lt b.1 a.1)
      by (apply Hgt; reflexivity).
    intros [H|[H _]].
    + exfalso. apply (string_lt_irrefl a.1).
      apply (OrderedTypeEx.String_as_OT.lt_trans _ _ _ H Hba).
    + rewrite H in Hba. apply string_lt_irrefl in Hba. contradiction.
  - split; [|reflexivity]. intros _. left. apply Hlt. rewrite Hanti. reflexivity.
Qed.

Lemma item_le_trans (a b c : string * nat) :
  threat_map.item_ltb b a = false -> threat_map.item_ltb c b = false ->
  threat_map.item_ltb c a = false.
Proof.
  rewrite !item_le_spec. intros [H1|[H1 H1']] [H2|[H2 H2']].
  - left. apply (OrderedTypeEx.String_as_OT.lt_trans _ _ _ H1 H2).
  - left. rewrite <- H2. exact H1.
  - left. rewrite H1. exact H2.
  - right. split; [congruence|lia].
Qed.

Lemma item_lt_le (a b : string * nat) :
  threat_map.item_ltb a b = true -> threat_map.item_ltb b a = false.
Proof.
  rewrite item_ltb_spec, item_le_spec. intros [H|[H H']]; [auto|]. right. split; [exact H|lia].
Qed.

Lemma insert_item_perm x l : threat_map.insert_item x l ≡ₚ x :: l.
Proof.
  induction l as [|y l IH]; simpl; [reflexivity|].
  destruct (threat_map.item_ltb y x); [|reflexivity]. rewrite IH. apply perm_swap.
Qed.

Lemma sorted_items_perm l : threat_map.sorted_items l ≡ₚ l.
Proof.
  induction l as [|x l IH]; simpl; [reflexivity|].
  rewrite insert_item_perm, IH. reflexivity.
Qed.

Lemma insert_item_sorted x l :
  StronglySorted (fun a b => threat_map.item_ltb b a = false) l ->
  StronglySorted (fun a b => threat_map.item_ltb b a = false) (threat_map.insert_item x l).
Proof.
  induction 1 as [|y l Hs IH Hall]; simpl.
  - constructor; constructor.
  - destruct (threat_map.item_ltb y x) eqn:E.
    + constructor; [exact IH|]. rewrite insert_item_perm.
      constructor; [apply item_lt_le, E|exact Hall].
    + constructor; [constructor; assumption|]. constructor; [exact E|].
      eapply Forall_impl; [exact Hall|]. simpl. intros z Hz.
      apply (item_le_trans x y z); assumption.
Qed.

Lemma sorted_items_sorted l :
  StronglySorted (fun a b => threat_map.item_ltb b a = false) (threat_map.sorted_items l).
Proof.
  induction l as [|x l IH]; simpl; [constructor|]. apply insert_item_sorted, IH.
Qed.

(** Where no key stands twice, the order of the items is that of their keys. *)
Lemma sorted_keys_ascend (l : list (string * nat)) :
  NoDup (dict_keys l) ->
  StronglySorted (fun a b => threat_map.item_ltb b a = false) l ->
  StronglySorted (fun a b => String.compare a.1 b.1 = Lt) l.
Proof.
  intros Hnd Hs. induction Hs as [|a l Hs IH Hall]; [constructor|].
  unfold dict_keys in Hnd. simpl in Hnd. apply NoDup_cons in Hnd as [Ha Hnd].
  constructor; [apply IH, Hnd|].
  rewrite Forall_forall in *. intros b Hb. specialize (Hall b Hb).
  apply item_le_spec in Hall as [H|[H _]].
  - apply OrderedTypeEx.String_as_OT.cmp_lt, H.
  - exfalso. apply Ha. rewrite H. apply list_elem_of_fmap. eauto.
Qed.

(** X24.  When every row has one of the severities critical, high, medium
    and low, the threat map counts, for each location that occurs (or
    Unknown), all its rows and those of each severity, and for each
    category and each source its rows; nothing else is listed. *)
Theorem threat_map_counts_every_row
  (date_of : Z -> string) (threats : list threat_map.Threat) :
  Forall (fun threat => valid_severity (threat_map.severity threat)) threats ->
  exists answer,
    threat_map.get_threat_map date_of threats = Returns answer /\
    (forall location counts,
        (location, counts) ∈ threat_map.locations answer <->
        counts = counters location threats /\ threats_at location threats <> []) /\
    (forall category n,
        (category, n) ∈ threat_map.categories answer <->
        n = tally category (map (fun t => or_unknown (threat_map.category t)) threats)
        /\ n <> 0%nat) /\
    (forall source n,
        (source, n) ∈ threat_map.sources answer <->
        n = tally source (map (fun t => or_unknown (threat_map.source t)) threats)
        /\ n <> 0%nat).
Proof.
  intros Hv. unfold threat_map.get_threat_map.
  destruct (process_counts threats [] [] [] [] Hv eq_refl) as (locations & -> & Hk & Hg).
  { intros l counts H. discriminate. }
  cbn [outcome_bind]. eexists. split; [reflexivity|]. simpl in *.
  split; [|split; apply counted].
  assert (Hnd : NoDup (dict_keys locations))
    by (rewrite Hk; apply first_mentions_NoDup_keys).
  assert (Hpresent : forall location,
             location ∈ dict_keys locations <-> threats_at location threats <> []).
  { intros location. rewrite Hk, elem_of_first_mentions, list_elem_of_fmap.
    unfold threats_at. split.
    - intros (t & -> & Ht) Hnone.
      assert (t ∈ filter (fun threat => or_unknown (threat_map.location threat)
                                        = or_unknown (threat_map.location t)) threats)
        by (apply list_elem_of_filter; auto).
      rewrite Hnone in H. apply elem_of_nil in H. contradiction.
    - intros H. destruct (filter _ threats) as [|t rest] eqn:E; [contradiction|].
      assert (Ht : t ∈ filter (fun threat => or_unknown (threat_map.location threat)
                                             = location) threats)
        by (rewrite E; left).
      apply list_elem_of_filter in Ht as [Hl Ht]. eauto. }
  intros location counts. split.
  - intros H. pose proof (dict_get_NoDup_In _ _ _ Hnd H) as Hget.
    split; [apply Hg, Hget|]. apply Hpresent, dict_get_is_Some. eauto.
  - intros [-> H]. apply Hpresent, dict_get_is_Some in H as [counts Hget].
    rewrite <- (Hg _ _ Hget). apply dict_get_In, Hget.
Qed.

(** X25.  The timeline of the threat map lists each day on which a row
    was created once, with the number of rows of that day, in ascending
    order of the dates. *)
Theorem timeline_is_in_order_of_the_dates
  (date_of : Z -> string) (threats : list threat_map.Threat) (answer : threat_map.ThreatMap) :
  threat_map.get_threat_map date_of threats = Returns answer ->
  StronglySorted (fun a b => String.compare a.1 b.1 = Lt) (threat_map.timeline answer) /\
  forall date n,
    (date, n) ∈ threat_map.timeline answer <->
    n = tally date (map (fun t => date_of (threat_map.created_at t)) threats) /\ n <> 0%nat.
Proof.
  unfold threat_map.get_threat_map.
  destruct (threat_map.process threats ([], [], [])) as [counted_|e]; [|discriminate].
  cbn [outcome_bind]. intros [= <-]. simpl.
  assert (Hfold : fold_left (fun data threat =>
                               threat_map.count_up data (date_of (threat_map.created_at threat)))
                    threats [] =
                  fold_left threat_map.count_up
                    (map (fun t => date_of (threat_map.created_at t)) threats) []).
  { generalize (@nil (string * nat)). induction threats as [|t threats IH]; intros d;
      simpl; [reflexivity|apply IH]. }
  rewrite Hfold.
  destruct (counted (map (fun t => date_of (threat_map.created_at t)) threats)) as [Hnd Hin].
  split.
  - apply sorted_keys_ascend; [|apply sorted_items_sorted].
    unfold dict_keys. rewrite sorted_items_perm. exact Hnd.
  - intros date n. rewrite sorted_items_perm. apply Hin.
Qed.

(** X26.  A row whose severity is none of the keys that a location starts
    with makes the threat map fail, whatever the other rows are. *)
Theorem unknown_severity_fails_the_threat_map
  (date_of : Z -> string) (threats : list threat_map.Threat) :
  Exists (fun threat => threat_map.severity threat ∉
                          ["total"; "critical"; "high"; "medium"; "low"]) threats ->
  exists e, threat_map.get_threat_map date_of threats = Raises e.
Proof.
  intros Hex. unfold threat_map.get_threat_map.
  destruct (process_raises threats ([], [], []) Hex) as [e ->]; [constructor|].
  exists e. reflexivity.
Qed.

Lemma three_threats_valid :
  Forall (fun threat => valid_severity (threat_map.severity threat)) three_threats.
Proof.
  unfold three_threats, valid_severity. repeat constructor; simpl;
    rewrite !elem_of_cons; auto.
Qed.

Lemma threat_map_counts_every_row_witness :
  exists answer,
    threat_map.get_threat_map day_of three_threats = Returns answer /\
    (forall location counts,
        (location, counts) ∈ threat_map.locations answer <->
        counts = counters location three_threats /\
        threats_at location three_threats <> []) /\
    (forall category n,
        (category, n) ∈ threat_map.categories answer <->
        n = tally category
              (map (fun t => or_unknown (threat_map.category t)) three_threats)
        /\ n <> 0%nat) /\
    (forall source n,
        (source, n) ∈ threat_map.sources answer <->
        n = tally source (map (fun t => or_unknown (threat_map.source t)) three_threats)
        /\ n <> 0%nat).
Proof.
  exact (threat_map_counts_every_row day_of three_threats three_threats_valid).
Defined.

Lemma timeline_is_in_order_of_the_dates_witness :
  exists answer,
    threat_map.get_threat_map day_of three_threats = Returns answer /\
    StronglySorted (fun a b => String.compare a.1 b.1 = Lt) (threat_map.timeline answer) /\
    forall date n,
      (date, n) ∈ threat_map.timeline answer <->
      n = tally date (map (fun t => day_of (threat_map.created_at t)) three_threats)
      /\ n <> 0%nat.
Proof.
  eexists. split; [reflexivity|].
  apply (timeline_is_in_order_of_the_dates day_of three_threats). reflexivity.
Defined.

Lemma unknown_severity_fails_the_threat_map_witness :
  exists e,
    threat_map.get_threat_map day_of
      [{| threat_map.severity := "info"; threat_map.category := None;
          threat_map.source := None; threat_map.location := None;
          threat_map.created_at := 0%Z |}] = Raises e.
Proof.
  apply (unknown_severity_fails_the_threat_map day_of). constructor. simpl.
  rewrite !elem_of_cons. intros [H|[H|[H|[H|[H|H]]]]]; try discriminate.
  apply elem_of_nil in H. exact H.
Defined.

(** ** The fused score on inputs between 0 and 1 *)



(** ** The keys of the cached views *)

(** X28.  For query parameters that pass the patterns of the route, the
    cache key of the attack-path view determines the parameters, and it
    is never a key of the threat map: no view is served from the cache
    for other parameters than those it was computed for. *)
Theorem cache_keys_tell_the_parameters_apart
  (risk_level risk_level' : option string) (time_range time_range' : string) :
  valid_risk_level risk_level -> valid_risk_level risk_level' ->
  valid_time_range time_range -> valid_time_range time_range' ->
  (attack_paths_key risk_level time_range = attack_paths_key risk_level' time_range' ->
   risk_level = risk_level' /\ time_range = time_range') /\
  attack_paths_key risk_level time_range <> threat_map_key time_range'.
Proof.
  unfold valid_risk_level, valid_time_range. rewrite !elem_of_cons.
  intros [->|[->|[->|[->|[->|H]]]]]; [| | | | |apply elem_of_nil in H; contradiction];
  intros [->|[->|[->|[->|[->|H']]]]]; try (apply elem_of_nil in H'; contradiction);
  intros [->|[->|[->|[->|H1]]]]; try (apply elem_of_nil in H1; contradiction);
  intros [->|[->|[->|[->|H2]]]]; try (apply elem_of_nil in H2; contradiction);
  (split; [intros E; first [split; reflexivity|discriminate E]|discriminate]).
Qed.

Lemma cache_keys_tell_the_parameters_apart_witness :
  (attack_paths_key None "24h" = attack_paths_key (Some "high") "24h" ->
   None = Some "high" /\ "24h" = "24h") /\
  attack_paths_key None "24h" <> threat_map_key "24h".
Proof.
  apply (cache_keys_tell_the_parameters_apart None (Some "high") "24h" "24h");
    unfold valid_risk_level, valid_time_range; rewrite !elem_of_cons; auto.
Defined.
